(** * pisa.stages.aeff.hist : effective-area transforms

    A shallow embedding of [src/pisa/stages/aeff/hist.py] (class [hist]):
    [__init__], [load_events], [_compute_nominal_transforms] and
    [_compute_transforms], with the properties the specification states
    about them and further properties of the four methods: what they do on
    the edges of their domain, what they keep invariant, how they compose and
    what they do not depend on.

    Conventions of the embedding.
    - numpy arrays are lists of binary64 floats ([PrimFloat.float]) in
      row-major order that live in a store and are referred to by address,
      so that sharing of one array by several transforms and in-place
      updates ([/=]) are visible; an array has the shape of the bins it is
      taken over, and the in-place division broadcasts its divisor, or
      refuses the shapes, as numpy does;
    - Python exceptions are values of [exn]; a method of the stage is a
      function from the world (stage attributes, array store, log of calls
      into the event container) to a result and the world it leaves behind,
      an exception leaving every update made before it in place;
    - the modules the stage imports but that are not part of the sources
      (flavInt, events, binning, units, the Stage base class) are either taken
      as the fields of the class [Collaborators] or modelled from the
      specification, which each definition concerned says. *)

From Stdlib Require Import ZArith Lia List Bool Ascii String Sorted.
From Stdlib Require Import Floats.PrimFloat.
From stdpp Require Import base list strings.
Import ListNotations.

Local Open Scope string_scope.
Local Open Scope list_scope.

(** ** Python exceptions and results *)

(** The messages of the two [ValueError]s raised by the binning checks. *)
Inductive message : Type :=
| MissingTrueEnergy                       (* 'Input binning must contain true_energy dimension, but does not.' *)
| ExtraDimensions (sorted_dims : list string) (* 'Input binning has extra dimension(s): %s' % sorted(excess_dims) *)
| OperandsCouldNotBeBroadcast             (* numpy: 'operands could not be broadcast together with shapes ...' *)
| NonBroadcastableOutput.                 (* numpy: 'non-broadcastable output operand with shape ... doesn't match the broadcast shape ...' *)

Inductive exn : Type :=
| AssertionError
| UnboundLocalError (variable : string)
| AttributeError (attribute : string)
| IndexError
| ValueError (msg : message)
| CollaboratorError (what : string).      (* raised inside a module that is not part of the sources *)

(** The name of the Python class of an exception. The class of an exception
    raised inside a module that is not among the sources is not known. *)
Definition class_name (e : exn) : option string :=
  match e with
  | AssertionError => Some "AssertionError"
  | UnboundLocalError _ => Some "UnboundLocalError"
  | AttributeError _ => Some "AttributeError"
  | IndexError => Some "IndexError"
  | ValueError _ => Some "ValueError"
  | CollaboratorError _ => None
  end.

Inductive result (A : Type) : Type :=
| OK (a : A)
| Raise (e : exn).
Arguments OK {A} a.
Arguments Raise {A} e.

Definition result_bind {A B} (r : result A) (k : A -> result B) : result B :=
  match r with
  | OK a => k a
  | Raise e => Raise e
  end.

Definition returns {A} (r : result A) : Prop := exists a, r = OK a.

Declare Scope result_scope.
Delimit Scope result_scope with result.
Notation "x <- r ;; k" := (result_bind r (fun x => k))
  (at level 100, r at next level, right associativity) : result_scope.

(** ** Arrays *)

Abbreviation ndarray := (list float) (only parsing).
Abbreviation addr := nat (only parsing).
Abbreviation store := (list (list float)) (only parsing).

(** [a * x] for an array [a] and a Python float [x]: a new array. *)
Definition ndarray_mul_scalar (a : ndarray) (x : float) : ndarray :=
  List.map (fun v => PrimFloat.mul v x) a.

(** Element-wise division of equal-length arrays. *)
Fixpoint ndarray_div (a b : ndarray) : ndarray :=
  match a, b with
  | x :: a', y :: b' => PrimFloat.div x y :: ndarray_div a' b'
  | _, _ => []
  end.

(** The shape of an array: the sizes of its dimensions, the first dimension
    first. The elements of an array are kept flat, in row-major order. *)
Definition shape : Type := list nat.

(** The number of elements of an array of the shape. *)
Definition size (s : shape) : nat := List.fold_right Nat.mul 1 s.

(** numpy's broadcasting of two shapes, read from their last dimensions on:
    two dimensions go together when they are equal or one of them is 1, and
    the shorter shape is completed with ones. *)
Fixpoint broadcast_rev (a b : list nat) : option (list nat) :=
  match a, b with
  | [], s => Some s
  | s, [] => Some s
  | da :: a', db :: b' =>
      match broadcast_rev a' b' with
      | None => None
      | Some s =>
          if (da =? db)%nat then Some (da :: s)
          else if (da =? 1)%nat then Some (db :: s)
          else if (db =? 1)%nat then Some (da :: s)
          else None
      end
  end.

Definition broadcast_shapes (a b : shape) : option shape :=
  option_map (@List.rev nat) (broadcast_rev (List.rev a) (List.rev b)).

(** [k] consecutive pieces of [n] elements each. *)
Fixpoint chunks (n k : nat) (l : ndarray) : list ndarray :=
  match k with
  | 0 => []
  | S k' => firstn n l :: chunks n k' (skipn n l)
  end.

(** The elements of an array of shape [sb] repeated so as to fill the shape
    [sa], for shapes of the same number of dimensions in which every
    dimension of [sb] is that of [sa] or 1. *)
Fixpoint broadcast_data (sb sa : shape) (b : ndarray) : ndarray :=
  match sb, sa with
  | db :: sb', da :: sa' =>
      if (db =? da)%nat
      then List.flat_map (broadcast_data sb' sa') (chunks (size sb') db b)
      else List.concat (List.repeat (broadcast_data sb' sa' b) da)
  | _, _ => b
  end.

(** [b] of shape [sb] broadcast to the shape [sa]. *)
Definition broadcast_to (sa sb : shape) (b : ndarray) : ndarray :=
  broadcast_data (List.repeat 1 (List.length sa - List.length sb) ++ sb) sa b.

(** [a /= b] for arrays of the shapes [sa] and [sb]: numpy broadcasts the
    two operands and refuses when the shapes do not go together, or when the
    result would not have the shape of [a], which is updated in place. *)
Definition in_place_div (a : ndarray) (sa : shape) (b : ndarray) (sb : shape)
  : result ndarray :=
  match broadcast_shapes sa sb with
  | None => Raise (ValueError OperandsCouldNotBeBroadcast)
  | Some s =>
      if bool_decide (s = sa)
      then OK (ndarray_div a (broadcast_to sa sb b))
      else Raise (ValueError NonBroadcastableOutput)
  end.

(** [np.pi], the binary64 number nearest to pi. *)
Definition np_pi : float := 0x1.921fb54442d18p+1%float.

(** ** Flavours, interaction types and groups (pisa.utils.flavInt) *)

Inductive NuFlav : Type := nue | nuebar | numu | numubar | nutau | nutaubar.
Inductive IntType : Type := cc | nc.
Definition NuFlavInt : Type := (NuFlav * IntType)%type.

(** Modelled from the spec: a category group is a set of categories; the
    absent class NuFlavIntGroup is taken as the list of its categories. *)
Definition NuFlavIntGroup : Type := list NuFlavInt.

#[global] Instance NuFlav_eq_dec : EqDecision NuFlav.
Proof. solve_decision. Defined.

#[global] Instance IntType_eq_dec : EqDecision IntType.
Proof. solve_decision. Defined.

Definition NuFlav_eqb (a b : NuFlav) : bool :=
  match a, b with
  | nue, nue | nuebar, nuebar | numu, numu
  | numubar, numubar | nutau, nutau | nutaubar, nutaubar => true
  | _, _ => false
  end.

Definition IntType_eqb (a b : IntType) : bool :=
  match a, b with
  | cc, cc | nc, nc => true
  | _, _ => false
  end.

Definition NuFlavInt_eqb (a b : NuFlavInt) : bool :=
  NuFlav_eqb (fst a) (fst b) && IntType_eqb (snd a) (snd b).

Definition ALL_NUFLAVS : list NuFlav := [nue; nuebar; numu; numubar; nutau; nutaubar].

Definition ALL_NUFLAVINTS : list NuFlavInt :=
  List.flat_map (fun f => [(f, cc); (f, nc)]) ALL_NUFLAVS.

(** [str(flav)] and [str(flavint)]. *)
Definition str_NuFlav (f : NuFlav) : string :=
  match f with
  | nue => "nue" | nuebar => "nuebar" | numu => "numu"
  | numubar => "numubar" | nutau => "nutau" | nutaubar => "nutaubar"
  end.

Definition str_IntType (i : IntType) : string :=
  match i with cc => "cc" | nc => "nc" end.

Definition str_NuFlavInt (k : NuFlavInt) : string :=
  str_NuFlav (fst k) ++ "_" ++ str_IntType (snd k).

(** [k in group] for a category [k]. *)
Definition has_flavint (g : NuFlavIntGroup) (k : NuFlavInt) : bool :=
  existsb (NuFlavInt_eqb k) g.

(** Modelled from the spec: [group.flavs()], the flavours that occur in the
    group, each once. *)
Definition flavs (g : NuFlavIntGroup) : list NuFlav :=
  List.filter (fun f => existsb (fun k => NuFlav_eqb f (fst k)) g) ALL_NUFLAVS.

(** [len(set(group).intersection(other)) > 0]. *)
Definition set_intersection (g other : NuFlavIntGroup) : list NuFlavInt :=
  List.filter (fun k => has_flavint g k && has_flavint other k) ALL_NUFLAVINTS.

(** [x in names] for a list of strings. *)
Definition str_in (x : string) (names : list string) : bool :=
  existsb (String.eqb x) names.

(** ** Binnings (pisa.core.binning) *)

Module OneDimBinning.
Record t : Type := mk {
  name : string;
  units : string;
  bin_edges : list float;        (* the magnitudes of the edges *)
}.
End OneDimBinning.

(** Modelled from the spec: a binning is an ordered sequence of named
    dimensions, each with a unit and an ordered sequence of bin edges; its
    bin volumes are the products of the per-dimension bin widths. *)
Module MultiDimBinning.
Definition t : Type := list OneDimBinning.t.

Definition names (b : t) : list string := List.map OneDimBinning.name b.

(** [dim in binning]. *)
Definition contains (b : t) (dim : string) : bool := str_in dim (names b).

Definition bin_edges (b : t) : list (list float) := List.map OneDimBinning.bin_edges b.

(** Widths of the bins between consecutive edges. *)
Fixpoint bin_widths (edges : list float) : list float :=
  match edges with
  | lo :: ((hi :: _) as rest) => PrimFloat.sub hi lo :: bin_widths rest
  | _ => []
  end.

Definition outer (vol widths : list float) : list float :=
  List.flat_map (fun v => List.map (fun w => PrimFloat.mul v w) widths) vol.

(** [binning.bin_volumes(attach_units=False)], in row-major order. *)
Definition bin_volumes (b : t) : ndarray :=
  List.fold_left (fun vol d => outer vol (bin_widths (OneDimBinning.bin_edges d))) b [1%float].

(** The shape of an array over bins with the given edges: per dimension, one
    bin between two consecutive edges. *)
Definition shape_of_edges (edges : list (list float)) : shape :=
  List.map (fun e => List.length e - 1) edges.

(** [binning.shape]. *)
Definition shape (b : t) : shape := shape_of_edges (bin_edges b).
End MultiDimBinning.

(** A keyword dictionary from dimension names to units ([None]: no unit). *)
Definition units_dict : Type := list (string * option string).

Fixpoint dict_get (d : units_dict) (key : string) : option (option string) :=
  match d with
  | [] => None
  | (k, v) :: rest => if String.eqb k key then Some v else dict_get rest key
  end.

(** ** Parameters *)

Record Quantity : Type := mkQuantity {
  magnitude : float;
  quantity_units : string;
}.

(** ** Transforms (pisa.core.transform) *)

(** Modelled from the spec: a transform is an array tagged with the input
    names it consumes, the output name it produces, the two binnings and the
    summing flag. The array is held by reference. *)
Record BinnedTensorTransform : Type := mkTransform {
  xf_input_names : list string;
  xf_output_name : string;
  xf_input_binning : MultiDimBinning.t;
  xf_output_binning : MultiDimBinning.t;
  xform_array : addr;
  sum_inputs : bool;
}.

Definition TransformSet : Type := list BinnedTensorTransform.

(** ** The stage object

    The records are parameterised by the types of the weight-file parameter,
    of the event container and of content hashes. *)

Section Data.
Context {Source Events Hash : Type}.

Record ParamSet_of : Type := mkParamSet {
  aeff_weight_file : Source;
  livetime : Quantity;
  aeff_scale : Quantity;
  nutau_cc_norm : Quantity;
}.

(** The attributes of a [hist] instance. *)
Record hist_of : Type := mkHist {
  events_hash : option Hash;
  events : option Events;
  particles : string;
  transform_groups : list NuFlavIntGroup;
  sum_grouped_flavints : bool;
  input_names : list string;
  output_names : list string;
  input_binning : MultiDimBinning.t;
  output_binning : MultiDimBinning.t;
  error_method : option string;
  params : ParamSet_of;
  nominal_transforms : TransformSet;
}.

(** Calls into the event container, in the order they were made. *)
Inductive call_of : Type :=
| LoadEvents (h : Hash)
| Histogram (kinds : NuFlavIntGroup).

Record world_of : Type := mkWorld {
  self : hist_of;
  heap : store;
  calls : list call_of;
}.

End Data.

Arguments ParamSet_of : clear implicits.
Arguments hist_of : clear implicits.
Arguments call_of : clear implicits.
Arguments world_of : clear implicits.


(** ** The collaborators of the stage

    What the stage calls in modules that are not among the sources: the
    event container and its content hash, the parsing and printing of
    category groups, the conversion of units, and the initialiser of the
    Stage base class. *)
Class Collaborators : Type := {
  (** the value of the [aeff_weight_file] parameter, the event container
      built from it, and content hashes *)
  Source : Type;
  Events : Type;
  Hash : Type;
  Hash_eq_dec :: EqDecision Hash;
  hash_obj : Source -> Hash;
  (** [Events(evts)]: loading may fail *)
  Events_new : Source -> result Events;
  (** [events.histogram(kinds, binning, binning_cols, weights_col, errors)]:
      a new array *)
  Events_histogram :
    Events -> NuFlavIntGroup -> list (list float) -> list string -> string -> bool -> ndarray;
  (** [NuFlavIntGroup(name)]: the categories a name denotes *)
  NuFlavIntGroup_new : string -> result NuFlavIntGroup;
  (** [flavintGroupsFromString(transform_groups)] *)
  flavintGroupsFromString : string -> result (list NuFlavIntGroup);
  (** [str(group)] *)
  str_NuFlavIntGroup : NuFlavIntGroup -> string;
  (** [quantity.m_as(units)] *)
  m_as : Quantity -> string -> float;
  (** conversion of bin edges from one unit to another *)
  convert_units : string -> string -> list float -> list float;
}.

(** The records at the types of the collaborators at hand. *)
Abbreviation ParamSet := (ParamSet_of Source).
Abbreviation hist := (hist_of Source Events Hash).
Abbreviation call := (call_of Hash).
Abbreviation world := (world_of Source Events Hash).

Section Stage.
Context `{C : Collaborators}.

(** Modelled from the spec: [binning.to] with keyword units converts the dimensions
    that are present, one by one, and fabricates none. *)
Definition MultiDimBinning_to (b : MultiDimBinning.t) (kw : units_dict) : MultiDimBinning.t :=
  List.map (fun d =>
         match dict_get kw (OneDimBinning.name d) with
         | Some (Some u) =>
             OneDimBinning.mk (OneDimBinning.name d) u
               (convert_units (OneDimBinning.units d) u (OneDimBinning.bin_edges d))
         | _ => d
         end) b.

(** Modelled from the spec: [name in group] for a name; a name belongs to a
    group when every category it denotes is a category of the group. *)
Definition NuFlavIntGroup_contains (g : NuFlavIntGroup) (name : string) : result bool :=
  (k <- NuFlavIntGroup_new name ;; OK (forallb (has_flavint g) k))%result.

(** [NuFlavIntGroup(names)] for a sequence of names: the categories of all of
    them. *)
Fixpoint NuFlavIntGroup_of_names (names : list string) : result NuFlavIntGroup :=
  match names with
  | [] => OK []
  | n :: rest =>
      (k <- NuFlavIntGroup_new n ;;
       ks <- NuFlavIntGroup_of_names rest ;;
       OK (List.filter (fun x => has_flavint k x || has_flavint ks x) ALL_NUFLAVINTS))%result
  end.

(** ** The methods of the stage *)

Definition M (A : Type) : Type := world -> result A * world.

Definition with_self (w : world) (s : hist) : world := mkWorld s (heap w) (calls w).
Definition with_heap (w : world) (h : store) : world := mkWorld (self w) h (calls w).
Definition log_call (w : world) (c : call) : world := mkWorld (self w) (heap w) (calls w ++ [c]).

Definition set_events (s : hist) (ev : Events) (h : Hash) : hist :=
  mkHist (Some h) (Some ev) (particles s) (transform_groups s) (sum_grouped_flavints s)
         (input_names s) (output_names s) (input_binning s) (output_binning s)
         (error_method s) (params s) (nominal_transforms s).

Definition set_nominal_transforms (s : hist) (ts : TransformSet) : hist :=
  mkHist (events_hash s) (events s) (particles s) (transform_groups s) (sum_grouped_flavints s)
         (input_names s) (output_names s) (input_binning s) (output_binning s)
         (error_method s) (params s) ts.

(** ** [hist.load_events] *)

Definition load_events : M unit := fun w =>
  let evts := aeff_weight_file (params (self w)) in
  let this_hash := hash_obj evts in
  if decide (Some this_hash = events_hash (self w)) then (OK tt, w)
  else
    match Events_new evts with
    | Raise e => (Raise e, log_call w (LoadEvents this_hash))
    | OK ev => (OK tt, with_self (log_call w (LoadEvents this_hash)) (set_events (self w) ev this_hash))
    end.

(** ** The state-and-exception monad of the methods *)

Definition ret {A} (a : A) : M A := fun w => (OK a, w).
Definition raise {A} (e : exn) : M A := fun w => (Raise e, w).
Definition lift {A} (r : result A) : M A := fun w => (r, w).
Definition bind {A B} (m : M A) (k : A -> M B) : M B := fun w =>
  match m w with
  | (OK a, w') => k a w'
  | (Raise e, w') => (Raise e, w')
  end.

Declare Scope stage_scope.
Notation "x <- m ;; k" := (bind m (fun x => k))
  (at level 100, m at next level, right associativity) : stage_scope.
Local Open Scope stage_scope.

Definition get_self : M hist := fun w => (OK (self w), w).
Definition log (c : call) : M unit := fun w => (OK tt, log_call w c).

(** A new array object. *)
Definition alloc (a : ndarray) : M addr := fun w =>
  (OK (List.length (heap w)), with_heap w (heap w ++ [a])).

Definition read (p : addr) : M ndarray := fun w =>
  match heap w !! p with
  | Some a => (OK a, w)
  | None => (Raise (CollaboratorError "dangling array reference"), w)
  end.

(** [x /= d] on the array at [p], of shape [sx], for [d] of shape [sd]: the
    array is updated in place, or left as it is when numpy refuses the
    shapes. *)
Definition idiv (p : addr) (sx : shape) (d : ndarray) (sd : shape) : M unit := fun w =>
  match heap w !! p with
  | Some a =>
      match in_place_div a sx d sd with
      | OK q => (OK tt, with_heap w (<[p := q]> (heap w)))
      | Raise e => (Raise e, w)
      end
  | None => (Raise (CollaboratorError "dangling array reference"), w)
  end.

(** ** [hist._compute_nominal_transforms] *)

Definition comp_units : units_dict :=
  [("true_energy", Some "GeV"); ("true_coszen", None); ("true_azimuth", Some "rad")].

(** [sorted(names)] for strings, by insertion. *)
Fixpoint insert_sorted (x : string) (l : list string) : list string :=
  match l with
  | [] => [x]
  | y :: l' => if String.leb x y then x :: l else y :: insert_sorted x l'
  end.

Definition sorted (l : list string) : list string :=
  List.fold_right insert_sorted [] l.

(** [set(binning.names).difference(comp_units.keys())]. *)
Definition excess_dims (b : MultiDimBinning.t) : list string :=
  remove_dups (List.filter (fun n => negb (str_in n (List.map fst comp_units)))
                           (MultiDimBinning.names b)).

(** [{dim: unit for dim, unit in comp_units.items() if dim in binning}]. *)
Definition select_units (b : MultiDimBinning.t) : units_dict :=
  List.filter (fun du => MultiDimBinning.contains b (fst du)) comp_units.

(** The volume of the dimensions the (converted) input binning leaves out. *)
Definition missing_dims_vol (input_binning : MultiDimBinning.t) : float :=
  let missing_dims_vol := 1%float in
  let missing_dims_vol :=
    if negb (MultiDimBinning.contains input_binning "true_azimuth")
    then PrimFloat.mul missing_dims_vol (PrimFloat.mul 2 np_pi)
    else missing_dims_vol in
  let missing_dims_vol :=
    if negb (MultiDimBinning.contains input_binning "true_coszen")
    then PrimFloat.mul missing_dims_vol 2
    else missing_dims_vol in
  missing_dims_vol.

(** [len(set(xform_flavints).intersection(NuFlavIntGroup(input_name))) > 0]. *)
Definition input_intersects (xform_flavints : NuFlavIntGroup) (input_name : string) : result bool :=
  (input_flavs <- NuFlavIntGroup_new input_name ;;
   OK (0 <? List.length (set_intersection xform_flavints input_flavs))%nat)%result.

(** Lines 232-236: the input names that contribute to the group. *)
Fixpoint xform_input_names_of (xform_flavints : NuFlavIntGroup) (names : list string)
  : result (list string) :=
  match names with
  | [] => OK []
  | input_name :: rest =>
      (b <- input_intersects xform_flavints input_name ;;
       r <- xform_input_names_of xform_flavints rest ;;
       OK (if b then input_name :: r else r))%result
  end.

(** The loop over [self.output_names] (lines 238-249 and 262-273): one
    transform for each output name that belongs to the group. *)
Fixpoint xforms_for_outputs (st : hist) (xform_flavints : NuFlavIntGroup)
    (xform_input_names : list string) (aeff_transform : addr) (outs : list string)
  : result (list BinnedTensorTransform) :=
  match outs with
  | [] => OK []
  | output_name :: rest =>
      (b <- NuFlavIntGroup_contains xform_flavints output_name ;;
       r <- xforms_for_outputs st xform_flavints xform_input_names aeff_transform rest ;;
       OK (if b
           then mkTransform xform_input_names output_name (input_binning st)
                  (output_binning st) aeff_transform (sum_grouped_flavints st) :: r
           else r))%result
  end.

(** The loop over [self.input_names] when flavints are not summed (lines
    255-273). A transform built from one input name holds the list of that
    one name. *)
Fixpoint xforms_for_inputs (st : hist) (xform_flavints : NuFlavIntGroup)
    (aeff_transform : addr) (ins : list string) : result (list BinnedTensorTransform) :=
  match ins with
  | [] => OK []
  | input_name :: rest =>
      (b <- input_intersects xform_flavints input_name ;;
       xs <- (if b
              then xforms_for_outputs st xform_flavints [input_name] aeff_transform
                     (output_names st)
              else OK []) ;;
       r <- xforms_for_inputs st xform_flavints aeff_transform rest ;;
       OK (xs ++ r))%result
  end.

(** The transforms of one group (lines 231-273), given its array. *)
Definition assemble (st : hist) (xform_flavints : NuFlavIntGroup) (aeff_transform : addr)
  : result (list BinnedTensorTransform) :=
  if sum_grouped_flavints st
  then (xform_input_names <- xform_input_names_of xform_flavints (input_names st) ;;
        xforms_for_outputs st xform_flavints xform_input_names aeff_transform
          (output_names st))%result
  else xforms_for_inputs st xform_flavints aeff_transform (input_names st).

(** Lines 209-223: the histogram of the group, divided in place by the bin
    volumes and the volume of the missing dimensions. Modelled from the
    spec: the histogram is an array over the bins of the edges it is asked
    for, and the bin volumes are an array over the bins of the binning. *)
Definition compute_aeff (all_bin_edges : list (list float))
    (input_binning' : MultiDimBinning.t) (missing_dims_vol : float)
    (xform_flavints : NuFlavIntGroup) : M addr :=
  st <- get_self ;;
  match events st with
  | None => raise (AttributeError "events")
  | Some ev =>
      _ <- log (Histogram xform_flavints) ;;
      aeff_transform <-
        alloc (Events_histogram ev xform_flavints all_bin_edges
                 (MultiDimBinning.names (input_binning st)) "weighted_aeff"
                 (match error_method st with Some _ => true | None => false end)) ;;
      let bin_volumes := MultiDimBinning.bin_volumes input_binning' in
      _ <- idiv aeff_transform (MultiDimBinning.shape_of_edges all_bin_edges)
             (ndarray_mul_scalar bin_volumes missing_dims_vol)
             (MultiDimBinning.shape input_binning') ;;
      ret aeff_transform
  end.

(** The loop over [self.transform_groups] (lines 205-273). *)
Fixpoint nominal_loop (all_bin_edges : list (list float))
    (input_binning' : MultiDimBinning.t) (missing_dims_vol : float)
    (groups : list NuFlavIntGroup) : M (list BinnedTensorTransform) :=
  match groups with
  | [] => ret []
  | xform_flavints :: rest =>
      aeff_transform <- compute_aeff all_bin_edges input_binning' missing_dims_vol
                          xform_flavints ;;
      st <- get_self ;;
      xs <- lift (assemble st xform_flavints aeff_transform) ;;
      r <- nominal_loop all_bin_edges input_binning' missing_dims_vol rest ;;
      ret (xs ++ r)
  end.

(** Lines 163-275: what follows the call of [load_events]. *)
Definition validate_and_histogram : M TransformSet :=
  st <- get_self ;;
  if negb (MultiDimBinning.contains (input_binning st) "true_energy")
  then raise (ValueError MissingTrueEnergy)
  else
    let excess_dims := excess_dims (input_binning st) in
    if (0 <? List.length excess_dims)%nat
    then raise (ValueError (ExtraDimensions (sorted excess_dims)))
    else
      let in_units := select_units (input_binning st) in
      let out_units := select_units (output_binning st) in
      let input_binning' := MultiDimBinning_to (input_binning st) in_units in
      let output_binning' := MultiDimBinning_to (output_binning st) out_units in
      let missing_dims_vol := missing_dims_vol input_binning' in
      let all_bin_edges := MultiDimBinning.bin_edges output_binning' in
      nominal_loop all_bin_edges input_binning' missing_dims_vol (transform_groups st).

Definition _compute_nominal_transforms : M TransformSet :=
  _ <- load_events ;;
  validate_and_histogram.

(** ** [hist._compute_transforms] *)

(** [transform.output_name in ['nutau_cc', 'nutaubar_cc']]. *)
Definition is_special_channel (output_name : string) : bool :=
  str_in output_name ["nutau_cc"; "nutaubar_cc"].

(** [transform.input_names[0]]. *)
Definition first_input_name (transform : BinnedTensorTransform) : result string :=
  match xf_input_names transform with
  | [] => Raise IndexError
  | n :: _ => OK n
  end.

(** The condition of lines 292-293; [and] evaluates its right operand only
    when the left one holds. *)
Definition matches_group (xform_flavints : NuFlavIntGroup) (flav_names : list string)
    (transform : BinnedTensorTransform) : result bool :=
  (n <- first_input_name transform ;;
   if str_in n flav_names
   then NuFlavIntGroup_contains xform_flavints (xf_output_name transform)
   else OK false)%result.

(** Lines 295-299: the rescaled array of a group, computed from the first
    matching transform. Each product is a new array. *)
Definition rescale_array (aeff_scale livetime_s : float) (transform : BinnedTensorTransform)
  : M addr :=
  nominal <- read (xform_array transform) ;;
  aeff_transform <- alloc (ndarray_mul_scalar nominal (PrimFloat.mul aeff_scale livetime_s)) ;;
  if is_special_channel (xf_output_name transform)
  then
    st <- get_self ;;
    scaled <- read aeff_transform ;;
    alloc (ndarray_mul_scalar scaled (magnitude (nutau_cc_norm (params st))))
  else ret aeff_transform.

(** The loop over [self.nominal_transforms] (lines 291-308); the argument
    [aeff_transform] is the local variable of that name, [None] until the
    first match. *)
Fixpoint rescale_loop (xform_flavints : NuFlavIntGroup) (flav_names : list string)
    (aeff_scale livetime_s : float) (transforms : list BinnedTensorTransform)
    (aeff_transform : option addr) : M (list BinnedTensorTransform) :=
  match transforms with
  | [] => ret []
  | transform :: rest =>
      b <- lift (matches_group xform_flavints flav_names transform) ;;
      if b
      then
        a <- match aeff_transform with
             | None => rescale_array aeff_scale livetime_s transform
             | Some a => ret a
             end ;;
        st <- get_self ;;
        let new_xform :=
          mkTransform (xf_input_names transform) (xf_output_name transform)
            (xf_input_binning transform) (xf_output_binning transform)
            a (sum_grouped_flavints st) in
        r <- rescale_loop xform_flavints flav_names aeff_scale livetime_s rest (Some a) ;;
        ret (new_xform :: r)
      else rescale_loop xform_flavints flav_names aeff_scale livetime_s rest aeff_transform
  end.

(** The loop over [self.transform_groups] (lines 287-308).
    [xform_flavints[0]] raises on an empty group. *)
Fixpoint rescale_groups (aeff_scale livetime_s : float) (groups : list NuFlavIntGroup)
  : M (list BinnedTensorTransform) :=
  match groups with
  | [] => ret []
  | xform_flavints :: rest =>
      match xform_flavints with
      | [] => raise IndexError
      | repr_flav_int :: _ =>
          let flav_names := List.map str_NuFlav (flavs xform_flavints) in
          st <- get_self ;;
          xs <- rescale_loop xform_flavints flav_names aeff_scale livetime_s
                  (nominal_transforms st) None ;;
          r <- rescale_groups aeff_scale livetime_s rest ;;
          ret (xs ++ r)
      end
  end.

Definition _compute_transforms : M TransformSet :=
  st <- get_self ;;
  let aeff_scale := m_as (aeff_scale (params st)) "dimensionless" in
  let livetime_s := m_as (livetime (params st)) "sec" in
  rescale_groups aeff_scale livetime_s (transform_groups st).

(** ** [hist.__init__] *)

Inductive input_names_arg : Type :=
| NamesNone
| NamesString (s : string)
| NamesSeq (names : list string).

(** [s.replace(' ', '')] and [s.split(',')]. *)
Fixpoint remove_spaces (s : string) : string :=
  match s with
  | EmptyString => EmptyString
  | String c rest => if Ascii.eqb c " " then remove_spaces rest else String c (remove_spaces rest)
  end.

Fixpoint split_commas (s : string) : list string :=
  match s with
  | EmptyString => [EmptyString]
  | String c rest =>
      if Ascii.eqb c ","
      then EmptyString :: split_commas rest
      else match split_commas rest with
           | [] => [String c EmptyString]
           | h :: t => String c h :: t
           end
  end.

(** The arguments of the constructor that the stage itself reads; the
    remaining ones are handed to the base class unchanged. *)
Record init_args : Type := mkArgs {
  arg_params : ParamSet;
  arg_particles : string;
  arg_transform_groups : string;
  arg_sum_grouped_flavints : bool;
  arg_input_binning : MultiDimBinning.t;
  arg_output_binning : MultiDimBinning.t;
  arg_input_names : input_names_arg;
  arg_error_method : option string;
}.

Definition default_input_names : list string :=
  ["nue"; "nuebar"; "numu"; "numubar"; "nutau"; "nutaubar"].

(** Lines 108-113. [None] stands for Python's None. *)
Definition init_input_names (a : init_args) : option (list string) :=
  match arg_input_names a with
  | NamesString s => Some (split_commas (remove_spaces s))
  | NamesNone =>
      if String.eqb (arg_particles a) "neutrinos" then Some default_input_names else None
  | NamesSeq names => Some names
  end.

(** Lines 117-122. [None] stands for the local variable [output_names] not
    having been assigned. *)
Definition init_output_names (a : init_args) (groups : list NuFlavIntGroup)
    (input_names : option (list string)) : result (option (list string)) :=
  if String.eqb (arg_particles a) "neutrinos"
  then
    if arg_sum_grouped_flavints a
    then OK (Some (List.map str_NuFlavIntGroup groups))
    else
      (input_flavints <- NuFlavIntGroup_of_names (default [] input_names) ;;
       OK (Some (List.map str_NuFlavInt input_flavints)))%result
  else OK None.

(** Modelled from the spec: the initialiser of the Stage base class, which is
    not among the sources, stores the names, binnings and parameters it is
    given; the nominal transforms are computed later, on demand. *)
Definition Stage_init (a : init_args) (groups : list NuFlavIntGroup)
    (input_names : option (list string)) (output_names : list string) : result hist :=
  match input_names with
  | None => Raise (CollaboratorError "Stage.__init__")
  | Some ins =>
      OK (mkHist None None (arg_particles a) groups (arg_sum_grouped_flavints a)
            ins output_names (arg_input_binning a) (arg_output_binning a)
            (arg_error_method a) (arg_params a) [])
  end.

Definition __init__ (a : init_args) : result hist :=
  if negb (str_in (arg_particles a) ["neutrinos"; "muons"])
  then Raise AssertionError
  else
    (groups <- flavintGroupsFromString (arg_transform_groups a) ;;
     let input_names := init_input_names a in
     output_names <- init_output_names a groups input_names ;;
     match output_names with
     | None => Raise (UnboundLocalError "output_names")
     | Some outs => Stage_init a groups input_names outs
     end)%result.

(** ** The life cycle of the stage *)

(** Modelled from the spec: the base class, which is not among the sources,
    runs the nominal computation and keeps the set it returns as
    [self.nominal_transforms] for the rescale phase. *)
Definition cache_nominal_transforms : M unit := fun w =>
  match _compute_nominal_transforms w with
  | (OK ts, w') => (OK tt, with_self w' (set_nominal_transforms (self w') ts))
  | (Raise e, w') => (Raise e, w')
  end.

End Stage.

(** * The vocabulary of the properties

    Names for what the methods compute and for the conditions under which
    they run through, in which the properties below are stated. *)

Section Vocabulary.
Context `{C : Collaborators}.

(** The input binning is refused: it lacks 'true_energy' or names a
    dimension that is none of the three recognised ones. *)
Definition invalid_input_binning (b : MultiDimBinning.t) : Prop :=
  MultiDimBinning.contains b "true_energy" = false
  \/ exists n, In n (MultiDimBinning.names b)
               /\ ~ In n ["true_energy"; "true_coszen"; "true_azimuth"].

(** Every name of the list denotes categories. *)
Definition names_parse (names : list string) : Prop :=
  Forall (fun n => returns (NuFlavIntGroup_new n)) names.

(** The tests of the assembler as total functions: a name that does not
    parse passes neither. *)
Definition intersects_input (g : NuFlavIntGroup) (input_name : string) : bool :=
  match input_intersects g input_name with
  | OK b => b
  | Raise _ => false
  end.

Definition belongs_to (g : NuFlavIntGroup) (output_name : string) : bool :=
  match NuFlavIntGroup_contains g output_name with
  | OK b => b
  | Raise _ => false
  end.

(** The transforms of a group in merged mode: one per output name that
    belongs to the group, each with all the input names that meet it. *)
Definition merged_transforms (st : hist) (g : NuFlavIntGroup) (a : addr)
  : list BinnedTensorTransform :=
  List.map
    (fun o => mkTransform (List.filter (intersects_input g) (input_names st)) o
                (input_binning st) (output_binning st) a (sum_grouped_flavints st))
    (List.filter (belongs_to g) (output_names st)).

(** The transforms of a group in unmerged mode: one per pair of an input name
    that meets the group and an output name that belongs to it. *)
Definition unmerged_transforms (st : hist) (g : NuFlavIntGroup) (a : addr)
  : list BinnedTensorTransform :=
  List.flat_map
    (fun i =>
       List.map
         (fun o => mkTransform [i] o (input_binning st) (output_binning st) a
                     (sum_grouped_flavints st))
         (List.filter (belongs_to g) (output_names st)))
    (List.filter (intersects_input g) (input_names st)).

Definition assembled (st : hist) (g : NuFlavIntGroup) (a : addr)
  : list BinnedTensorTransform :=
  if sum_grouped_flavints st then merged_transforms st g a else unmerged_transforms st g a.

(** The binnings in the units of the computation. *)
Definition canonical_input_binning (st : hist) : MultiDimBinning.t :=
  MultiDimBinning_to (input_binning st) (select_units (input_binning st)).

Definition canonical_output_binning (st : hist) : MultiDimBinning.t :=
  MultiDimBinning_to (output_binning st) (select_units (output_binning st)).

(** A binning in the units of the computation, said outright: the energy in
    GeV, the azimuth in rad, every other dimension as it is. *)
Definition in_computational_units (b : MultiDimBinning.t) : MultiDimBinning.t :=
  List.map
    (fun d =>
       if String.eqb (OneDimBinning.name d) "true_energy"
       then OneDimBinning.mk (OneDimBinning.name d) "GeV"
              (convert_units (OneDimBinning.units d) "GeV" (OneDimBinning.bin_edges d))
       else if String.eqb (OneDimBinning.name d) "true_azimuth"
       then OneDimBinning.mk (OneDimBinning.name d) "rad"
              (convert_units (OneDimBinning.units d) "rad" (OneDimBinning.bin_edges d))
       else d)
    b.

(** The raw weighted histogram of a group, as the event container returns
    it. *)
Definition raw_histogram (st : hist) (ev : Events) (g : NuFlavIntGroup) : ndarray :=
  Events_histogram ev g (MultiDimBinning.bin_edges (canonical_output_binning st))
    (MultiDimBinning.names (input_binning st)) "weighted_aeff"
    (match error_method st with Some _ => true | None => false end).

(** The shapes of the histograms and of the bin volumes. *)
Definition histogram_shape (st : hist) : shape :=
  MultiDimBinning.shape (canonical_output_binning st).

Definition volumes_shape (st : hist) : shape :=
  MultiDimBinning.shape (canonical_input_binning st).

(** The stage is ready for its nominal computation: the events [ev] are the
    ones [load_events] leaves in place, the input binning passes the checks,
    every declared name denotes categories, the histograms have as many
    elements as their shape says, and numpy accepts the shape of the bin
    volumes for a division in place of an array of the shape of the
    histograms. *)
Record nominal_ready (w : world) (ev : Events) : Prop := {
  ready_events : exists w1, load_events w = (OK tt, w1) /\ events (self w1) = Some ev;
  ready_energy : MultiDimBinning.contains (input_binning (self w)) "true_energy" = true;
  ready_dims : forall n, In n (MultiDimBinning.names (input_binning (self w))) ->
                         In n ["true_energy"; "true_coszen"; "true_azimuth"];
  ready_inputs : names_parse (input_names (self w));
  ready_outputs : names_parse (output_names (self w));
  ready_sizes :
    Forall (fun g => List.length (raw_histogram (self w) ev g) = size (histogram_shape (self w)))
           (transform_groups (self w));
  ready_shapes :
    broadcast_shapes (histogram_shape (self w)) (volumes_shape (self w))
    = Some (histogram_shape (self w));
}.

(** The groups with the addresses of their arrays: the arrays are allocated
    one after the other. *)
Definition with_addresses (base : addr) (groups : list NuFlavIntGroup)
  : list (addr * NuFlavIntGroup) :=
  combine (seq base (List.length groups)) groups.

(** What the histograms are divided by: the bin volumes times the volume of
    the missing dimensions, broadcast to the shape of the histograms. *)
Definition divisor (st : hist) : ndarray :=
  broadcast_to (histogram_shape st) (volumes_shape st)
    (ndarray_mul_scalar (MultiDimBinning.bin_volumes (canonical_input_binning st))
       (missing_dims_vol (canonical_input_binning st))).

(** The array the nominal computation builds for a group (lines 209-223). *)
Definition nominal_array (st : hist) (ev : Events) (g : NuFlavIntGroup) : ndarray :=
  ndarray_div (raw_histogram st ev g) (divisor st).

(** The groups partition the categories they cover: none is empty, and no
    category is in two of them. *)
Record groups_partition (groups : list NuFlavIntGroup) : Prop := {
  partition_nonempty : forall g, In g groups -> g <> [];
  partition_NoDup : NoDup groups;
  partition_disjoint :
    forall g1 g2 k, In g1 groups -> In g2 groups -> In k g1 -> In k g2 -> g1 = g2;
}.

(** The output names are the names of the groups, as the constructor sets
    them in merged mode, and the name of a group denotes the categories of
    the group. *)
Definition names_denote_groups (st : hist) : Prop :=
  output_names st = List.map str_NuFlavIntGroup (transform_groups st)
  /\ forall g, In g (transform_groups st) ->
       exists fl, NuFlavIntGroup_new (str_NuFlavIntGroup g) = OK fl
                  /\ forall k, In k fl <-> In k g.

(** A computation that leaves the stage and the log alone and only adds
    arrays to the store: no array that was there is changed. *)
Definition only_allocates {A : Type} (m : M A) : Prop :=
  forall w, exists extra, snd (m w) = mkWorld (self w) (heap w ++ extra) (calls w).

(** The names of the flavours of a group, and the test of lines 292-293 as a
    total function: a transform on which the test raises does not match. *)
Definition flav_names (g : NuFlavIntGroup) : list string := List.map str_NuFlav (flavs g).

Definition matched (g : NuFlavIntGroup) (t : BinnedTensorTransform) : bool :=
  match matches_group g (flav_names g) t with
  | OK b => b
  | Raise _ => false
  end.

(** A nominal transform with its array replaced and the summing flag of the
    stage. *)
Definition retag (st : hist) (a : addr) (t : BinnedTensorTransform) : BinnedTensorTransform :=
  mkTransform (xf_input_names t) (xf_output_name t) (xf_input_binning t)
    (xf_output_binning t) a (sum_grouped_flavints st).

(** The arrays lines 295-299 allocate for the first matching transform, whose
    nominal array is [A]. *)
Definition rescaled_arrays (st : hist) (k l : float) (first : BinnedTensorTransform)
    (A : ndarray) : list ndarray :=
  let scaled := ndarray_mul_scalar A (PrimFloat.mul k l) in
  if is_special_channel (xf_output_name first)
  then [scaled; ndarray_mul_scalar scaled (magnitude (nutau_cc_norm (params st)))]
  else [scaled].

(** The array the transforms of the group end up with. *)
Definition rescaled (st : hist) (k l : float) (first : BinnedTensorTransform)
    (A : ndarray) : ndarray :=
  let scaled := ndarray_mul_scalar A (PrimFloat.mul k l) in
  if is_special_channel (xf_output_name first)
  then ndarray_mul_scalar scaled (magnitude (nutau_cc_norm (params st)))
  else scaled.

(** What the rescale phase does for one group [g], with [h0] the store that
    holds the nominal arrays and [hfinal] the store the phase leaves: the
    matching nominal transforms are emitted with one array in place of
    theirs, a new one, which holds the rescaled array of the first of
    them. *)
Definition group_rescaled (st : hist) (k l : float) (h0 hfinal : store)
    (ts : list BinnedTensorTransform) (g : NuFlavIntGroup)
    (out : list BinnedTensorTransform) : Prop :=
  exists a,
    out = List.map (retag st a) (List.filter (matched g) ts)
    /\ forall first rest,
         List.filter (matched g) ts = first :: rest ->
         List.length h0 <= a
         /\ exists A, h0 !! xform_array first = Some A
                      /\ hfinal !! a = Some (rescaled st k l first A).

(** The group can be rescaled: it is not empty, the test of lines 292-293
    raises on no nominal transform, and the array of the first match is in
    the store. *)
Definition group_ready (h0 : store) (ts : list BinnedTensorTransform) (g : NuFlavIntGroup)
  : Prop :=
  g <> []
  /\ Forall (fun t => returns (matches_group g (flav_names g) t)) ts
  /\ forall first rest, List.filter (matched g) ts = first :: rest ->
                        is_Some (h0 !! xform_array first).

(** The stage is as the aeff stage is meant to be set up: the groups
    partition the categories; every output name denotes at least one
    category; every input name is the name of a flavour and denotes
    categories of that flavour only; and, in merged mode, every group is fed
    by some input. *)
Record stage_well_formed (st : hist) : Prop := {
  wf_partition : groups_partition (transform_groups st);
  wf_outputs : forall o, In o (output_names st) ->
                 exists fl, NuFlavIntGroup_new o = OK fl /\ fl <> [];
  wf_inputs : forall n, In n (input_names st) ->
                exists f fl, n = str_NuFlav f /\ NuFlavIntGroup_new n = OK fl
                             /\ forall k, In k fl -> fst k = f;
  wf_fed : sum_grouped_flavints st = true ->
           forall g, In g (transform_groups st) ->
             exists n, In n (input_names st) /\ intersects_input g n = true;
}.

(** The rescale phase can run: the nominal transforms are the ones the
    nominal phase returned for this stage, with the arrays of the groups at
    the addresses from [base] on, the stage is well formed, and those arrays
    are in the store. *)
Record rescale_ready (w : world) (base : nat) : Prop := {
  ready_cache :
    nominal_transforms (self w)
    = List.flat_map (fun ag => assembled (self w) (snd ag) (fst ag))
        (with_addresses base (transform_groups (self w)));
  ready_stage : stage_well_formed (self w);
  ready_arrays :
    forall t, In t (nominal_transforms (self w)) -> is_Some (heap w !! xform_array t);
}.

(** Everything a transform carries but its array. *)
Definition tags (t : BinnedTensorTransform)
  : list string * string * MultiDimBinning.t * MultiDimBinning.t * bool :=
  (xf_input_names t, xf_output_name t, xf_input_binning t, xf_output_binning t, sum_inputs t).

(** Boolean versions of the conditions above, to decide them on a concrete
    stage by evaluation. *)
Definition is_OK {A : Type} (r : result A) : bool :=
  match r with
  | OK _ => true
  | Raise _ => false
  end.

Definition nominal_ready_check (w : world) : bool :=
  match load_events w with
  | (OK _, w1) =>
      match events (self w1) with
      | Some ev =>
          MultiDimBinning.contains (input_binning (self w)) "true_energy"
          && forallb (fun n => str_in n ["true_energy"; "true_coszen"; "true_azimuth"])
               (MultiDimBinning.names (input_binning (self w)))
          && forallb (fun n => is_OK (NuFlavIntGroup_new n)) (input_names (self w))
          && forallb (fun n => is_OK (NuFlavIntGroup_new n)) (output_names (self w))
          && forallb (fun g =>
                        (List.length (raw_histogram (self w) ev g)
                         =? size (histogram_shape (self w)))%nat)
               (transform_groups (self w))
          && bool_decide (broadcast_shapes (histogram_shape (self w)) (volumes_shape (self w))
                          = Some (histogram_shape (self w)))
      | None => false
      end
  | (Raise _, _) => false
  end.

Definition groups_partition_check (groups : list NuFlavIntGroup) : bool :=
  forallb (fun g => match g with [] => false | _ :: _ => true end) groups
  && bool_decide (NoDup groups)
  && bool_decide
       (Forall (fun g1 => Forall (fun g2 => Forall (fun k => k ∈ g2 -> g1 = g2) g1) groups)
          groups).

Definition output_check (o : string) : bool :=
  match NuFlavIntGroup_new o with
  | OK (_ :: _) => true
  | _ => false
  end.

Definition input_check (n : string) : bool :=
  existsb (fun f =>
             String.eqb n (str_NuFlav f)
             && match NuFlavIntGroup_new n with
                | OK fl => forallb (fun k => NuFlav_eqb (fst k) f) fl
                | Raise _ => false
                end) ALL_NUFLAVS.

Definition stage_well_formed_check (st : hist) : bool :=
  groups_partition_check (transform_groups st)
  && forallb output_check (output_names st)
  && forallb input_check (input_names st)
  && (negb (sum_grouped_flavints st)
      || forallb (fun g => existsb (intersects_input g) (input_names st))
           (transform_groups st)).

Definition arrays_check (w : world) : bool :=
  forallb (fun t => match heap w !! xform_array t with Some _ => true | None => false end)
    (nominal_transforms (self w)).

(** ** Further vocabulary *)

(** [','.join(names)]. *)
Fixpoint join_commas (names : list string) : string :=
  match names with
  | [] => EmptyString
  | [n] => n
  | n :: rest => n ++ "," ++ join_commas rest
  end.

(** [c in s] for a character. *)
Definition has_char (c : ascii) (s : string) : bool :=
  existsb (Ascii.eqb c) (list_ascii_of_string s).

(** The events the stage holds are the ones of the hash it holds: whenever a
    hash is stored, the stored events were loaded from a source with that
    hash. *)
Definition events_coherent (st : hist) : Prop :=
  forall h, events_hash st = Some h ->
    exists src ev, hash_obj src = h /\ Events_new src = OK ev /\ events st = Some ev.

(** Ascending order of strings. *)
Definition ascending (l : list string) : Prop :=
  Sorted (fun x y => String.leb x y = true) l.

(** The transforms of the groups, group after group, each group with one
    array of its own in place of its nominal array: [addrs] lists the arrays,
    in the order of the groups. *)
Definition emitted (st : hist) (base : addr) (groups : list NuFlavIntGroup)
    (addrs : list addr) : list BinnedTensorTransform :=
  List.flat_map
    (fun p => List.map (retag st (fst p)) (assembled st (snd (snd p)) (fst (snd p))))
    (combine addrs (with_addresses base groups)).

(** What identifies a transform within a set: its input names and its output
    name. *)
Definition names_of (t : BinnedTensorTransform) : list string * string :=
  (xf_input_names t, xf_output_name t).


(** The stage with other values for the livetime, the scale and the norm,
    and the same weight file. *)
Definition with_physics (lt sc nm : Quantity) (st : hist) : hist :=
  mkHist (events_hash st) (events st) (particles st) (transform_groups st)
    (sum_grouped_flavints st) (input_names st) (output_names st) (input_binning st)
    (output_binning st) (error_method st)
    (mkParamSet (aeff_weight_file (params st)) lt sc nm) (nominal_transforms st).

(** The stage with another weight file, other events and another hash. *)
Definition with_source (src : Source) (ev : option Events) (h : option Hash) (st : hist)
  : hist :=
  mkHist h ev (particles st) (transform_groups st)
    (sum_grouped_flavints st) (input_names st) (output_names st) (input_binning st)
    (output_binning st) (error_method st)
    (mkParamSet src (livetime (params st)) (aeff_scale (params st))
       (nutau_cc_norm (params st)))
    (nominal_transforms st).

(** The world with the stage changed by [f]. *)
Definition over (f : hist -> hist) (w : world) : world :=
  mkWorld (f (self w)) (heap w) (calls w).

(** A computation that does not look at what [f] changes: on the changed
    stage it gives the same result and leaves the same world, changed
    likewise. *)
Definition blind_to (f : hist -> hist) {A : Type} (m : M A) : Prop :=
  forall w, m (over f w) = (fst (m w), over f (snd (m w))).

End Vocabulary.

(** ** A concrete set of collaborators

    One implementation of the modules that are not among the sources, enough
    to run the stage on examples: names of categories joined by [+], events
    kept in memory per file name, and histograms by direct binning. *)
Module Demo.

Record Event : Type := mkEvent {
  kind : NuFlavInt;
  columns : list (string * float);
}.

Fixpoint column (cols : list (string * float)) (c : string) : option float :=
  match cols with
  | [] => None
  | (k, v) :: rest => if String.eqb k c then Some v else column rest c
  end.

(** The files that exist, by name. *)
Definition files : list (string * list Event) :=
  [("one_nue_cc.hdf5",
    [mkEvent (nue, cc) [("true_energy", 5%float); ("weighted_aeff", 2%float)]]);
   ("tau.hdf5",
    [mkEvent (nutau, cc) [("true_energy", 2%float); ("weighted_aeff", 3%float)];
     mkEvent (nutau, nc) [("true_energy", 7%float); ("weighted_aeff", 1%float)];
     mkEvent (numu, cc) [("true_energy", 7%float); ("weighted_aeff", 4%float)]])].

Fixpoint lookup_file (fs : list (string * list Event)) (path : string) : option (list Event) :=
  match fs with
  | [] => None
  | (k, v) :: rest => if String.eqb k path then Some v else lookup_file rest path
  end.

(** Modelled from the spec: the event container (pisa.core.events) is not
    among the sources; loading a file that does not exist fails. *)
Definition Events_new (path : string) : result (list Event) :=
  match lookup_file files path with
  | Some evs => OK evs
  | None => Raise (CollaboratorError "IOError")
  end.

Fixpoint hash_string (s : string) (h : N) : N :=
  match s with
  | EmptyString => h
  | String c rest => hash_string rest ((h * 31 + N_of_ascii c) mod 4294967296)%N
  end.

(** Modelled from the spec: the content hash (pisa.utils.hash) is not among
    the sources; here, a hash of the file name. *)
Definition hash_obj (path : string) : N := hash_string path 7%N.

(** The bin of [x] among [edges]; the last bin includes its upper edge. *)
Fixpoint find_bin (edges : list float) (x : float) : option nat :=
  match edges with
  | lo :: ((hi :: more) as rest) =>
      if PrimFloat.leb lo x
         && (PrimFloat.ltb x hi
             || (match more with [] => PrimFloat.leb x hi | _ => false end))
      then Some 0
      else option_map S (find_bin rest x)
  | _ => None
  end.

(** The flat (row-major) index of an event, when it falls inside every
    dimension. *)
Fixpoint flat_index (binning : list (list float)) (cols : list string)
    (ev : Event) (acc : nat) : option nat :=
  match binning, cols with
  | [], _ => Some acc
  | edges :: binning', c :: cols' =>
      match column (columns ev) c with
      | Some x =>
          match find_bin edges x with
          | Some i => flat_index binning' cols' ev (acc * (List.length edges - 1) + i)
          | None => None
          end
      | None => None
      end
  | _ :: _, [] => None
  end.

Definition n_bins (binning : list (list float)) : nat :=
  List.fold_left (fun n edges => n * (List.length edges - 1)) binning 1.

Definition add_event (kinds : NuFlavIntGroup) (binning : list (list float))
    (cols : list string) (weights_col : string) (h : ndarray) (ev : Event) : ndarray :=
  if has_flavint kinds (kind ev)
  then match flat_index binning cols ev 0, column (columns ev) weights_col with
       | Some i, Some wt => alter (fun v => PrimFloat.add v wt) i h
       | _, _ => h
       end
  else h.

(** Modelled from the spec: [Events.histogram] is not among the sources; a
    weighted histogram, over the given bin edges, of the events of the
    selected categories. *)
Definition Events_histogram (evs : list Event) (kinds : NuFlavIntGroup)
    (binning : list (list float)) (binning_cols : list string) (weights_col : string)
    (errors : bool) : ndarray :=
  List.fold_left (add_event kinds binning binning_cols weights_col) evs
    (List.repeat 0%float (n_bins binning)).

(** Modelled from the spec: the names of categories (pisa.utils.flavInt is
    not among the sources): a flavour (both interaction types), a flavour
    with an interaction type, all flavours of neutrinos or of antineutrinos,
    or several of these joined by [+]. *)
Definition token_table : list (string * NuFlavIntGroup) :=
  List.map (fun f => (str_NuFlav f, [(f, cc); (f, nc)])) ALL_NUFLAVS
  ++ List.map (fun k => (str_NuFlavInt k, [k])) ALL_NUFLAVINTS
  ++ [("nuall", [(nue, cc); (nue, nc); (numu, cc); (numu, nc); (nutau, cc); (nutau, nc)]);
      ("nuallbar", [(nuebar, cc); (nuebar, nc); (numubar, cc); (numubar, nc);
                    (nutaubar, cc); (nutaubar, nc)]);
      ("nuall_cc", [(nue, cc); (numu, cc); (nutau, cc)]);
      ("nuall_nc", [(nue, nc); (numu, nc); (nutau, nc)]);
      ("nuallbar_cc", [(nuebar, cc); (numubar, cc); (nutaubar, cc)]);
      ("nuallbar_nc", [(nuebar, nc); (numubar, nc); (nutaubar, nc)])].

Fixpoint lookup_token (tbl : list (string * NuFlavIntGroup)) (tok : string)
  : option NuFlavIntGroup :=
  match tbl with
  | [] => None
  | (k, v) :: rest => if String.eqb k tok then Some v else lookup_token rest tok
  end.

Fixpoint split_at (sep : ascii) (s : string) : list string :=
  match s with
  | EmptyString => [EmptyString]
  | String c rest =>
      if Ascii.eqb c sep
      then EmptyString :: split_at sep rest
      else match split_at sep rest with
           | [] => [String c EmptyString]
           | h :: t => String c h :: t
           end
  end.

Fixpoint union_tokens (toks : list string) : result NuFlavIntGroup :=
  match toks with
  | [] => OK []
  | tok :: rest =>
      match lookup_token token_table tok with
      | None => Raise (CollaboratorError "NuFlavIntGroup")
      | Some k => (ks <- union_tokens rest ;; OK (k ++ ks))%result
      end
  end.

(** The categories are kept in the order of [ALL_NUFLAVINTS], each once. *)
Definition normalise (k : list NuFlavInt) : NuFlavIntGroup :=
  List.filter (has_flavint k) ALL_NUFLAVINTS.

(** The categories of the known parts of a name. *)
Fixpoint union_known (toks : list string) : list NuFlavInt :=
  match toks with
  | [] => []
  | tok :: rest =>
      match lookup_token token_table tok with
      | None => union_known rest
      | Some k => k ++ union_known rest
      end
  end.

(** Modelled from the spec: [NuFlavIntGroup(name)], the categories a name
    denotes; a part that is not the name of anything denotes nothing. *)
Definition NuFlavIntGroup_new (name : string) : result NuFlavIntGroup :=
  OK (normalise (union_known (split_at "+" name))).

(** A group of a grouping specification; an unknown part is refused. *)
Definition parse_group (spec : string) : result NuFlavIntGroup :=
  (k <- union_tokens (split_at "+" spec) ;; OK (normalise k))%result.

Fixpoint join_plus (names : list string) : string :=
  match names with
  | [] => EmptyString
  | [n] => n
  | n :: rest => n ++ "+" ++ join_plus rest
  end.

(** Modelled from the spec: [str(group)], the canonical string form of a
    group: the names of its categories joined by [+]. *)
Definition str_NuFlavIntGroup (g : NuFlavIntGroup) : string :=
  join_plus (List.map str_NuFlavInt g).

Fixpoint strip_spaces (s : string) : string :=
  match s with
  | EmptyString => EmptyString
  | String c rest => if Ascii.eqb c " " then strip_spaces rest else String c (strip_spaces rest)
  end.

Fixpoint parse_groups (specs : list string) : result (list NuFlavIntGroup) :=
  match specs with
  | [] => OK []
  | sp :: rest =>
      (g <- parse_group sp ;; gs <- parse_groups rest ;; OK (g :: gs))%result
  end.

(** Modelled from the spec: [flavintGroupsFromString], which is not among
    the sources: the groups that are named, separated by commas, then one
    singleton group for every category that is in none of them. *)
Definition flavintGroupsFromString (groups : string) : result (list NuFlavIntGroup) :=
  (grouped <- (if String.eqb groups EmptyString then OK []
               else parse_groups (split_at "," (strip_spaces groups))) ;;
   let ungrouped :=
     List.filter (fun k => negb (existsb (fun g => has_flavint g k) grouped)) ALL_NUFLAVINTS in
   OK (grouped ++ List.map (fun k => [k]) ungrouped))%result.

(** Modelled from the spec: the magnitude of a quantity in a unit; years are
    converted to seconds. *)
Definition m_as (q : Quantity) (u : string) : float :=
  if String.eqb (quantity_units q) "common_year" && String.eqb u "sec"
  then PrimFloat.mul (magnitude q) 31536000%float
  else magnitude q.

(** Modelled from the spec: conversion of bin edges; TeV are converted to
    GeV. *)
Definition convert_units (from to : string) (edges : list float) : list float :=
  if String.eqb from "TeV" && String.eqb to "GeV"
  then List.map (fun e => PrimFloat.mul e 1000%float) edges
  else edges.

#[export] Instance collaborators : Collaborators :=
  Build_Collaborators string (list Event) N _ hash_obj Events_new Events_histogram
    NuFlavIntGroup_new flavintGroupsFromString str_NuFlavIntGroup m_as convert_units.

End Demo.

(** ** Stages to run

    The stages are built by the constructor and start from an empty store,
    but for the one with an empty group, which no grouping specification
    gives. *)
Module Scenario.
#[local] Existing Instance Demo.collaborators.

(** One energy bin from 1 to 10 GeV. *)
Definition energy_only : MultiDimBinning.t :=
  [OneDimBinning.mk "true_energy" "GeV" [1%float; 10%float]].

(** The world [w] is the new stage the constructor returns on [a], with an
    empty store and an empty log. *)
Definition init_world_is (a : init_args) (w : world) : Prop :=
  __init__ a = OK (self w) /\ heap w = [] /\ calls w = [].

Definition init_world (a : init_args) : option world :=
  match __init__ a with
  | OK st => Some (mkWorld st [] [])
  | Raise _ => None
  end.

Definition after (m : M unit) (w : option world) : option world :=
  match w with
  | Some w0 => match m w0 with (OK _, w') => Some w' | (Raise _, _) => None end
  | None => None
  end.

Definition empty_world : world :=
  mkWorld (mkHist None None "" [] false [] [] [] [] None
             (mkParamSet "" (mkQuantity 0 "") (mkQuantity 0 "") (mkQuantity 0 "")) [])
          [] [].

(** Merged mode: nue_cc and nuebar_cc grouped, every other category on its
    own; the six flavours as inputs; one nue_cc event of weight 2 at 5 GeV;
    scale 1, livetime 1 s. *)
Definition merged_args : init_args :=
  mkArgs (mkParamSet "one_nue_cc.hdf5" (mkQuantity 1 "sec") (mkQuantity 1 "dimensionless")
            (mkQuantity 1 "dimensionless"))
    "neutrinos" "nue_cc+nuebar_cc" true energy_only energy_only NamesNone None.

Definition merged_new : world :=
  Eval vm_compute in default empty_world (init_world merged_args).

Definition merged_cached : world :=
  Eval vm_compute in default empty_world (after cache_nominal_transforms (init_world merged_args)).

(** Unmerged mode: the two interaction types of nutau grouped, every other
    category on its own; the six flavours as inputs; nutau_cc_norm is 2. *)
Definition tau_args : init_args :=
  mkArgs (mkParamSet "tau.hdf5" (mkQuantity 1 "sec") (mkQuantity 1 "dimensionless")
            (mkQuantity 2 "dimensionless"))
    "neutrinos" "nutau" false energy_only energy_only NamesNone None.

Definition tau_new : world :=
  Eval vm_compute in default empty_world (init_world tau_args).

Definition tau_cached : world :=
  Eval vm_compute in default empty_world (after cache_nominal_transforms (init_world tau_args)).

(** A binning with a dimension that is not recognised, and a stage whose
    weight file does not exist. *)
Definition with_true_foo : MultiDimBinning.t :=
  energy_only ++ [OneDimBinning.mk "true_foo" "m" [0%float; 1%float]].

Definition foo_args : init_args :=
  mkArgs (mkParamSet "one_nue_cc.hdf5" (mkQuantity 1 "sec") (mkQuantity 1 "dimensionless")
            (mkQuantity 1 "dimensionless"))
    "neutrinos" "nue_cc+nuebar_cc" true with_true_foo energy_only NamesNone None.

Definition foo_new : world :=
  Eval vm_compute in default empty_world (init_world foo_args).

(** The events of the two files, and what the rescale phase returns and
    leaves behind on the second stage. *)
Definition nue_events : list Demo.Event :=
  Eval vm_compute in default [] (Demo.lookup_file Demo.files "one_nue_cc.hdf5").

Definition tau_events : list Demo.Event :=
  Eval vm_compute in default [] (Demo.lookup_file Demo.files "tau.hdf5").

Definition tau_rescaled : TransformSet :=
  Eval vm_compute in
    match fst (_compute_transforms tau_cached) with
    | OK ts => ts
    | Raise _ => []
    end.

Definition tau_after_rescale : world :=
  Eval vm_compute in snd (_compute_transforms tau_cached).

Definition muon_args : init_args :=
  mkArgs (mkParamSet "one_nue_cc.hdf5" (mkQuantity 1 "sec") (mkQuantity 1 "dimensionless")
            (mkQuantity 1 "dimensionless"))
    "muons" "nue_cc+nuebar_cc" true energy_only energy_only NamesNone None.

(** Merged mode with the two electron flavours only, given as one string:
    the groups of the other flavours are fed by no input. *)
Definition unfed_args : init_args :=
  mkArgs (mkParamSet "one_nue_cc.hdf5" (mkQuantity 1 "sec") (mkQuantity 1 "dimensionless")
            (mkQuantity 1 "dimensionless"))
    "neutrinos" "nue_cc+nuebar_cc" true energy_only energy_only
    (NamesString "nue, nuebar") None.

Definition unfed_new : world :=
  Eval vm_compute in default empty_world (init_world unfed_args).

Definition unfed_cached : world :=
  Eval vm_compute in default empty_world (after cache_nominal_transforms (init_world unfed_args)).

(** Merged mode with a first input name that denotes nothing. *)
Definition bogus_args : init_args :=
  mkArgs (mkParamSet "one_nue_cc.hdf5" (mkQuantity 1 "sec") (mkQuantity 1 "dimensionless")
            (mkQuantity 1 "dimensionless"))
    "neutrinos" "nue_cc+nuebar_cc" true energy_only energy_only
    (NamesSeq ["bogus"; "nue"]) None.

Definition bogus_new : world :=
  Eval vm_compute in default empty_world (init_world bogus_args).

(** Unmerged mode with inputs named after all neutrinos and all
    antineutrinos. *)
Definition nuall_args : init_args :=
  mkArgs (mkParamSet "tau.hdf5" (mkQuantity 1 "sec") (mkQuantity 1 "dimensionless")
            (mkQuantity 2 "dimensionless"))
    "neutrinos" "nutau" false energy_only energy_only
    (NamesSeq ["nuall"; "nuallbar"]) None.

Definition nuall_cached : world :=
  Eval vm_compute in default empty_world (after cache_nominal_transforms (init_world nuall_args)).

(** A binning that names two dimensions that are not recognised, one of
    them twice. *)
Definition with_two_extras : MultiDimBinning.t :=
  energy_only
  ++ [OneDimBinning.mk "true_zeta" "m" [0%float; 1%float];
      OneDimBinning.mk "true_foo" "m" [0%float; 1%float];
      OneDimBinning.mk "true_zeta" "m" [0%float; 1%float]].

Definition zeta_args : init_args :=
  mkArgs (mkParamSet "one_nue_cc.hdf5" (mkQuantity 1 "sec") (mkQuantity 1 "dimensionless")
            (mkQuantity 1 "dimensionless"))
    "neutrinos" "nue_cc+nuebar_cc" true with_two_extras energy_only NamesNone None.

Definition zeta_new : world :=
  Eval vm_compute in default empty_world (init_world zeta_args).

(** A stage one of whose groups holds no category. *)
Definition empty_group_world : world :=
  mkWorld (mkHist None None "neutrinos" [[]; [(nue, cc)]] true ["nue"] ["nue_cc"]
             energy_only energy_only None
             (mkParamSet "one_nue_cc.hdf5" (mkQuantity 1 "sec") (mkQuantity 1 "dimensionless")
                (mkQuantity 1 "dimensionless")) [])
          [] [].

(** Merged mode with the charged-current interactions of nutau and nutaubar
    grouped; nutau_cc_norm is 2. *)
Definition taucc_args : init_args :=
  mkArgs (mkParamSet "tau.hdf5" (mkQuantity 1 "sec") (mkQuantity 1 "dimensionless")
            (mkQuantity 2 "dimensionless"))
    "neutrinos" "nutau_cc+nutaubar_cc" true energy_only energy_only NamesNone None.

Definition taucc_cached : world :=
  Eval vm_compute in default empty_world (after cache_nominal_transforms (init_world taucc_args)).

(** The energy of the input binning in TeV, one bin from 1 to 10 TeV; two
    bins for the histogram, from 1 to 5 and from 5 to 10 GeV. *)
Definition energy_in_TeV : MultiDimBinning.t :=
  [OneDimBinning.mk "true_energy" "TeV" [1%float; 10%float]].

Definition two_bins : MultiDimBinning.t :=
  [OneDimBinning.mk "true_energy" "GeV" [1%float; 5%float; 10%float]].

Definition tev_args : init_args :=
  mkArgs (mkParamSet "one_nue_cc.hdf5" (mkQuantity 1 "sec") (mkQuantity 1 "dimensionless")
            (mkQuantity 1 "dimensionless"))
    "neutrinos" "nue_cc+nuebar_cc" true energy_in_TeV two_bins NamesNone None.

Definition tev_new : world :=
  Eval vm_compute in default empty_world (init_world tev_args).

(** The events of tau.hdf5 with nutau_cc in a group of its own, in unmerged
    and in merged mode; nutau_cc_norm is 2. *)
Definition tau_single_args (merged : bool) : init_args :=
  mkArgs (mkParamSet "tau.hdf5" (mkQuantity 1 "sec") (mkQuantity 1 "dimensionless")
            (mkQuantity 2 "dimensionless"))
    "neutrinos" "nue_cc+nuebar_cc" merged energy_only energy_only NamesNone None.

Definition tau_single_cached : world :=
  Eval vm_compute in
    default empty_world (after cache_nominal_transforms (init_world (tau_single_args false))).

Definition tau_single_merged_cached : world :=
  Eval vm_compute in
    default empty_world (after cache_nominal_transforms (init_world (tau_single_args true))).

End Scenario.

(** * Properties *)

Section Properties.
Context `{C : Collaborators}.

(** ** The volume of the missing dimensions *)

Lemma names_MultiDimBinning_to (b : MultiDimBinning.t) (kw : units_dict) :
  MultiDimBinning.names (MultiDimBinning_to b kw) = MultiDimBinning.names b.
Proof.
  unfold MultiDimBinning.names, MultiDimBinning_to.
  rewrite List.map_map. apply List.map_ext. intros d.
  destruct (dict_get kw (OneDimBinning.name d)) as [[u|]|]; reflexivity.
Qed.

Lemma contains_MultiDimBinning_to (b : MultiDimBinning.t) (kw : units_dict) (dim : string) :
  MultiDimBinning.contains (MultiDimBinning_to b kw) dim = MultiDimBinning.contains b dim.
Proof. unfold MultiDimBinning.contains. now rewrite names_MultiDimBinning_to. Qed.

(** C4. For every input binning, converted to whatever units, the volume of
    the missing dimensions is the product of a factor for the azimuth (2 pi
    when 'true_azimuth' is absent, 1 when present) and a factor for the
    direction (2 when 'true_coszen' is absent, 1 when present): it is 4 pi
    when both are absent, 2 pi or 2 when one is, and 1 when both are
    present. *)
Theorem missing_dims_vol_factors (b : MultiDimBinning.t) (kw : units_dict) :
  let azimuth_factor :=
    if MultiDimBinning.contains b "true_azimuth" then 1%float else PrimFloat.mul 2 np_pi in
  let coszen_factor :=
    if MultiDimBinning.contains b "true_coszen" then 1%float else 2%float in
  missing_dims_vol (MultiDimBinning_to b kw) = PrimFloat.mul azimuth_factor coszen_factor
  /\ missing_dims_vol (MultiDimBinning_to b kw) =
       match MultiDimBinning.contains b "true_azimuth",
             MultiDimBinning.contains b "true_coszen" with
       | false, false => PrimFloat.mul 4 np_pi
       | false, true => PrimFloat.mul 2 np_pi
       | true, false => 2%float
       | true, true => 1%float
       end.
Proof.
  unfold missing_dims_vol. rewrite !contains_MultiDimBinning_to.
  destruct (MultiDimBinning.contains b "true_azimuth"),
           (MultiDimBinning.contains b "true_coszen");
    split; vm_compute; reflexivity.
Qed.

(** ** Loading the events *)

(** C9. [load_events] compares the content hash of the current
    [aeff_weight_file] with the stored hash. When they are equal it returns
    and the world (stored events, stored hash, everything else) is what it
    was, no load having been attempted. When they differ the events are
    loaded: if loading succeeds the stored events are the new ones and the
    stored hash is the new hash, every other attribute and the array store
    being unchanged; if loading raises, the exception propagates and the stage
    keeps its events and hash. *)
Theorem load_events_reloads_on_new_hash_only (w : world) :
  let evts := aeff_weight_file (params (self w)) in
  let this_hash := hash_obj evts in
  (events_hash (self w) = Some this_hash -> load_events w = (OK tt, w))
  /\ (events_hash (self w) <> Some this_hash ->
      forall ev, Events_new evts = OK ev ->
        load_events w =
          (OK tt, mkWorld (set_events (self w) ev this_hash) (heap w)
                    (calls w ++ [LoadEvents this_hash])))
  /\ (events_hash (self w) <> Some this_hash ->
      forall e, Events_new evts = Raise e ->
        load_events w =
          (Raise e, mkWorld (self w) (heap w) (calls w ++ [LoadEvents this_hash]))).
Proof.
  cbv zeta. unfold load_events. repeat split.
  - intros Heq. rewrite decide_True; [reflexivity | now symmetry].
  - intros Hne ev Hev. rewrite decide_False by (intros E; now apply Hne).
    rewrite Hev. reflexivity.
  - intros Hne e He. rewrite decide_False by (intros E; now apply Hne).
    rewrite He. reflexivity.
Qed.

(** The three ways [load_events] can go. *)
Lemma load_events_cases (w : world) :
  let this_hash := hash_obj (aeff_weight_file (params (self w))) in
  load_events w = (OK tt, w)
  \/ (exists ev, load_events w =
        (OK tt, mkWorld (set_events (self w) ev this_hash) (heap w)
                  (calls w ++ [LoadEvents this_hash])))
  \/ (exists e, load_events w =
        (Raise e, mkWorld (self w) (heap w) (calls w ++ [LoadEvents this_hash]))).
Proof.
  cbv zeta. unfold load_events.
  destruct (decide _) as [_|_]; [now left|].
  destruct (Events_new _) as [ev|e]; [right; left; now exists ev | right; right; now exists e].
Qed.

(** ** Validation of the input binning *)

Lemma str_in_In (x : string) (l : list string) : str_in x l = true <-> In x l.
Proof.
  unfold str_in. rewrite List.existsb_exists. split.
  - intros (y & Hy & E). apply String.eqb_eq in E. now subst.
  - intros H. exists x. split; [assumption | apply String.eqb_refl].
Qed.

Lemma str_in_not_In (x : string) (l : list string) : str_in x l = false <-> ~ In x l.
Proof.
  rewrite <- str_in_In. destruct (str_in x l); split; intros H; congruence.
Qed.

Lemma In_insert_sorted (n x : string) (l : list string) :
  In n (insert_sorted x l) <-> n = x \/ In n l.
Proof.
  induction l as [|y l IH]; cbn.
  - intuition congruence.
  - destruct (String.leb x y); cbn; [intuition congruence|].
    rewrite IH. intuition congruence.
Qed.

Lemma In_sorted (n : string) (l : list string) : In n (sorted l) <-> In n l.
Proof.
  unfold sorted. induction l as [|x l IH]; cbn; [tauto|].
  rewrite In_insert_sorted, IH. intuition congruence.
Qed.

Lemma In_excess_dims (n : string) (b : MultiDimBinning.t) :
  In n (excess_dims b)
  <-> In n (MultiDimBinning.names b) /\ ~ In n ["true_energy"; "true_coszen"; "true_azimuth"].
Proof.
  unfold excess_dims. rewrite <- list_elem_of_In, elem_of_remove_dups, list_elem_of_In.
  rewrite List.filter_In, negb_true_iff, str_in_not_In. reflexivity.
Qed.

Lemma excess_dims_nonempty (b : MultiDimBinning.t) :
  (exists n, In n (MultiDimBinning.names b)
             /\ ~ In n ["true_energy"; "true_coszen"; "true_azimuth"])
  <-> (0 <? List.length (excess_dims b))%nat = true.
Proof.
  split.
  - intros (n & Hn). apply In_excess_dims in Hn.
    destruct (excess_dims b); [destruct Hn | reflexivity].
  - intros H. destruct (excess_dims b) as [|n l] eqn:E; [discriminate|].
    exists n. apply In_excess_dims. rewrite E. now left.
Qed.

(** On a refused binning the computation stops right after [load_events]. *)
Lemma nominal_on_invalid_binning (w : world) :
  invalid_input_binning (input_binning (self w)) ->
  _compute_nominal_transforms w =
    (Raise match fst (load_events w) with
           | Raise e => e
           | OK _ =>
               if MultiDimBinning.contains (input_binning (self w)) "true_energy"
               then ValueError (ExtraDimensions (sorted (excess_dims (input_binning (self w)))))
               else ValueError MissingTrueEnergy
           end,
     snd (load_events w)).
Proof.
  intros Hbad. unfold _compute_nominal_transforms, bind.
  assert (Hcheck : forall w', input_binning (self w') = input_binning (self w) ->
    validate_and_histogram w'
    = (Raise (if MultiDimBinning.contains (input_binning (self w)) "true_energy"
              then ValueError (ExtraDimensions (sorted (excess_dims (input_binning (self w)))))
              else ValueError MissingTrueEnergy), w')).
  { intros w' Hb. unfold validate_and_histogram, bind, get_self. rewrite Hb.
    destruct (MultiDimBinning.contains (input_binning (self w)) "true_energy") eqn:E;
      cbn [negb]; [|reflexivity].
    destruct Hbad as [Hbad|Hbad]; [congruence|].
    apply excess_dims_nonempty in Hbad. cbv zeta. now rewrite Hbad. }
  destruct (load_events_cases w) as [H|[(ev & H)|(e & H)]]; rewrite H; cbn [fst snd].
  - now apply Hcheck.
  - now apply Hcheck.
  - reflexivity.
Qed.

(** C6. Whenever the input binning lacks 'true_energy' or names a dimension
    other than 'true_energy', 'true_coszen' and 'true_azimuth', the nominal
    computation raises, and it does so before any histogram is built: the
    array store is what it was and the log holds no histogram call that it
    did not hold before. Unless [load_events], which runs first, has itself
    raised, the exception is a ValueError: the one about 'true_energy' when
    that dimension is missing, and otherwise the one whose message lists, in
    sorted order, exactly the names of the input binning that are not
    recognised. *)
Theorem invalid_binning_raises_before_any_histogram (w : world) :
  let b := input_binning (self w) in
  invalid_input_binning b ->
  exists e w',
    _compute_nominal_transforms w = (Raise e, w')
    /\ heap w' = heap w
    /\ (forall g, In (Histogram g) (calls w') -> In (Histogram g) (calls w))
    /\ (forall e', fst (load_events w) = Raise e' -> e = e')
    /\ (fst (load_events w) = OK tt ->
        (MultiDimBinning.contains b "true_energy" = false ->
           e = ValueError MissingTrueEnergy)
        /\ (MultiDimBinning.contains b "true_energy" = true ->
           e = ValueError (ExtraDimensions (sorted (excess_dims b)))
           /\ forall n, In n (sorted (excess_dims b))
                <-> In n (MultiDimBinning.names b)
                    /\ ~ In n ["true_energy"; "true_coszen"; "true_azimuth"])).
Proof.
  cbv zeta. intros Hbad. eexists _, _. split; [now apply nominal_on_invalid_binning|].
  assert (Hlog : forall h g, In (Histogram g) (calls w ++ [LoadEvents h]) ->
                             In (Histogram g) (calls w)).
  { intros h g Hin. apply List.in_app_or in Hin as [Hin|[Hin|[]]];
      [assumption | discriminate]. }
  destruct (load_events_cases w) as [H|[(ev & H)|(e & H)]]; rewrite H; cbn [fst snd heap calls];
    (split; [reflexivity|]); (split; [solve [auto | apply Hlog]|]);
    (split; [intros e' He'; congruence|]); intros Hok; try discriminate.
  all: split; intros E; rewrite E; [reflexivity|].
  all: split; [reflexivity|]; intros n; rewrite In_sorted; apply In_excess_dims.
Qed.

(** C10. On a refused input binning the computation fails, and the world it
    leaves behind is the one [load_events] left: loading comes first and is
    not undone. In particular, when the hash of the current weight file
    differs from the stored one and the file loads, the failed computation
    has replaced the stored events and the stored hash. *)
Theorem events_are_loaded_before_validation (w : world) :
  let evts := aeff_weight_file (params (self w)) in
  let this_hash := hash_obj evts in
  invalid_input_binning (input_binning (self w)) ->
  (exists e, fst (_compute_nominal_transforms w) = Raise e)
  /\ snd (_compute_nominal_transforms w) = snd (load_events w)
  /\ (events_hash (self w) <> Some this_hash ->
      forall ev, Events_new evts = OK ev ->
        events (self (snd (_compute_nominal_transforms w))) = Some ev
        /\ events_hash (self (snd (_compute_nominal_transforms w))) = Some this_hash
        /\ events_hash (self (snd (_compute_nominal_transforms w))) <> events_hash (self w)).
Proof.
  cbv zeta. intros Hbad. rewrite (nominal_on_invalid_binning w Hbad). cbn [fst snd].
  split; [eauto|]. split; [reflexivity|].
  intros Hne ev Hev.
  unfold load_events. rewrite decide_False by (intros E; now apply Hne).
  rewrite Hev. cbn. repeat split. congruence.
Qed.

(** ** Construction *)

(** C7. Constructing the stage fails whenever [particles] is not
    'neutrinos'. A value that is neither 'neutrinos' nor 'muons' fails the
    assertion, before anything else is looked at. With 'muons' the
    constructor raises as well, before the base class is initialised: the
    grouping specification is parsed, which may raise, and then the output
    names, which only the neutrino branch assigns, are read unassigned. *)
Theorem construction_fails_unless_neutrinos (a : init_args) :
  (arg_particles a <> "neutrinos" -> arg_particles a <> "muons" ->
     __init__ a = Raise AssertionError)
  /\ (arg_particles a = "muons" ->
      __init__ a =
        match flavintGroupsFromString (arg_transform_groups a) with
        | OK _ => Raise (UnboundLocalError "output_names")
        | Raise e => Raise e
        end)
  /\ (arg_particles a <> "neutrinos" -> exists e, __init__ a = Raise e).
Proof.
  assert (Hassert : arg_particles a <> "neutrinos" -> arg_particles a <> "muons" ->
                    __init__ a = Raise AssertionError).
  { intros Hn Hm. unfold __init__.
    assert (E : str_in (arg_particles a) ["neutrinos"; "muons"] = false).
    { apply str_in_not_In. intros [H|[H|[]]]; congruence. }
    now rewrite E. }
  assert (Hmuons : arg_particles a = "muons" ->
      __init__ a =
        match flavintGroupsFromString (arg_transform_groups a) with
        | OK _ => Raise (UnboundLocalError "output_names")
        | Raise e => Raise e
        end).
  { intros Hm. unfold __init__, init_output_names. rewrite Hm. cbn.
    destruct (flavintGroupsFromString _); reflexivity. }
  repeat split; try assumption.
  intros Hn. destruct (string_dec (arg_particles a) "muons") as [Hm|Hm].
  - rewrite (Hmuons Hm). destruct (flavintGroupsFromString _); eauto.
  - eauto.
Qed.

(** ** Categories and names *)

Lemma NuFlavInt_eqb_eq (a b : NuFlavInt) : NuFlavInt_eqb a b = true <-> a = b.
Proof.
  destruct a as [f i], b as [f' i']; unfold NuFlavInt_eqb; cbn.
  destruct f, f', i, i'; cbn; split; intros H; congruence.
Qed.

Lemma has_flavint_In (g : NuFlavIntGroup) (k : NuFlavInt) :
  has_flavint g k = true <-> In k g.
Proof.
  unfold has_flavint. rewrite List.existsb_exists. split.
  - intros (x & Hx & E). apply NuFlavInt_eqb_eq in E. now subst.
  - intros H. exists k. split; [assumption | now apply NuFlavInt_eqb_eq].
Qed.

Lemma In_ALL_NUFLAVINTS (k : NuFlavInt) : In k ALL_NUFLAVINTS.
Proof. destruct k as [[] []]; cbn; tauto. Qed.

Lemma In_set_intersection (g other : NuFlavIntGroup) (k : NuFlavInt) :
  In k (set_intersection g other) <-> In k g /\ In k other.
Proof.
  unfold set_intersection. rewrite List.filter_In, andb_true_iff, !has_flavint_In.
  pose proof (In_ALL_NUFLAVINTS k). tauto.
Qed.

(** An input name passes when its categories meet the group: the
    intersection is not empty. *)
Lemma intersects_input_spec (g : NuFlavIntGroup) (n : string) :
  intersects_input g n = true
  <-> exists fl k, NuFlavIntGroup_new n = OK fl /\ In k g /\ In k fl.
Proof.
  unfold intersects_input, input_intersects.
  destruct (NuFlavIntGroup_new n) as [fl|e]; cbn [result_bind].
  - split.
    + intros H. destruct (set_intersection g fl) as [|k l] eqn:E; [discriminate|].
      exists fl, k. split; [reflexivity|]. apply In_set_intersection.
      rewrite E. now left.
    + intros (fl' & k & Hfl & Hk). injection Hfl as Efl; subst fl'.
      apply In_set_intersection in Hk.
      destruct (set_intersection g fl); [destruct Hk | reflexivity].
  - split; [discriminate | intros (fl & k & H & _); discriminate].
Qed.

(** An output name passes when every category it denotes is in the group. *)
Lemma belongs_to_spec (g : NuFlavIntGroup) (o : string) :
  belongs_to g o = true
  <-> exists fl, NuFlavIntGroup_new o = OK fl /\ forall k, In k fl -> In k g.
Proof.
  unfold belongs_to, NuFlavIntGroup_contains.
  destruct (NuFlavIntGroup_new o) as [fl|e]; cbn [result_bind].
  - rewrite List.forallb_forall. split.
    + intros H. exists fl. split; [reflexivity|].
      intros k Hk. now apply has_flavint_In, H.
    + intros (fl' & Hfl & H). injection Hfl as Efl; subst fl'.
      intros k Hk. now apply has_flavint_In, H.
  - split; [discriminate | intros (fl & H & _); discriminate].
Qed.

Lemma input_intersects_returns (g : NuFlavIntGroup) (n : string) :
  returns (NuFlavIntGroup_new n) -> input_intersects g n = OK (intersects_input g n).
Proof.
  intros [fl H]. unfold intersects_input, input_intersects. now rewrite H.
Qed.

Lemma contains_returns (g : NuFlavIntGroup) (o : string) :
  returns (NuFlavIntGroup_new o) -> NuFlavIntGroup_contains g o = OK (belongs_to g o).
Proof.
  intros [fl H]. unfold belongs_to, NuFlavIntGroup_contains. now rewrite H.
Qed.

(** ** The assembler *)

Lemma xform_input_names_of_ok (g : NuFlavIntGroup) (names : list string) :
  names_parse names ->
  xform_input_names_of g names = OK (List.filter (intersects_input g) names).
Proof.
  induction 1 as [|n names Hn _ IH]; cbn; [reflexivity|].
  rewrite (input_intersects_returns g n Hn), IH. cbn.
  now destruct (intersects_input g n).
Qed.

Lemma xforms_for_outputs_ok (st : hist) (g : NuFlavIntGroup) (xin : list string)
    (a : addr) (outs : list string) :
  names_parse outs ->
  xforms_for_outputs st g xin a outs =
    OK (List.map
          (fun o => mkTransform xin o (input_binning st) (output_binning st) a
                      (sum_grouped_flavints st))
          (List.filter (belongs_to g) outs)).
Proof.
  induction 1 as [|o outs Ho _ IH]; cbn; [reflexivity|].
  rewrite (contains_returns g o Ho), IH. cbn.
  now destruct (belongs_to g o).
Qed.

Lemma xforms_for_inputs_ok (st : hist) (g : NuFlavIntGroup) (a : addr) (ins : list string) :
  names_parse ins -> names_parse (output_names st) ->
  xforms_for_inputs st g a ins =
    OK (List.flat_map
          (fun i =>
             List.map
               (fun o => mkTransform [i] o (input_binning st) (output_binning st) a
                           (sum_grouped_flavints st))
               (List.filter (belongs_to g) (output_names st)))
          (List.filter (intersects_input g) ins)).
Proof.
  intros Hins Houts. induction Hins as [|i ins Hi _ IH]; cbn; [reflexivity|].
  rewrite (input_intersects_returns g i Hi), IH. cbn.
  destruct (intersects_input g i); cbn; [|reflexivity].
  now rewrite (xforms_for_outputs_ok st g [i] a _ Houts).
Qed.

Lemma assemble_ok (st : hist) (g : NuFlavIntGroup) (a : addr) :
  names_parse (input_names st) -> names_parse (output_names st) ->
  assemble st g a = OK (assembled st g a).
Proof.
  intros Hins Houts. unfold assemble, assembled.
  destruct (sum_grouped_flavints st) eqn:E.
  - rewrite (xform_input_names_of_ok g _ Hins). cbn.
    rewrite (xforms_for_outputs_ok st g _ a _ Houts). unfold merged_transforms.
    now rewrite E.
  - rewrite (xforms_for_inputs_ok st g a _ Hins Houts). unfold unmerged_transforms.
    now rewrite E.
Qed.

Lemma assembled_array (st : hist) (g : NuFlavIntGroup) (a : addr) (t : BinnedTensorTransform) :
  In t (assembled st g a) -> xform_array t = a.
Proof.
  unfold assembled, merged_transforms, unmerged_transforms.
  destruct (sum_grouped_flavints st).
  - rewrite List.in_map_iff. now intros (o & <- & _).
  - rewrite List.in_flat_map. intros (i & _ & H).
    apply List.in_map_iff in H as (o & <- & _). reflexivity.
Qed.

(** ** The nominal computation *)

Lemma length_ndarray_mul_scalar (a : ndarray) (x : float) :
  List.length (ndarray_mul_scalar a x) = List.length a.
Proof. apply List.length_map. Qed.

Lemma compute_aeff_ok (edges : list (list float)) (ib : MultiDimBinning.t) (mdv : float)
    (g : NuFlavIntGroup) (w : world) (ev : Events) :
  let h := Events_histogram ev g edges (MultiDimBinning.names (input_binning (self w)))
             "weighted_aeff" (match error_method (self w) with Some _ => true | None => false end) in
  events (self w) = Some ev ->
  broadcast_shapes (MultiDimBinning.shape_of_edges edges) (MultiDimBinning.shape ib)
  = Some (MultiDimBinning.shape_of_edges edges) ->
  compute_aeff edges ib mdv g w =
    (OK (List.length (heap w)),
     mkWorld (self w)
       (heap w ++ [ndarray_div h
                     (broadcast_to (MultiDimBinning.shape_of_edges edges)
                        (MultiDimBinning.shape ib)
                        (ndarray_mul_scalar (MultiDimBinning.bin_volumes ib) mdv))])
       (calls w ++ [Histogram g])).
Proof.
  intros h Hev Hshapes. unfold compute_aeff, bind, get_self. rewrite Hev.
  unfold log, alloc, idiv, in_place_div, log_call, with_heap, ret. cbn [self heap calls].
  fold h. rewrite list_lookup_middle by reflexivity.
  rewrite Hshapes, bool_decide_eq_true_2 by reflexivity.
  f_equal. f_equal.
  rewrite insert_app_r_alt by reflexivity. now rewrite Nat.sub_diag.
Qed.

Lemma nominal_loop_ok (ev : Events) (groups : list NuFlavIntGroup) :
  forall w : world,
    events (self w) = Some ev ->
    names_parse (input_names (self w)) ->
    names_parse (output_names (self w)) ->
    broadcast_shapes (histogram_shape (self w)) (volumes_shape (self w))
    = Some (histogram_shape (self w)) ->
    nominal_loop (MultiDimBinning.bin_edges (canonical_output_binning (self w)))
      (canonical_input_binning (self w))
      (missing_dims_vol (canonical_input_binning (self w))) groups w
    = (OK (List.flat_map (fun ag => assembled (self w) (snd ag) (fst ag))
             (with_addresses (List.length (heap w)) groups)),
       mkWorld (self w)
         (heap w ++ List.map (nominal_array (self w) ev) groups)
         (calls w ++ List.map Histogram groups)).
Proof.
  induction groups as [|g groups IH]; intros w Hev Hins Houts Hshapes.
  - cbn. unfold ret. rewrite !List.app_nil_r. now destruct w.
  - cbn [nominal_loop]. unfold bind at 1.
    rewrite (compute_aeff_ok _ _ _ g w ev Hev Hshapes).
    unfold bind at 1, get_self at 1. cbn [self].
    unfold bind at 1, lift at 1. rewrite (assemble_ok _ g _ Hins Houts).
    unfold bind at 1.
    set (w1 := mkWorld _ _ _).
    change (self w) with (self w1).
    rewrite (IH w1 Hev Hins Houts Hshapes).
    unfold ret, with_addresses. subst w1. cbn [self heap calls List.length seq combine
      List.flat_map List.map fst snd].
    rewrite List.length_app, Nat.add_1_r. cbn [List.length].
    now rewrite <- !List.app_assoc.
Qed.

Lemma excess_dims_empty (b : MultiDimBinning.t) :
  (forall n, In n (MultiDimBinning.names b) ->
             In n ["true_energy"; "true_coszen"; "true_azimuth"]) ->
  (0 <? List.length (excess_dims b))%nat = false.
Proof.
  intros Hdims. destruct (0 <? List.length (excess_dims b))%nat eqn:E; [|reflexivity].
  apply excess_dims_nonempty in E as (n & Hn & Hbad). now apply Hdims in Hn.
Qed.

(** What a ready stage computes: group number [i] gets a new array at the
    [i]-th address past the store, and the transforms are those of the
    groups, in the order of the groups. *)
Lemma nominal_ok (w : world) (ev : Events) :
  nominal_ready w ev ->
  exists w1,
    load_events w = (OK tt, w1)
    /\ _compute_nominal_transforms w =
         (OK (List.flat_map (fun ag => assembled (self w) (snd ag) (fst ag))
                (with_addresses (List.length (heap w)) (transform_groups (self w)))),
          mkWorld (self w1)
            (heap w ++ List.map (nominal_array (self w) ev) (transform_groups (self w)))
            (calls w1 ++ List.map Histogram (transform_groups (self w)))).
Proof.
  intros [(w1 & Hload & Hev) Henergy Hdims Hins Houts Hsizes Hshapes].
  exists w1. split; [assumption|].
  assert (Hrun : forall w', events (self w') = Some ev ->
            set_events (self w') ev (hash_obj (aeff_weight_file (params (self w))))
            = set_events (self w) ev (hash_obj (aeff_weight_file (params (self w)))) ->
            heap w' = heap w ->
            validate_and_histogram w' =
              (OK (List.flat_map (fun ag => assembled (self w) (snd ag) (fst ag))
                     (with_addresses (List.length (heap w)) (transform_groups (self w)))),
               mkWorld (self w')
                 (heap w ++ List.map (nominal_array (self w) ev) (transform_groups (self w)))
                 (calls w' ++ List.map Histogram (transform_groups (self w))))).
  { intros w' Hev' Hcfg Hheap.
    assert (Eib : input_binning (self w') = input_binning (self w))
      by exact (f_equal input_binning Hcfg).
    assert (Eob : output_binning (self w') = output_binning (self w))
      by exact (f_equal output_binning Hcfg).
    assert (Egr : transform_groups (self w') = transform_groups (self w))
      by exact (f_equal transform_groups Hcfg).
    assert (Ein : input_names (self w') = input_names (self w))
      by exact (f_equal input_names Hcfg).
    assert (Eout : output_names (self w') = output_names (self w))
      by exact (f_equal output_names Hcfg).
    assert (Eerr : error_method (self w') = error_method (self w))
      by exact (f_equal error_method Hcfg).
    assert (Esum : sum_grouped_flavints (self w') = sum_grouped_flavints (self w))
      by exact (f_equal sum_grouped_flavints Hcfg).
    unfold validate_and_histogram, bind, get_self.
    rewrite Eib, Henergy. cbn [negb]. cbv zeta.
    rewrite (excess_dims_empty _ Hdims).
    pose proof (nominal_loop_ok ev (transform_groups (self w)) w' Hev') as Hloop.
    unfold nominal_array, divisor, histogram_shape, volumes_shape, raw_histogram,
      canonical_input_binning, canonical_output_binning in Hloop.
    rewrite Eib, Eob, Ein, Eout, Eerr, Hheap in Hloop.
    rewrite Eob, Egr, (Hloop Hins Houts Hshapes).
    f_equal. f_equal. apply List.flat_map_ext. intros [a g].
    unfold assembled, merged_transforms, unmerged_transforms. cbn [fst snd].
    now rewrite Eib, Eob, Ein, Eout, Esum. }
  unfold _compute_nominal_transforms, bind. rewrite Hload.
  destruct (load_events_cases w) as [H|[(ev' & H)|(e & H)]];
    rewrite H in Hload; inversion Hload; subst w1.
  - now apply Hrun.
  - apply Hrun; reflexivity || assumption.
Qed.

Lemma ndarray_div_lookup (a b : ndarray) (j : nat) (x y : float) :
  a !! j = Some x -> b !! j = Some y ->
  ndarray_div a b !! j = Some (PrimFloat.div x y).
Proof.
  revert b j. induction a as [|x' a IH]; intros [|y' b] [|j]; cbn; try discriminate.
  - intros Hx Hy. injection Hx as ->. injection Hy as ->. reflexivity.
  - apply IH.
Qed.

Lemma ndarray_mul_scalar_lookup (a : ndarray) (k : float) (j : nat) (v : float) :
  a !! j = Some v -> ndarray_mul_scalar a k !! j = Some (PrimFloat.mul v k).
Proof.
  revert j. induction a as [|v' a IH]; intros [|j]; cbn; try discriminate.
  - intros Hv. injection Hv as ->. reflexivity.
  - apply IH.
Qed.

Lemma lookup_map (A B : Type) (f : A -> B) (l : list A) (i : nat) (x : A) :
  l !! i = Some x -> List.map f l !! i = Some (f x).
Proof.
  revert i. induction l as [|y l IH]; intros [|i]; cbn; try discriminate.
  - intros H. injection H as ->. reflexivity.
  - apply IH.
Qed.

Lemma In_with_addresses (base : nat) (groups : list NuFlavIntGroup) (i : nat)
    (g : NuFlavIntGroup) :
  groups !! i = Some g -> In (base + i, g) (with_addresses base groups).
Proof.
  unfold with_addresses. revert base i.
  induction groups as [|g' groups IH]; intros base [|i]; cbn; try discriminate.
  - intros H. injection H as ->. left. f_equal. lia.
  - intros H. right. replace (base + S i) with (S base + i) by lia. now apply IH.
Qed.

Lemma length_bin_widths (edges : list float) :
  List.length (MultiDimBinning.bin_widths edges) = List.length edges - 1.
Proof.
  induction edges as [|lo rest IH]; [reflexivity|].
  destruct rest as [|hi rest]; [reflexivity|].
  change (MultiDimBinning.bin_widths (lo :: hi :: rest))
    with (PrimFloat.sub hi lo :: MultiDimBinning.bin_widths (hi :: rest)).
  cbn [List.length] in *. rewrite IH. lia.
Qed.

Lemma length_outer (vol widths : list float) :
  List.length (MultiDimBinning.outer vol widths) = List.length vol * List.length widths.
Proof.
  unfold MultiDimBinning.outer. induction vol as [|v vol IH]; cbn; [reflexivity|].
  now rewrite List.length_app, List.length_map, IH.
Qed.

(** The bin volumes have as many elements as the shape of the binning says. *)
Lemma length_bin_volumes (b : MultiDimBinning.t) :
  List.length (MultiDimBinning.bin_volumes b) = size (MultiDimBinning.shape b).
Proof.
  unfold MultiDimBinning.bin_volumes, MultiDimBinning.shape, MultiDimBinning.shape_of_edges,
    MultiDimBinning.bin_edges.
  assert (H : forall vol,
            List.length
              (List.fold_left
                 (fun vol d => MultiDimBinning.outer vol
                                 (MultiDimBinning.bin_widths (OneDimBinning.bin_edges d))) b vol)
            = List.length vol
              * size (List.map (fun e => List.length e - 1)
                        (List.map OneDimBinning.bin_edges b))).
  { induction b as [|d b IH]; intros vol; cbn [List.fold_left List.map size List.fold_right].
    - lia.
    - rewrite IH, length_outer, length_bin_widths. unfold size. lia. }
  rewrite H. cbn. lia.
Qed.

Lemma concat_chunks (n k : nat) (l : ndarray) :
  List.length l = k * n -> List.concat (chunks n k l) = l.
Proof.
  revert l. induction k as [|k IH]; intros l Hl; cbn.
  - destruct l; [reflexivity | discriminate].
  - rewrite IH; [apply List.firstn_skipn|]. rewrite List.length_skipn. lia.
Qed.

Lemma chunks_lengths (n k : nat) (l : ndarray) :
  List.length l = k * n -> Forall (fun c => List.length c = n) (chunks n k l).
Proof.
  revert l. induction k as [|k IH]; intros l Hl; cbn; constructor.
  - rewrite List.length_firstn. lia.
  - apply IH. rewrite List.length_skipn. lia.
Qed.

(** Broadcasting to an array's own shape leaves the array as it is. *)
Lemma broadcast_data_same (s : shape) :
  forall b : ndarray, List.length b = size s -> broadcast_data s s b = b.
Proof.
  induction s as [|d s IH]; intros b Hb; cbn [broadcast_data]; [reflexivity|].
  rewrite Nat.eqb_refl. cbn [size List.fold_right] in Hb. fold (size s) in Hb.
  pose proof (chunks_lengths (size s) d b Hb) as Hlen.
  rewrite <- (concat_chunks (size s) d b Hb) at 2.
  induction Hlen as [|c cs Hc _ IHc]; cbn; [reflexivity|].
  now rewrite (IH c Hc), IHc.
Qed.

Lemma broadcast_to_same (s : shape) (b : ndarray) :
  List.length b = size s -> broadcast_to s s b = b.
Proof.
  intros Hb. unfold broadcast_to. rewrite Nat.sub_diag. now apply broadcast_data_same.
Qed.












(** The units of the computation: what lines 183-190 select and convert. *)
Lemma MultiDimBinning_to_select_units (b : MultiDimBinning.t) :
  MultiDimBinning_to b (select_units b) = in_computational_units b.
Proof.
  unfold MultiDimBinning_to, in_computational_units. apply List.map_ext_in. intros d Hd.
  assert (Hin : MultiDimBinning.contains b (OneDimBinning.name d) = true).
  { apply str_in_In. unfold MultiDimBinning.names. now apply List.in_map. }
  unfold select_units, comp_units. cbn [List.filter fst].
  destruct (String.eqb_spec (OneDimBinning.name d) "true_energy") as [E|E].
  - rewrite E in *. rewrite Hin. cbn. reflexivity.
  - destruct (String.eqb_spec (OneDimBinning.name d) "true_azimuth") as [A|A].
    + rewrite A in *. rewrite Hin.
      destruct (MultiDimBinning.contains b "true_energy"),
               (MultiDimBinning.contains b "true_coszen"); cbn; reflexivity.
    + assert (Ee : String.eqb "true_energy" (OneDimBinning.name d) = false)
        by (apply String.eqb_neq; congruence).
      assert (Ea : String.eqb "true_azimuth" (OneDimBinning.name d) = false)
        by (apply String.eqb_neq; congruence).
      destruct (MultiDimBinning.contains b "true_energy"),
               (MultiDimBinning.contains b "true_coszen"),
               (MultiDimBinning.contains b "true_azimuth"); cbn [dict_get];
        rewrite ?Ee, ?Ea;
        destruct (String.eqb "true_coszen" (OneDimBinning.name d)); reflexivity.
Qed.

Lemma nominal_array_explicit (st : hist) (ev : Events) (g : NuFlavIntGroup) :
  nominal_array st ev g
  = ndarray_div
      (Events_histogram ev g
         (MultiDimBinning.bin_edges (in_computational_units (output_binning st)))
         (MultiDimBinning.names (input_binning st)) "weighted_aeff"
         (match error_method st with Some _ => true | None => false end))
      (broadcast_to (MultiDimBinning.shape (in_computational_units (output_binning st)))
         (MultiDimBinning.shape (in_computational_units (input_binning st)))
         (ndarray_mul_scalar
            (MultiDimBinning.bin_volumes (in_computational_units (input_binning st)))
            (missing_dims_vol (in_computational_units (input_binning st))))).
Proof.
  unfold nominal_array, divisor, raw_histogram, histogram_shape, volumes_shape,
    canonical_input_binning, canonical_output_binning.
  now rewrite !MultiDimBinning_to_select_units.
Qed.

(** C5. For every category group of a stage that is ready, the nominal
    computation returns, and the array its transforms hold, read in the store
    the computation leaves, is the raw weighted histogram of the group
    divided, element by element, by the bin volumes of the input binning in
    the units of the computation times the volume of the missing dimensions.
    The units of the computation are GeV for the energy and rad for the
    azimuth, the direction staying as it is; the histogram is taken over the
    edges of the output binning in these units. The division is numpy's: the
    divisor is broadcast to the shape of the histogram, and where the two
    binnings have the same shape element [j] of the array is element [j] of
    the histogram over element [j] of the volumes times the factor. *)
Theorem nominal_array_is_histogram_over_volume (w : world) (ev : Events) :
  nominal_ready w ev ->
  let st := self w in
  let binning_in := in_computational_units (input_binning st) in
  let binning_out := in_computational_units (output_binning st) in
  let volumes := MultiDimBinning.bin_volumes binning_in in
  let factor := missing_dims_vol binning_in in
  let divisor :=
    broadcast_to (MultiDimBinning.shape binning_out) (MultiDimBinning.shape binning_in)
      (ndarray_mul_scalar volumes factor) in
  let histogram g :=
    Events_histogram ev g (MultiDimBinning.bin_edges binning_out)
      (MultiDimBinning.names (input_binning st)) "weighted_aeff"
      (match error_method st with Some _ => true | None => false end) in
  exists ts w',
    _compute_nominal_transforms w = (OK ts, w')
    /\ forall i g,
         transform_groups st !! i = Some g ->
         let a := List.length (heap w) + i in
         heap w' !! a = Some (ndarray_div (histogram g) divisor)
         /\ (forall t, In t (assembled st g a) -> In t ts /\ xform_array t = a)
         /\ (forall j x v,
               histogram g !! j = Some x -> divisor !! j = Some v ->
               exists arr, heap w' !! a = Some arr /\ arr !! j = Some (PrimFloat.div x v))
         /\ (MultiDimBinning.shape binning_out = MultiDimBinning.shape binning_in ->
             forall j x v,
               histogram g !! j = Some x -> volumes !! j = Some v ->
               exists arr, heap w' !! a = Some arr
                 /\ arr !! j = Some (PrimFloat.div x (PrimFloat.mul v factor))).
Proof.
  intros Hready. cbv zeta.
  destruct (nominal_ok w ev Hready) as (w1 & _ & Hrun).
  eexists _, _. split; [exact Hrun|].
  intros i g Hg. cbn [heap].
  assert (Harr : (heap w ++ List.map (nominal_array (self w) ev) (transform_groups (self w)))
                   !! (List.length (heap w) + i)
                 = Some (nominal_array (self w) ev g)).
  { rewrite lookup_app_r by lia.
    replace (List.length (heap w) + i - List.length (heap w)) with i by lia.
    now apply lookup_map. }
  rewrite (nominal_array_explicit (self w) ev g) in Harr.
  split; [exact Harr|]. split; [|split].
  - intros t Ht. split; [|now apply assembled_array in Ht].
    apply List.in_flat_map. exists (List.length (heap w) + i, g).
    split; [now apply In_with_addresses | exact Ht].
  - intros j x v Hx Hv. eexists. split; [exact Harr|].
    now apply ndarray_div_lookup.
  - intros Hsame j x v Hx Hv. eexists. split; [exact Harr|].
    apply ndarray_div_lookup; [assumption|].
    rewrite Hsame, broadcast_to_same
      by (now rewrite length_ndarray_mul_scalar, length_bin_volumes).
    now apply ndarray_mul_scalar_lookup.
Qed.

(** ** Unmerged and merged mode *)

Lemma NoDup_map_injective (A B : Type) (f : A -> B) (l : list A) :
  (forall x y, f x = f y -> x = y) -> NoDup l -> NoDup (List.map f l).
Proof.
  intros Hinj. induction 1 as [|x l Hx _ IH]; cbn; constructor; [|assumption].
  rewrite list_elem_of_In, List.in_map_iff.
  intros (y & E & Hy). apply Hinj in E. subst. now apply Hx, list_elem_of_In.
Qed.

Lemma NoDup_unmerged_transforms (st : hist) (g : NuFlavIntGroup) (a : addr) :
  NoDup (input_names st) -> NoDup (output_names st) ->
  NoDup (unmerged_transforms st g a).
Proof.
  intros Hins Houts. unfold unmerged_transforms.
  assert (Hins' : NoDup (List.filter (intersects_input g) (input_names st))).
  { rewrite NoDup_ListNoDup in *. now apply List.NoDup_filter. }
  assert (Houts' : NoDup (List.filter (belongs_to g) (output_names st))).
  { rewrite NoDup_ListNoDup in *. now apply List.NoDup_filter. }
  induction Hins' as [|i ins Hi _ IH]; cbn; [constructor|].
  apply NoDup_app. split; [|split; [|exact IH]].
  - apply NoDup_map_injective; [|assumption]. intros o o' E. now injection E.
  - intros t Ht Ht'. rewrite list_elem_of_In in *.
    apply List.in_map_iff in Ht as (o & <- & _).
    apply List.in_flat_map in Ht' as (i' & Hi' & Ht').
    apply List.in_map_iff in Ht' as (o' & E & _).
    injection E as -> _. apply Hi. now apply list_elem_of_In.
Qed.

(** C3. In unmerged mode a ready stage returns, for each category group in
    turn, one transform for each pair of an input name whose categories meet
    the group and an output name that belongs to the group, the pairs being
    taken input name by input name. The transforms of a group all refer to
    the one array of the group, each carries the single input name of its
    pair, and the summing flag of each is unset. When no name is declared
    twice, no transform is produced twice: there is exactly one per pair. *)
Theorem unmerged_mode_transforms (w : world) (ev : Events) :
  nominal_ready w ev ->
  sum_grouped_flavints (self w) = false ->
  let st := self w in
  exists w',
    _compute_nominal_transforms w =
      (OK (List.flat_map
             (fun ag : addr * NuFlavIntGroup =>
                List.flat_map
                  (fun i =>
                     List.map
                       (fun o => mkTransform [i] o (input_binning st) (output_binning st)
                                   (fst ag) false)
                       (List.filter (belongs_to (snd ag)) (output_names st)))
                  (List.filter (intersects_input (snd ag)) (input_names st)))
             (with_addresses (List.length (heap w)) (transform_groups st))),
       w')
    /\ (NoDup (input_names st) -> NoDup (output_names st) ->
        forall a g, NoDup (unmerged_transforms st g a)).
Proof.
  intros Hready Hsum. cbv zeta.
  destruct (nominal_ok w ev Hready) as (w1 & _ & Hrun).
  eexists. split.
  - rewrite Hrun. f_equal. f_equal. apply List.flat_map_ext. intros [a g].
    unfold assembled, unmerged_transforms. now rewrite Hsum.
  - intros Hins Houts a g. now apply NoDup_unmerged_transforms.
Qed.

Lemma belongs_to_group_name (st : hist) (g g' : NuFlavIntGroup) :
  groups_partition (transform_groups st) -> names_denote_groups st ->
  In g (transform_groups st) -> In g' (transform_groups st) ->
  belongs_to g (str_NuFlavIntGroup g') = true <-> g' = g.
Proof.
  intros [Hne _ Hdisj] [_ Hden] Hg Hg'. rewrite belongs_to_spec.
  destruct (Hden g' Hg') as (fl & Hfl & Hiff). split.
  - intros (fl' & Hfl' & Hsub). rewrite Hfl in Hfl'. injection Hfl' as E; subst fl'.
    destruct g' as [|k rest] eqn:E; [now apply Hne in Hg'|].
    apply (Hdisj _ _ k Hg' Hg); [now left|].
    apply Hsub, Hiff. now left.
  - intros ->. exists fl. split; [assumption|]. intros k. apply Hiff.
Qed.

Lemma filter_map_unique (A : Type) (P : string -> bool) (f : A -> string) (l : list A) (x : A) :
  NoDup l -> In x l -> (forall y, In y l -> P (f y) = true <-> y = x) ->
  List.filter P (List.map f l) = [f x].
Proof.
  assert (Hnone : forall l', ~ In x l' -> (forall y, In y l' -> P (f y) = true -> y = x) ->
                             List.filter P (List.map f l') = []).
  { induction l' as [|y l' IH]; intros Hx HP; cbn; [reflexivity|].
    destruct (P (f y)) eqn:E.
    - exfalso. apply Hx. left. apply HP; [now left | assumption].
    - apply IH; [intros H; apply Hx; now right | intros z Hz; apply HP; now right]. }
  induction 1 as [|y l Hy Hnd IH]; intros Hx HP; [destruct Hx|].
  cbn. destruct (P (f y)) eqn:E.
  - assert (y = x) by (apply HP; [now left | assumption]). subst y.
    f_equal. apply Hnone; [now rewrite <- list_elem_of_In|].
    intros z Hz Hpz. apply HP; [now right | assumption].
  - destruct Hx as [->|Hx].
    + assert (P (f x) = true) by (apply HP; [now left | reflexivity]). congruence.
    + apply IH; [assumption|]. intros z Hz. apply HP. now right.
Qed.

(** C2. In merged mode a ready stage returns, for each category group in
    turn, one transform for each output name that belongs to the group; the
    input names of the transform are the declared input names whose
    categories meet the group, in the order of their declaration; its array
    is the one array of the group; its summing flag is set. When the groups
    partition the categories and the output names are the names of the
    groups, exactly one output name belongs to a group, the name of the group
    itself: each group gets one transform, named after the group. *)
Theorem merged_mode_transforms (w : world) (ev : Events) :
  nominal_ready w ev ->
  sum_grouped_flavints (self w) = true ->
  let st := self w in
  exists w',
    _compute_nominal_transforms w =
      (OK (List.flat_map
             (fun ag : addr * NuFlavIntGroup =>
                List.map
                  (fun o =>
                     mkTransform (List.filter (intersects_input (snd ag)) (input_names st)) o
                       (input_binning st) (output_binning st) (fst ag) true)
                  (List.filter (belongs_to (snd ag)) (output_names st)))
             (with_addresses (List.length (heap w)) (transform_groups st))),
       w')
    /\ (groups_partition (transform_groups st) -> names_denote_groups st ->
        forall g, In g (transform_groups st) ->
          List.filter (belongs_to g) (output_names st) = [str_NuFlavIntGroup g]).
Proof.
  intros Hready Hsum. cbv zeta.
  destruct (nominal_ok w ev Hready) as (w1 & _ & Hrun).
  eexists. split.
  - rewrite Hrun. f_equal. f_equal. apply List.flat_map_ext. intros [a g].
    unfold assembled, merged_transforms. now rewrite Hsum.
  - intros Hpart Hden g Hg. rewrite (proj1 Hden).
    apply filter_map_unique; [exact (partition_NoDup _ Hpart) | assumption |].
    intros g' Hg'. now apply (belongs_to_group_name (self w)).
Qed.

(** The constructor sets the names the assembler relies on: in merged mode
    the output names are the names of the groups. *)
Lemma init_merged_output_names (a : init_args) (st : hist) :
  __init__ a = OK st -> arg_sum_grouped_flavints a = true ->
  sum_grouped_flavints st = true
  /\ output_names st = List.map str_NuFlavIntGroup (transform_groups st).
Proof.
  unfold __init__, init_output_names, Stage_init. intros H Hsum.
  destruct (negb _); [discriminate|].
  destruct (flavintGroupsFromString _) as [groups|]; cbn in H; [|discriminate].
  destruct (String.eqb (arg_particles a) "neutrinos"); cbn in H; [|discriminate].
  rewrite Hsum in H. cbn in H.
  destruct (init_input_names a); [|discriminate].
  injection H as <-. cbn. split; reflexivity.
Qed.

(** ** The rescale phase *)

Lemma only_allocates_ret (A : Type) (a : A) : only_allocates (ret a).
Proof. intros w. exists []. cbn. rewrite List.app_nil_r. now destruct w. Qed.

Lemma only_allocates_raise (A : Type) (e : exn) : only_allocates (@raise _ A e).
Proof. intros w. exists []. cbn. rewrite List.app_nil_r. now destruct w. Qed.

Lemma only_allocates_lift (A : Type) (r : result A) : only_allocates (lift r).
Proof. intros w. exists []. cbn. rewrite List.app_nil_r. now destruct w. Qed.

Lemma only_allocates_get_self : only_allocates get_self.
Proof. intros w. exists []. cbn. rewrite List.app_nil_r. now destruct w. Qed.

Lemma only_allocates_read (p : addr) : only_allocates (read p).
Proof.
  intros w. exists []. unfold read. rewrite List.app_nil_r.
  destruct (heap w !! p); now destruct w.
Qed.

Lemma only_allocates_alloc (a : ndarray) : only_allocates (alloc a).
Proof. intros w. now exists [a]. Qed.

Lemma only_allocates_bind (A B : Type) (m : M A) (k : A -> M B) :
  only_allocates m -> (forall a, only_allocates (k a)) -> only_allocates (bind m k).
Proof.
  intros Hm Hk w. unfold bind. destruct (Hm w) as [e1 H1].
  destruct (m w) as [[a|e] w1]; cbn [snd] in *; subst w1.
  - destruct (Hk a (mkWorld (self w) (heap w ++ e1) (calls w))) as [e2 H2].
    exists (e1 ++ e2). rewrite H2. cbn. now rewrite List.app_assoc.
  - now exists e1.
Qed.

Lemma only_allocates_rescale_array (k l : float) (t : BinnedTensorTransform) :
  only_allocates (rescale_array k l t).
Proof.
  unfold rescale_array.
  apply only_allocates_bind; [apply only_allocates_read|]. intros nominal.
  apply only_allocates_bind; [apply only_allocates_alloc|]. intros a.
  destruct (is_special_channel _); [|apply only_allocates_ret].
  apply only_allocates_bind; [apply only_allocates_get_self|]. intros st.
  apply only_allocates_bind; [apply only_allocates_read|]. intros scaled.
  apply only_allocates_alloc.
Qed.

Lemma only_allocates_rescale_loop (g : NuFlavIntGroup) (names : list string) (k l : float)
    (ts : list BinnedTensorTransform) :
  forall cache, only_allocates (rescale_loop g names k l ts cache).
Proof.
  induction ts as [|t ts IH]; intros cache; cbn [rescale_loop];
    [apply only_allocates_ret|].
  apply only_allocates_bind; [apply only_allocates_lift|]. intros [|]; [|apply IH].
  apply only_allocates_bind.
  { destruct cache; [apply only_allocates_ret | apply only_allocates_rescale_array]. }
  intros a. apply only_allocates_bind; [apply only_allocates_get_self|]. intros st.
  apply only_allocates_bind; [apply IH|]. intros r. apply only_allocates_ret.
Qed.

Lemma only_allocates_rescale_groups (k l : float) (groups : list NuFlavIntGroup) :
  only_allocates (rescale_groups k l groups).
Proof.
  induction groups as [|g groups IH]; cbn [rescale_groups]; [apply only_allocates_ret|].
  destruct g as [|repr g']; [apply only_allocates_raise|].
  apply only_allocates_bind; [apply only_allocates_get_self|]. intros st.
  apply only_allocates_bind; [apply only_allocates_rescale_loop|]. intros xs.
  apply only_allocates_bind; [apply IH|]. intros r. apply only_allocates_ret.
Qed.

Lemma only_allocates_compute_transforms : only_allocates _compute_transforms.
Proof.
  unfold _compute_transforms.
  apply only_allocates_bind; [apply only_allocates_get_self|]. intros st.
  apply only_allocates_rescale_groups.
Qed.

Lemma rescale_array_ok (k l : float) (first : BinnedTensorTransform) (w : world)
    (A : ndarray) :
  heap w !! xform_array first = Some A ->
  exists a,
    rescale_array k l first w =
      (OK a, mkWorld (self w) (heap w ++ rescaled_arrays (self w) k l first A) (calls w))
    /\ List.length (heap w) <= a
    /\ (heap w ++ rescaled_arrays (self w) k l first A) !! a
       = Some (rescaled (self w) k l first A).
Proof.
  intros HA. unfold rescale_array, rescaled_arrays, rescaled, bind, read. rewrite HA.
  unfold alloc at 1, with_heap. cbn [heap self calls].
  destruct (is_special_channel (xf_output_name first)).
  - unfold get_self, alloc, with_heap. cbn [heap self calls].
    rewrite list_lookup_middle by reflexivity.
    exists (List.length (heap w ++ [ndarray_mul_scalar A (PrimFloat.mul k l)])).
    cbn [self heap calls].
    split; [now rewrite <- List.app_assoc|]. split; [rewrite List.length_app; lia|].
    change (heap w ++ [?x; ?y]) with (heap w ++ [x] ++ [y]).
    rewrite List.app_assoc. now rewrite list_lookup_middle.
  - unfold ret. exists (List.length (heap w)). split; [reflexivity|]. split; [lia|].
    now rewrite list_lookup_middle.
Qed.

Lemma matches_group_returns (g : NuFlavIntGroup) (t : BinnedTensorTransform) :
  returns (matches_group g (flav_names g) t) ->
  matches_group g (flav_names g) t = OK (matched g t).
Proof. intros [b H]. unfold matched. now rewrite H. Qed.

(** The three ways one turn of the loop over the nominal transforms goes. *)
Lemma rescale_loop_skip (g : NuFlavIntGroup) (names : list string) (k l : float)
    (t : BinnedTensorTransform) (ts : list BinnedTensorTransform) (cache : option addr)
    (w : world) :
  matches_group g names t = OK false ->
  rescale_loop g names k l (t :: ts) cache w = rescale_loop g names k l ts cache w.
Proof. intros H. cbn [rescale_loop]. unfold bind, lift. now rewrite H. Qed.

Lemma rescale_loop_hit_cached (g : NuFlavIntGroup) (names : list string) (k l : float)
    (t : BinnedTensorTransform) (ts : list BinnedTensorTransform) (a : addr) (w : world) :
  matches_group g names t = OK true ->
  rescale_loop g names k l (t :: ts) (Some a) w
  = match rescale_loop g names k l ts (Some a) w with
    | (OK r, w') => (OK (retag (self w) a t :: r), w')
    | (Raise e, w') => (Raise e, w')
    end.
Proof.
  intros H. cbn [rescale_loop]. unfold bind, lift, ret, get_self. rewrite H.
  now destruct (rescale_loop g names k l ts (Some a) w) as [[r|e] w'].
Qed.

Lemma rescale_loop_hit_fresh (g : NuFlavIntGroup) (names : list string) (k l : float)
    (t : BinnedTensorTransform) (ts : list BinnedTensorTransform) (a : addr) (w w1 : world) :
  matches_group g names t = OK true ->
  rescale_array k l t w = (OK a, w1) ->
  rescale_loop g names k l (t :: ts) None w
  = match rescale_loop g names k l ts (Some a) w1 with
    | (OK r, w') => (OK (retag (self w1) a t :: r), w')
    | (Raise e, w') => (Raise e, w')
    end.
Proof.
  intros H Hrun. cbn [rescale_loop]. unfold bind, lift, ret, get_self. rewrite H, Hrun.
  now destruct (rescale_loop g names k l ts (Some a) w1) as [[r|e] w'].
Qed.

(** Once the array of the group exists the loop allocates nothing. *)
Lemma rescale_loop_cached (g : NuFlavIntGroup) (k l : float)
    (ts : list BinnedTensorTransform) (a : addr) (w : world) :
  Forall (fun t => returns (matches_group g (flav_names g) t)) ts ->
  rescale_loop g (flav_names g) k l ts (Some a) w
  = (OK (List.map (retag (self w) a) (List.filter (matched g) ts)), w).
Proof.
  induction 1 as [|t ts Ht _ IH]; [reflexivity|].
  pose proof (matches_group_returns g t Ht) as Hm. cbn [List.filter].
  destruct (matched g t).
  - now rewrite (rescale_loop_hit_cached _ _ _ _ _ _ _ _ Hm), IH.
  - now rewrite (rescale_loop_skip _ _ _ _ _ _ _ _ Hm).
Qed.

(** From the start of the loop: nothing happens up to the first matching
    transform, whose array is rescaled once; every matching transform gets
    that one new array. *)
Lemma rescale_loop_fresh (g : NuFlavIntGroup) (k l : float)
    (ts : list BinnedTensorTransform) (w : world) :
  Forall (fun t => returns (matches_group g (flav_names g) t)) ts ->
  match List.filter (matched g) ts with
  | [] => rescale_loop g (flav_names g) k l ts None w = (OK [], w)
  | first :: _ =>
      forall A, heap w !! xform_array first = Some A ->
        exists a,
          rescale_loop g (flav_names g) k l ts None w
          = (OK (List.map (retag (self w) a) (List.filter (matched g) ts)),
             mkWorld (self w) (heap w ++ rescaled_arrays (self w) k l first A) (calls w))
          /\ List.length (heap w) <= a
          /\ (heap w ++ rescaled_arrays (self w) k l first A) !! a
             = Some (rescaled (self w) k l first A)
  end.
Proof.
  induction 1 as [|t ts Ht Hts IH]; [reflexivity|].
  pose proof (matches_group_returns g t Ht) as Hm. cbn [List.filter].
  destruct (matched g t).
  - intros A HA. destruct (rescale_array_ok k l t w A HA) as (a & Hrun & Hle & Hget).
    exists a. split; [|split; assumption].
    rewrite (rescale_loop_hit_fresh _ _ _ _ _ _ _ _ _ Hm Hrun).
    now rewrite (rescale_loop_cached g k l ts a _ Hts).
  - rewrite (rescale_loop_skip _ _ _ _ _ _ _ _ Hm). exact IH.
Qed.

Lemma rescale_groups_ok (k l : float) (h0 : store) (ts : list BinnedTensorTransform)
    (groups : list NuFlavIntGroup) :
  forall w : world,
    nominal_transforms (self w) = ts ->
    (exists e, heap w = h0 ++ e) ->
    Forall (group_ready h0 ts) groups ->
    exists outs w',
      rescale_groups k l groups w = (OK (List.concat outs), w')
      /\ self w' = self w
      /\ (exists e, heap w' = heap w ++ e)
      /\ Forall2 (group_rescaled (self w) k l h0 (heap w') ts) groups outs.
Proof.
  induction groups as [|g groups IH]; intros w Hts Hpre Hready.
  - exists [], w. repeat split; [exists []; now rewrite List.app_nil_r | constructor].
  - apply Forall_cons in Hready as [(Hne & Hret & Hvalid) Hready].
    destruct g as [|repr g'] eqn:Eg; [congruence|]. rewrite <- Eg in *.
    assert (Hstep : forall xs w1,
              rescale_loop g (flav_names g) k l ts None w = (OK xs, w1) ->
              rescale_groups k l (g :: groups) w
              = match rescale_groups k l groups w1 with
                | (OK r, w') => (OK (xs ++ r), w')
                | (Raise e, w') => (Raise e, w')
                end).
    { intros xs w1 Hloop. rewrite Eg. cbn [rescale_groups]. rewrite <- Eg.
      unfold bind, get_self, ret. rewrite Hts. fold (flav_names g). rewrite Hloop.
      now destruct (rescale_groups k l groups w1) as [[r|e] w']. }
    pose proof (rescale_loop_fresh g k l ts w Hret) as Hloop.
    destruct (List.filter (matched g) ts) as [|first rest] eqn:Ef.
    + destruct (IH w Hts Hpre Hready) as (outs & w' & Hrun & Hself & Hext & Hall).
      exists ([] :: outs), w'. rewrite (Hstep _ _ Hloop), Hrun. cbn [List.concat List.app].
      repeat split; try assumption.
      constructor; [|assumption]. exists 0. rewrite Ef. split; [reflexivity|]. discriminate.
    + destruct (Hvalid first rest eq_refl) as [A HA].
      destruct Hpre as [e He].
      assert (HA' : heap w !! xform_array first = Some A).
      { rewrite He. now apply lookup_app_l_Some. }
      destruct (Hloop A HA') as (a & Hloop' & Hle & Hget).
      set (w1 := mkWorld (self w) (heap w ++ rescaled_arrays (self w) k l first A) (calls w))
        in *.
      destruct (IH w1 Hts) as (outs & w' & Hrun & Hself & (e2 & Hext) & Hall).
      { exists (e ++ rescaled_arrays (self w) k l first A). subst w1. cbn [heap].
        now rewrite He, List.app_assoc. }
      { assumption. }
      exists (List.map (retag (self w) a) (first :: rest) :: outs), w'.
      rewrite (Hstep _ _ Hloop'), Hrun. cbn [List.concat].
      split; [reflexivity|]. split; [exact Hself|]. split.
      { exists (rescaled_arrays (self w) k l first A ++ e2). rewrite Hext. subst w1.
        cbn [heap]. now rewrite List.app_assoc. }
      constructor; [|exact Hall].
      exists a. rewrite Ef. split; [reflexivity|].
      intros first' rest' E. injection E as <- <-.
      split; [rewrite He, List.length_app in Hle; lia|].
      exists A. split; [assumption|].
      rewrite Hext. apply lookup_app_l_Some. exact Hget.
Qed.

(** ** Well-formed stages *)

Lemma NuFlav_eqb_refl (f : NuFlav) : NuFlav_eqb f f = true.
Proof. now destruct f. Qed.

Lemma flav_name_of_intersecting (st : hist) (g : NuFlavIntGroup) (n : string) :
  stage_well_formed st -> In n (input_names st) -> intersects_input g n = true ->
  str_in n (flav_names g) = true.
Proof.
  intros Hwf Hn Hint. destruct (wf_inputs st Hwf n Hn) as (f & fl & -> & Hfl & Hflav).
  apply intersects_input_spec in Hint as (fl' & k & Hfl' & Hkg & Hkfl).
  rewrite Hfl in Hfl'. injection Hfl' as E; subst fl'.
  apply str_in_In, List.in_map, List.filter_In. split; [destruct f; cbn; tauto|].
  apply List.existsb_exists. exists k. split; [assumption|].
  rewrite (Hflav k Hkfl). apply NuFlav_eqb_refl.
Qed.

Lemma first_input_of_assembled (st : hist) (g : NuFlavIntGroup) (a : addr)
    (t : BinnedTensorTransform) :
  stage_well_formed st -> In g (transform_groups st) -> In t (assembled st g a) ->
  exists n, first_input_name t = OK n /\ In n (input_names st)
            /\ intersects_input g n = true.
Proof.
  intros Hwf Hg. unfold assembled, merged_transforms, unmerged_transforms.
  destruct (sum_grouped_flavints st) eqn:Esum.
  - rewrite List.in_map_iff. intros (o & <- & _).
    destruct (wf_fed st Hwf Esum g Hg) as (n & Hn & Hint).
    assert (Hin : In n (List.filter (intersects_input g) (input_names st)))
      by now apply List.filter_In.
    unfold first_input_name. cbn [xf_input_names].
    destruct (List.filter (intersects_input g) (input_names st)) as [|n0 ns] eqn:E;
      [destruct Hin|].
    exists n0. split; [reflexivity|]. apply List.filter_In. rewrite E. now left.
  - rewrite List.in_flat_map. intros (i & Hi & Ht).
    apply List.in_map_iff in Ht as (o & <- & _).
    exists i. split; [reflexivity|]. now apply List.filter_In.
Qed.

Lemma output_of_assembled (st : hist) (g : NuFlavIntGroup) (a : addr)
    (t : BinnedTensorTransform) :
  In t (assembled st g a) ->
  In (xf_output_name t) (output_names st) /\ belongs_to g (xf_output_name t) = true.
Proof.
  unfold assembled, merged_transforms, unmerged_transforms.
  destruct (sum_grouped_flavints st).
  - rewrite List.in_map_iff. intros (o & <- & Ho). now apply List.filter_In.
  - rewrite List.in_flat_map. intros (i & _ & Ht).
    apply List.in_map_iff in Ht as (o & <- & Ho). now apply List.filter_In.
Qed.

Lemma flag_of_assembled (st : hist) (g : NuFlavIntGroup) (a : addr)
    (t : BinnedTensorTransform) :
  In t (assembled st g a) -> sum_inputs t = sum_grouped_flavints st.
Proof.
  unfold assembled, merged_transforms, unmerged_transforms.
  destruct (sum_grouped_flavints st).
  - rewrite List.in_map_iff. now intros (o & <- & _).
  - rewrite List.in_flat_map. intros (i & _ & Ht).
    apply List.in_map_iff in Ht as (o & <- & _). reflexivity.
Qed.

(** The rescale phase finds the transforms of a group, and only them. *)
Lemma matches_own_group (st : hist) (g : NuFlavIntGroup) (a : addr)
    (t : BinnedTensorTransform) :
  stage_well_formed st -> In g (transform_groups st) -> In t (assembled st g a) ->
  matches_group g (flav_names g) t = OK true.
Proof.
  intros Hwf Hg Ht.
  destruct (first_input_of_assembled st g a t Hwf Hg Ht) as (n & Hfirst & Hn & Hint).
  destruct (output_of_assembled st g a t Ht) as [Ho Hbel].
  unfold matches_group. rewrite Hfirst. cbn [result_bind].
  rewrite (flav_name_of_intersecting st g n Hwf Hn Hint).
  unfold belongs_to in Hbel.
  destruct (NuFlavIntGroup_contains g (xf_output_name t)) as [b|e]; congruence.
Qed.

Lemma matches_other_group (st : hist) (g g' : NuFlavIntGroup) (a : addr)
    (t : BinnedTensorTransform) :
  stage_well_formed st -> In g (transform_groups st) -> In g' (transform_groups st) ->
  g' <> g -> In t (assembled st g a) ->
  matches_group g' (flav_names g') t = OK false.
Proof.
  intros Hwf Hg Hg' Hne Ht.
  destruct (first_input_of_assembled st g a t Hwf Hg Ht) as (n & Hfirst & _).
  destruct (output_of_assembled st g a t Ht) as [Ho Hbel].
  unfold matches_group. rewrite Hfirst. cbn [result_bind].
  destruct (str_in n (flav_names g')); [|reflexivity].
  destruct (wf_outputs st Hwf _ Ho) as (fl & Hfl & Hfl_ne).
  apply belongs_to_spec in Hbel as (fl' & Hfl' & Hsub).
  rewrite Hfl in Hfl'. injection Hfl' as E; subst fl'.
  unfold NuFlavIntGroup_contains. rewrite Hfl. cbn [result_bind]. f_equal.
  destruct (forallb (has_flavint g') fl) eqn:E; [|reflexivity].
  exfalso. apply Hne. rewrite List.forallb_forall in E.
  destruct fl as [|k fl]; [congruence|].
  apply (partition_disjoint _ (wf_partition st Hwf) g' g k Hg' Hg).
  - apply has_flavint_In, E. now left.
  - apply Hsub. now left.
Qed.

Lemma In_with_addresses_group (base : nat) (groups : list NuFlavIntGroup)
    (a : addr) (g : NuFlavIntGroup) :
  In (a, g) (with_addresses base groups) -> In g groups.
Proof. unfold with_addresses. apply List.in_combine_r. Qed.

Lemma filter_none (A : Type) (P : A -> bool) (l : list A) :
  (forall x, In x l -> P x = false) -> List.filter P l = [].
Proof.
  induction l as [|x l IH]; intros H; cbn; [reflexivity|].
  rewrite (H x) by now left. apply IH. intros y Hy. apply H. now right.
Qed.

Lemma filter_all (A : Type) (P : A -> bool) (l : list A) :
  (forall x, In x l -> P x = true) -> List.filter P l = l.
Proof.
  induction l as [|x l IH]; intros H; cbn; [reflexivity|].
  rewrite (H x) by now left. f_equal. apply IH. intros y Hy. apply H. now right.
Qed.

(** Among the transforms of all the groups, a test that holds of the
    transforms of one group and of no other selects those of that group. *)
Lemma filter_flat_map_position (T : Type) (P : T -> bool)
    (F : addr * NuFlavIntGroup -> list T) (groups : list NuFlavIntGroup) (g : NuFlavIntGroup) :
  (forall a t, In t (F (a, g)) -> P t = true) ->
  (forall a g' t, In g' groups -> g' <> g -> In t (F (a, g')) -> P t = false) ->
  NoDup groups ->
  forall base i, groups !! i = Some g ->
    List.filter P (List.flat_map F (with_addresses base groups)) = F (base + i, g).
Proof.
  intros Hown Hother Hnd. unfold with_addresses.
  induction Hnd as [|g0 groups Hg0 Hnd IH]; intros base [|i] Hi; try discriminate.
  - cbn in Hi. injection Hi as ->. cbn [List.length seq combine List.flat_map].
    rewrite List.filter_app, (filter_all _ P (F (base, g)) (Hown base)).
    rewrite filter_none; [rewrite List.app_nil_r; f_equal; f_equal; lia|].
    intros t Ht. apply List.in_flat_map in Ht as ([a g'] & Hag & Ht).
    apply List.in_combine_r in Hag.
    apply (Hother a g' t); [now right | | assumption].
    intros ->. now apply Hg0, list_elem_of_In.
  - cbn in Hi. cbn [List.length seq combine List.flat_map].
    rewrite List.filter_app. rewrite filter_none.
    + cbn [List.app]. replace (base + S i) with (S base + i) by lia.
      apply IH; [|assumption]. intros a g' t Hg'. apply Hother. now right.
    + intros t Ht. apply (Hother base g0 t); [now left | | assumption].
      intros ->. apply Hg0. apply list_elem_of_lookup. now exists i.
Qed.

Lemma matched_selects_group (w : world) (base : nat) :
  rescale_ready w base ->
  forall i g, transform_groups (self w) !! i = Some g ->
    List.filter (matched g) (nominal_transforms (self w))
    = assembled (self w) g (base + i).
Proof.
  intros [Hcache Hwf _] i g Hi. rewrite Hcache.
  assert (Hg : In g (transform_groups (self w))).
  { apply list_elem_of_In, list_elem_of_lookup. now exists i. }
  apply (filter_flat_map_position _ (matched g)
           (fun ag => assembled (self w) (snd ag) (fst ag))).
  - intros a t Ht. unfold matched.
    now rewrite (matches_own_group (self w) g a t Hwf Hg Ht).
  - intros a g' t Hg' Hne Ht. unfold matched.
    rewrite (matches_other_group (self w) g' g a t Hwf Hg' Hg); [reflexivity| |assumption].
    congruence.
  - apply (partition_NoDup _ (wf_partition _ Hwf)).
  - assumption.
Qed.

Lemma groups_ready (w : world) (base : nat) :
  rescale_ready w base ->
  Forall (group_ready (heap w) (nominal_transforms (self w))) (transform_groups (self w)).
Proof.
  intros Hready. pose proof Hready as [Hcache Hwf Harrays].
  apply List.Forall_forall. intros g Hg. split; [|split].
  - now apply (partition_nonempty _ (wf_partition _ Hwf)).
  - apply List.Forall_forall. intros t Ht. rewrite Hcache in Ht.
    apply List.in_flat_map in Ht as ([a g'] & Hag & Ht). cbn [fst snd] in Ht.
    apply In_with_addresses_group in Hag.
    destruct (decide (g = g')) as [->|Hne].
    + exists true. now apply (matches_own_group (self w) g' a).
    + exists false. now apply (matches_other_group (self w) g' g a).
  - intros first rest E. apply Harrays.
    assert (Hin : In first (List.filter (matched g) (nominal_transforms (self w))))
      by (rewrite E; now left).
    now apply List.filter_In in Hin.
Qed.

(** What the rescale phase returns on a stage that is ready for it. *)
Lemma rescale_ok (w : world) (base : nat) :
  let st := self w in
  let k := m_as (aeff_scale (params st)) "dimensionless" in
  let l := m_as (livetime (params st)) "sec" in
  rescale_ready w base ->
  exists outs w',
    _compute_transforms w = (OK (List.concat outs), w')
    /\ self w' = self w
    /\ (exists e, heap w' = heap w ++ e)
    /\ Forall2 (group_rescaled st k l (heap w) (heap w') (nominal_transforms st))
         (transform_groups st) outs.
Proof.
  cbv zeta. intros Hready.
  unfold _compute_transforms, bind, get_self.
  apply (rescale_groups_ok _ _ (heap w) (nominal_transforms (self w))).
  - reflexivity.
  - exists []. now rewrite List.app_nil_r.
  - now apply (groups_ready w base).
Qed.

Lemma map_flat_map_comm (A B D : Type) (f : B -> D) (g : A -> list B) (l : list A) :
  List.map f (List.flat_map g l) = List.flat_map (fun x => List.map f (g x)) l.
Proof.
  induction l as [|x l IH]; cbn; [reflexivity|]. now rewrite List.map_app, IH.
Qed.

Lemma tags_of_assembled (st : hist) (g : NuFlavIntGroup) (a : addr) :
  List.map (fun t => tags (retag st 0 t)) (assembled st g a)
  = List.map tags (assembled st g 0).
Proof.
  unfold assembled, merged_transforms, unmerged_transforms, retag.
  destruct (sum_grouped_flavints st).
  - now rewrite !List.map_map.
  - rewrite !map_flat_map_comm. apply List.flat_map_ext. intros i.
    now rewrite !List.map_map.
Qed.

Lemma tags_of_assembled_any (st : hist) (g : NuFlavIntGroup) (a : addr) :
  List.map tags (assembled st g a) = List.map tags (assembled st g 0).
Proof.
  unfold assembled, merged_transforms, unmerged_transforms.
  destruct (sum_grouped_flavints st).
  - now rewrite !List.map_map.
  - rewrite !map_flat_map_comm. apply List.flat_map_ext. intros i.
    now rewrite !List.map_map.
Qed.

Lemma tags_of_rescaled (st : hist) (k l : float) (h0 hf : store)
    (ts : list BinnedTensorTransform) (groups : list NuFlavIntGroup)
    (outs : list (list BinnedTensorTransform)) :
  Forall2 (group_rescaled st k l h0 hf ts) groups outs ->
  List.map tags (List.concat outs)
  = List.flat_map (fun g => List.map (fun t => tags (retag st 0 t))
                              (List.filter (matched g) ts)) groups.
Proof.
  induction 1 as [|g out groups outs (a & -> & _) _ IH]; cbn; [reflexivity|].
  rewrite List.map_app, IH. f_equal. now rewrite List.map_map.
Qed.

Lemma tags_of_cache (st : hist) (sel : NuFlavIntGroup -> list BinnedTensorTransform)
    (groups : list NuFlavIntGroup) :
  forall base,
    (forall i g, groups !! i = Some g -> sel g = assembled st g (base + i)) ->
    List.flat_map (fun g => List.map (fun t => tags (retag st 0 t)) (sel g)) groups
    = List.map tags (List.flat_map (fun ag => assembled st (snd ag) (fst ag))
                       (with_addresses base groups)).
Proof.
  unfold with_addresses. induction groups as [|g groups IH]; intros base Hsel;
    [reflexivity|].
  cbn [List.flat_map List.length seq combine fst snd].
  rewrite List.map_app, <- (IH (S base)).
  - f_equal. rewrite (Hsel 0 g eq_refl), tags_of_assembled.
    symmetry. apply tags_of_assembled_any.
  - intros i g' Hi. rewrite (Hsel (S i) g' Hi). f_equal. lia.
Qed.

(** The special channels are the two names of line 297. *)
Lemma is_special_channel_names (o : string) :
  is_special_channel o = String.eqb o "nutau_cc" || String.eqb o "nutaubar_cc".
Proof. unfold is_special_channel, str_in. cbn. now rewrite orb_false_r. Qed.

(** C1, as the code has it. On a stage that is ready for the rescale phase,
    the phase returns, and for every category group and every nominal
    transform emitted for it there is an emitted transform with the same
    input names and output name whose array is the nominal array times
    (aeff_scale times the livetime in seconds) and, if and only if the output
    name is 'nutau_cc' or 'nutaubar_cc', times nutau_cc_norm as well --
    provided the transforms of the group agree on whether their output name
    is one of these two channels. (The array is computed once per group, from
    the first of its transforms.) *)
Theorem rescaled_array_of_each_nominal_transform (w : world) (base : nat) :
  let st := self w in
  let k := m_as (aeff_scale (params st)) "dimensionless" in
  let l := m_as (livetime (params st)) "sec" in
  let norm := magnitude (nutau_cc_norm (params st)) in
  let special o := String.eqb o "nutau_cc" || String.eqb o "nutaubar_cc" in
  rescale_ready w base ->
  exists out w',
    _compute_transforms w = (OK out, w')
    /\ forall i g,
         transform_groups st !! i = Some g ->
         forall t, In t (assembled st g (base + i)) ->
           (forall t2, In t2 (assembled st g (base + i)) ->
              special (xf_output_name t2) = special (xf_output_name t)) ->
           forall A, heap w !! xform_array t = Some A ->
             exists t', In t' out
               /\ xf_input_names t' = xf_input_names t
               /\ xf_output_name t' = xf_output_name t
               /\ heap w' !! xform_array t'
                  = Some (if special (xf_output_name t)
                          then ndarray_mul_scalar
                                 (ndarray_mul_scalar A (PrimFloat.mul k l)) norm
                          else ndarray_mul_scalar A (PrimFloat.mul k l)).
Proof.
  cbv zeta. intros Hready.
  destruct (rescale_ok w base Hready) as (outs & w' & Hrun & Hself & _ & Hall).
  exists (List.concat outs), w'. split; [exact Hrun|].
  intros i g Hi t Ht Hagree A HA.
  destruct (Forall2_lookup_l _ _ _ i g Hall Hi) as (out & Hout & a & -> & Hfirst).
  rewrite (matched_selects_group w base Hready i g Hi) in Hfirst.
  destruct (assembled (self w) g (base + i)) as [|first rest] eqn:E; [destruct Ht|].
  destruct (Hfirst first rest eq_refl) as (_ & A' & HA' & Hget).
  assert (Hsame : xform_array first = xform_array t).
  { rewrite <- E in Ht.
    rewrite (assembled_array (self w) g (base + i) t Ht).
    apply (assembled_array (self w) g (base + i)). rewrite E. now left. }
  rewrite Hsame, HA in HA'. injection HA' as <-.
  exists (retag (self w) a t). split; [|split; [reflexivity|split; [reflexivity|]]].
  - apply List.in_concat. eexists. split.
    + apply list_elem_of_In, list_elem_of_lookup. exists i. exact Hout.
    + rewrite (matched_selects_group w base Hready i g Hi), E.
      now apply List.in_map.
  - cbn [xform_array retag]. rewrite Hget. unfold rescaled.
    now rewrite is_special_channel_names, (Hagree first (or_introl eq_refl)).
Qed.

(** C8. The rescale phase changes no array: whatever it does, the store it
    leaves is the store it found with new arrays added at new addresses, so
    every array of the nominal transform set is, element by element, what it
    was; the stage and the log are untouched. On a stage that is ready for
    the phase it returns, every emitted transform holds an array at an
    address that did not exist before, hence the array of no nominal
    transform, and the emitted set carries, transform by transform, the input
    names, output name, binnings and summing flag of the nominal set. *)
Theorem rescale_never_touches_the_nominal_arrays (w : world) :
  (exists extra,
      snd (_compute_transforms w) = mkWorld (self w) (heap w ++ extra) (calls w))
  /\ (forall t A, In t (nominal_transforms (self w)) ->
        heap w !! xform_array t = Some A ->
        heap (snd (_compute_transforms w)) !! xform_array t = Some A)
  /\ (forall base, rescale_ready w base ->
      exists out w',
        _compute_transforms w = (OK out, w')
        /\ (forall t', In t' out ->
              List.length (heap w) <= xform_array t'
              /\ is_Some (heap w' !! xform_array t')
              /\ forall t, In t (nominal_transforms (self w)) ->
                   xform_array t' <> xform_array t)
        /\ List.map tags out = List.map tags (nominal_transforms (self w))).
Proof.
  destruct (only_allocates_compute_transforms w) as [extra Hextra].
  split; [now exists extra|]. split.
  { intros t A _ HA. rewrite Hextra. cbn [heap]. now apply lookup_app_l_Some. }
  intros base Hready.
  destruct (rescale_ok w base Hready) as (outs & w' & Hrun & Hself & _ & Hall).
  exists (List.concat outs), w'. split; [exact Hrun|]. split.
  - intros t' Ht'. apply List.in_concat in Ht' as (out & Hout & Ht').
    apply list_elem_of_In, list_elem_of_lookup in Hout as [i Hout].
    destruct (Forall2_lookup_r _ _ _ i out Hall Hout) as (g & Hg & a & -> & Hfirst).
    apply List.in_map_iff in Ht' as (t0 & <- & Ht0). cbn [xform_array retag].
    destruct (List.filter (matched g) (nominal_transforms (self w))) as [|first rest];
      [destruct Ht0|].
    destruct (Hfirst first rest eq_refl) as (Hle & A & _ & Hget).
    split; [assumption|]. split; [now rewrite Hget|].
    intros t Ht E. apply (ready_arrays w base Hready) in Ht.
    apply lookup_lt_is_Some in Ht. lia.
  - rewrite (tags_of_rescaled _ _ _ _ _ _ _ _ Hall).
    etransitivity.
    + apply (tags_of_cache (self w)
               (fun g => List.filter (matched g) (nominal_transforms (self w))) _ base).
      intros i g Hi. now apply matched_selects_group.
    + now rewrite <- (ready_cache w base Hready).
Qed.

(** Disjointness of concrete groups can be decided. *)
Lemma disjoint_by_decision (groups : list NuFlavIntGroup) :
  Forall (fun g1 => Forall (fun g2 => Forall (fun k => k ∈ g2 -> g1 = g2) g1) groups) groups ->
  forall g1 g2 k, In g1 groups -> In g2 groups -> In k g1 -> In k g2 -> g1 = g2.
Proof.
  intros H g1 g2 k H1 H2 Hk1 Hk2.
  rewrite List.Forall_forall in H. specialize (H g1 H1).
  rewrite List.Forall_forall in H. specialize (H g2 H2).
  rewrite List.Forall_forall in H. apply (H k Hk1). now apply list_elem_of_In.
Qed.

(** ** Deciding readiness: on a concrete stage the conditions above can be
    checked by evaluating boolean functions. *)

Lemma is_OK_returns (A : Type) (r : result A) : is_OK r = true -> returns r.
Proof. destruct r as [a|e]; [now exists a | discriminate]. Qed.

Lemma names_parse_check (names : list string) :
  forallb (fun n => is_OK (NuFlavIntGroup_new n)) names = true -> names_parse names.
Proof.
  rewrite List.forallb_forall. intros H. apply List.Forall_forall.
  intros n Hn. now apply is_OK_returns, H.
Qed.

Lemma nominal_ready_check_sound (w : world) :
  nominal_ready_check w = true ->
  exists ev, events (self (snd (load_events w))) = Some ev /\ nominal_ready w ev.
Proof.
  unfold nominal_ready_check.
  destruct (load_events w) as [[[]|e] w1] eqn:Hload; [|discriminate].
  destruct (events (self w1)) as [ev|] eqn:Hev; [|discriminate].
  rewrite !andb_true_iff. intros (((((He & Hd) & Hi) & Ho) & Hs) & Hb).
  exists ev. split; [exact Hev|]. split.
  - now exists w1.
  - exact He.
  - rewrite List.forallb_forall in Hd. intros n Hn. now apply str_in_In, Hd.
  - now apply names_parse_check.
  - now apply names_parse_check.
  - rewrite List.forallb_forall in Hs. apply List.Forall_forall.
    intros g Hg. now apply Nat.eqb_eq, Hs.
  - exact (bool_decide_eq_true_1 _ Hb).
Qed.

Lemma groups_partition_check_sound (groups : list NuFlavIntGroup) :
  groups_partition_check groups = true -> groups_partition groups.
Proof.
  unfold groups_partition_check. rewrite !andb_true_iff. intros [[Hne Hnd] Hdis].
  split.
  - rewrite List.forallb_forall in Hne. intros g Hg E. apply Hne in Hg.
    now rewrite E in Hg.
  - now apply bool_decide_eq_true in Hnd.
  - apply disjoint_by_decision. now apply bool_decide_eq_true in Hdis.
Qed.

Lemma NuFlav_eqb_eq (a b : NuFlav) : NuFlav_eqb a b = true -> a = b.
Proof. destruct a, b; cbn; congruence. Qed.

Lemma stage_well_formed_check_sound (st : hist) :
  stage_well_formed_check st = true -> stage_well_formed st.
Proof.
  unfold stage_well_formed_check. rewrite !andb_true_iff.
  intros (((Hp & Ho) & Hi) & Hf). split.
  - now apply groups_partition_check_sound.
  - rewrite List.forallb_forall in Ho. intros o Hin. apply Ho in Hin.
    unfold output_check in Hin.
    destruct (NuFlavIntGroup_new o) as [[|k fl]|e]; try discriminate.
    now exists (k :: fl).
  - rewrite List.forallb_forall in Hi. intros n Hin. apply Hi in Hin.
    unfold input_check in Hin. apply List.existsb_exists in Hin as (f & _ & Hf').
    apply andb_true_iff in Hf' as [Hn Hfl]. apply String.eqb_eq in Hn.
    destruct (NuFlavIntGroup_new n) as [fl|e] eqn:E; [|discriminate].
    exists f, fl. repeat split; try assumption.
    rewrite List.forallb_forall in Hfl. intros k Hk. now apply NuFlav_eqb_eq, Hfl.
  - intros Hsum g Hg. rewrite Hsum in Hf. cbn in Hf.
    rewrite List.forallb_forall in Hf. apply Hf in Hg.
    apply List.existsb_exists in Hg as (n & Hn & Hint). now exists n.
Qed.

Lemma rescale_ready_check_sound (w : world) (base : nat) :
  nominal_transforms (self w)
  = List.flat_map (fun ag => assembled (self w) (snd ag) (fst ag))
      (with_addresses base (transform_groups (self w))) ->
  stage_well_formed_check (self w) = true ->
  arrays_check w = true ->
  rescale_ready w base.
Proof.
  intros Hcache Hwf Harr. split.
  - exact Hcache.
  - now apply stage_well_formed_check_sound.
  - unfold arrays_check in Harr. rewrite List.forallb_forall in Harr.
    intros t Ht. apply Harr in Ht. destruct (heap w !! xform_array t); [eauto|discriminate].
Qed.

(** ** The constructor and the names *)

Lemma split_commas_nonempty (s : string) : split_commas s <> [].
Proof.
  destruct s as [|c s]; cbn; [discriminate|].
  destruct (Ascii.eqb c ","); [discriminate|].
  destruct (split_commas s); discriminate.
Qed.

Lemma join_split_commas (s : string) : join_commas (split_commas s) = s.
Proof.
  induction s as [|c s IH]; cbn; [reflexivity|].
  destruct (Ascii.eqb c ",") eqn:E.
  - apply Ascii.eqb_eq in E. subst c.
    pose proof (split_commas_nonempty s) as Hne.
    cbn [join_commas]. destruct (split_commas s) as [|h t]; [contradiction|].
    cbn. now rewrite <- IH.
  - pose proof (split_commas_nonempty s) as Hne.
    destruct (split_commas s) as [|h t]; [contradiction|].
    rewrite <- IH. destruct t; reflexivity.
Qed.

Lemma has_char_cons (c d : ascii) (s : string) :
  has_char c (String d s) = Ascii.eqb c d || has_char c s.
Proof. reflexivity. Qed.

Lemma split_commas_chars (c : ascii) (s : string) :
  has_char c s = false ->
  forall n, In n (split_commas s) -> has_char c n = false.
Proof.
  induction s as [|d s IH]; cbn [split_commas].
  - intros _ n [<-|[]]. reflexivity.
  - rewrite has_char_cons. intros H. apply orb_false_iff in H as [Hd Hs].
    specialize (IH Hs). destruct (Ascii.eqb d ",").
    + intros n [<-|Hn]; [reflexivity | now apply IH].
    + pose proof (split_commas_nonempty s) as Hne.
      destruct (split_commas s) as [|h t]; [contradiction|].
      intros n [<-|Hn].
      * rewrite has_char_cons, Hd. apply IH. now left.
      * apply IH. now right.
Qed.

Lemma split_commas_no_comma (s : string) :
  forall n, In n (split_commas s) -> has_char "," n = false.
Proof.
  induction s as [|d s IH]; cbn [split_commas].
  - intros n [<-|[]]. reflexivity.
  - destruct (Ascii.eqb d ",") eqn:E.
    + intros n [<-|Hn]; [reflexivity | now apply IH].
    + pose proof (split_commas_nonempty s) as Hne.
      destruct (split_commas s) as [|h t]; [contradiction|].
      intros n [<-|Hn].
      * rewrite has_char_cons. rewrite Ascii.eqb_sym, E. apply IH. now left.
      * apply IH. now right.
Qed.

Lemma remove_spaces_chars (s : string) :
  list_ascii_of_string (remove_spaces s)
  = List.filter (fun c => negb (Ascii.eqb c " ")) (list_ascii_of_string s).
Proof.
  induction s as [|c s IH]; cbn; [reflexivity|].
  destruct (Ascii.eqb c " "); cbn; now rewrite IH.
Qed.

Lemma remove_spaces_no_space (s : string) : has_char " " (remove_spaces s) = false.
Proof.
  induction s as [|c s IH]; cbn [remove_spaces]; [reflexivity|].
  destruct (Ascii.eqb c " ") eqn:E; [assumption|].
  rewrite has_char_cons, Ascii.eqb_sym, E. exact IH.
Qed.

(** The input names given as one string: the string is cut at its commas
    after its spaces have been dropped. There is at least one name, no name
    holds a space or a comma, and the names joined by commas are the string
    without its spaces. The stage that is built declares these names. *)
Theorem input_names_string_is_split (a : init_args) (s : string) :
  arg_input_names a = NamesString s ->
  exists names,
    init_input_names a = Some names
    /\ names <> []
    /\ (forall n, In n names -> has_char " " n = false /\ has_char "," n = false)
    /\ list_ascii_of_string (join_commas names)
       = List.filter (fun c => negb (Ascii.eqb c " ")) (list_ascii_of_string s)
    /\ forall st, __init__ a = OK st -> input_names st = names.
Proof.
  intros Hs. exists (split_commas (remove_spaces s)).
  assert (Hin : init_input_names a = Some (split_commas (remove_spaces s)))
    by (unfold init_input_names; now rewrite Hs).
  split; [exact Hin|]. split; [apply split_commas_nonempty|]. split; [|split].
  - intros n Hn. split.
    + exact (split_commas_chars " " _ (remove_spaces_no_space s) n Hn).
    + exact (split_commas_no_comma _ n Hn).
  - rewrite join_split_commas. apply remove_spaces_chars.
  - intros st. unfold __init__. rewrite Hin.
    destruct (negb _); [discriminate|].
    destruct (flavintGroupsFromString _) as [groups|]; cbn [result_bind]; [|discriminate].
    destruct (init_output_names _ _ _) as [[outs|]|]; cbn [result_bind]; try discriminate.
    cbn. intros H. injection H as <-. reflexivity.
Qed.

Lemma NuFlavIntGroup_of_names_spec (names : list string) :
  forall fl, NuFlavIntGroup_of_names names = OK fl ->
    names_parse names
    /\ (exists P, fl = List.filter P ALL_NUFLAVINTS)
    /\ forall k, In k fl <-> exists n ks, In n names /\ NuFlavIntGroup_new n = OK ks /\ In k ks.
Proof.
  induction names as [|n names IH]; cbn [NuFlavIntGroup_of_names]; intros fl H.
  - injection H as <-. split; [constructor|]. split.
    + exists (fun _ => false). reflexivity.
    + intros k. split; [intros [] | intros (n & ks & [] & _)].
  - destruct (NuFlavIntGroup_new n) as [k0|e] eqn:En; cbn [result_bind] in H; [|discriminate].
    destruct (NuFlavIntGroup_of_names names) as [ks|e] eqn:Eks; cbn [result_bind] in H;
      [|discriminate].
    assert (Efl : fl = List.filter (fun x => has_flavint k0 x || has_flavint ks x)
                         ALL_NUFLAVINTS) by congruence.
    clear H. subst fl. destruct (IH ks eq_refl) as (Hparse & _ & Hks).
    split; [constructor; [now exists k0 | assumption]|]. split; [eexists; reflexivity|].
    intros k. rewrite List.filter_In, orb_true_iff, !has_flavint_In, Hks.
    pose proof (In_ALL_NUFLAVINTS k). split.
    + intros (_ & [Hk|(n' & ks' & Hn' & Hnew & Hk)]).
      * exists n, k0. split; [now left | now split].
      * exists n', ks'. split; [now right | now split].
    + intros (n' & ks' & [<-|Hn'] & Hnew & Hk); (split; [assumption|]).
      * left. rewrite En in Hnew. now injection Hnew as <-.
      * right. now exists n', ks'.
Qed.

Lemma NoDup_map_filter (A B : Type) (f : A -> B) (P : A -> bool) (l : list A) :
  NoDup (List.map f l) -> NoDup (List.map f (List.filter P l)).
Proof.
  induction l as [|x l IH]; cbn; [trivial|].
  rewrite NoDup_cons. intros [Hx Hl]. destruct (P x); cbn; [|now apply IH].
  apply NoDup_cons. split; [|now apply IH].
  rewrite list_elem_of_In, List.in_map_iff. intros (y & E & Hy).
  apply Hx. rewrite list_elem_of_In, List.in_map_iff. exists y. split; [assumption|].
  now apply List.filter_In in Hy as [Hy _].
Qed.

Lemma NoDup_category_names : NoDup (List.map str_NuFlavInt ALL_NUFLAVINTS).
Proof. apply (bool_decide_unpack _). vm_compute. exact I. Qed.

(** In unmerged mode the constructor derives the output names from the input
    names: they are the names of the categories that the input names denote,
    each category once. *)
Theorem init_unmerged_output_names (a : init_args) (st : hist) :
  __init__ a = OK st -> arg_sum_grouped_flavints a = false ->
  sum_grouped_flavints st = false
  /\ exists fl,
       NuFlavIntGroup_of_names (input_names st) = OK fl
       /\ output_names st = List.map str_NuFlavInt fl
       /\ NoDup (output_names st)
       /\ forall k, In k fl <->
            exists n ks, In n (input_names st) /\ NuFlavIntGroup_new n = OK ks /\ In k ks.
Proof.
  unfold __init__, init_output_names, Stage_init. intros H Hsum.
  destruct (negb _); [discriminate|].
  destruct (flavintGroupsFromString _) as [groups|]; cbn [result_bind] in H; [|discriminate].
  destruct (String.eqb (arg_particles a) "neutrinos"); cbn [result_bind] in H; [|discriminate].
  rewrite Hsum in H.
  destruct (init_input_names a) as [ins|]; cbn [default] in H; unfold id in H.
  - destruct (NuFlavIntGroup_of_names ins) as [fl|e] eqn:Efl; cbn [result_bind] in H;
      [|discriminate].
    cbv beta iota in H. injection H as <-. cbn. split; [reflexivity|]. exists fl.
    destruct (NuFlavIntGroup_of_names_spec ins fl Efl) as (_ & (P & ->) & Hk).
    split; [assumption|]. split; [reflexivity|]. split; [|assumption].
    apply NoDup_map_filter, NoDup_category_names.
  - destruct (NuFlavIntGroup_of_names []); cbn [result_bind] in H; discriminate.
Qed.

(** A stage that has just been constructed holds no hash, so that its first
    [load_events] goes to the event container, whatever the weight file. *)
Theorem new_stage_loads_events_first (a : init_args) (st : hist) (h : store)
    (log : list call) :
  __init__ a = OK st ->
  events_hash st = None
  /\ calls (snd (load_events (mkWorld st h log)))
     = log ++ [LoadEvents (hash_obj (aeff_weight_file (arg_params a)))].
Proof.
  unfold __init__, Stage_init. intros H.
  destruct (negb _); [discriminate|].
  destruct (flavintGroupsFromString _) as [groups|]; cbn [result_bind] in H; [|discriminate].
  destruct (init_output_names _ _ _) as [[outs|]|]; cbn [result_bind] in H; try discriminate.
  destruct (init_input_names a) as [ins|]; [|discriminate].
  injection H as <-. split; [reflexivity|].
  unfold load_events. cbn [self params events_hash aeff_weight_file].
  rewrite decide_False by discriminate.
  destruct (Events_new _); reflexivity.
Qed.

(** [load_events] right after a [load_events] that returned does nothing. A
    [load_events] that raised has left the stage as it was, so that the next
    one goes to the event container again. *)
Theorem load_events_twice (w : world) :
  let this_hash := hash_obj (aeff_weight_file (params (self w))) in
  (forall w1, load_events w = (OK tt, w1) -> load_events w1 = (OK tt, w1))
  /\ (forall e w1, load_events w = (Raise e, w1) ->
        self w1 = self w
        /\ calls (snd (load_events w1))
           = calls w ++ [LoadEvents this_hash; LoadEvents this_hash]).
Proof.
  cbv zeta. split.
  - intros w1. unfold load_events at 1.
    destruct (decide _) as [E|E].
    + intros H. injection H as <-. unfold load_events. now rewrite decide_True.
    + destruct (Events_new _) as [ev|e]; [|discriminate].
      intros H. injection H as <-. unfold load_events.
      cbn [self with_self set_events params events_hash]. now rewrite decide_True.
  - intros e w1. unfold load_events at 1.
    destruct (decide _) as [E|E]; [discriminate|].
    destruct (Events_new _) as [ev|e'] eqn:Eev; [discriminate|].
    intros H. injection H as <- <-. split; [reflexivity|]. unfold load_events.
    cbn [self log_call params events_hash]. rewrite decide_False by assumption.
    rewrite Eev. unfold log_call. cbn [snd self heap calls].
    now rewrite <- List.app_assoc.
Qed.

(** ** What the nominal computation leaves behind, whatever happens *)

Lemma compute_aeff_frame (edges : list (list float)) (ib : MultiDimBinning.t) (mdv : float)
    (g : NuFlavIntGroup) (w : world) :
  (exists e, compute_aeff edges ib mdv g w = (Raise e, w))
  \/ (exists r a,
        compute_aeff edges ib mdv g w
        = (r, mkWorld (self w) (heap w ++ [a]) (calls w ++ [Histogram g]))).
Proof.
  unfold compute_aeff, bind, get_self.
  destruct (events (self w)) as [ev|]; [|left; now eexists].
  right. unfold log, alloc, idiv, log_call, with_heap, ret. cbn [self heap calls].
  rewrite list_lookup_middle by reflexivity.
  destruct (in_place_div _ _ _ _) as [q|e].
  - eexists _, _. rewrite insert_app_r_alt by reflexivity. rewrite Nat.sub_diag.
    cbn [insert list_insert]. reflexivity.
  - eexists _, _. reflexivity.
Qed.

Lemma nominal_loop_frame (edges : list (list float)) (ib : MultiDimBinning.t) (mdv : float)
    (groups : list NuFlavIntGroup) :
  forall (w : world) r w',
    nominal_loop edges ib mdv groups w = (r, w') ->
    exists n extra,
      n <= List.length groups /\ List.length extra = n
      /\ w' = mkWorld (self w) (heap w ++ extra)
                (calls w ++ List.map Histogram (firstn n groups))
      /\ (returns r -> n = List.length groups).
Proof.
  induction groups as [|g groups IH]; intros w r w' Hrun.
  - cbn in Hrun. injection Hrun as <- <-. exists 0, []. cbn. rewrite !List.app_nil_r.
    repeat split; trivial. now destruct w.
  - cbn [nominal_loop] in Hrun. unfold bind at 1 in Hrun.
    destruct (compute_aeff_frame edges ib mdv g w) as [(e & H)|(r0 & a & H)];
      rewrite H in Hrun.
    + injection Hrun as <- <-. exists 0, []. cbn. rewrite !List.app_nil_r.
      repeat split; try lia; [now destruct w|]. intros [x Hx]. discriminate.
    + destruct r0 as [p|e].
      * unfold bind at 1, get_self at 1 in Hrun. unfold bind at 1, lift at 1 in Hrun.
        destruct (assemble _ g p) as [xs|e].
        -- unfold bind at 1 in Hrun. set (w1 := mkWorld _ _ _) in Hrun.
           destruct (nominal_loop edges ib mdv groups w1) as [r1 w2] eqn:Hrest.
           destruct (IH w1 r1 w2 Hrest) as (n & extra & Hn & Hlen & Hsnd & Hret).
           exists (S n), (a :: extra). split; [cbn; lia|]. split; [cbn; lia|].
           assert (Hw2 : w2 = mkWorld (self w) (heap w ++ a :: extra)
                               (calls w ++ List.map Histogram (firstn (S n) (g :: groups)))).
           { rewrite Hsnd. subst w1. cbn [self heap calls firstn List.map].
             now rewrite <- !List.app_assoc. }
           destruct r1 as [r1|e]; unfold ret in Hrun; injection Hrun as <- <-.
           ++ split; [exact Hw2|]. intros _. cbn. f_equal. apply Hret. now eexists.
           ++ split; [exact Hw2|]. intros [x Hx]. discriminate.
        -- injection Hrun as <- <-. exists 1, [a]. cbn. repeat split; try lia.
           intros [x Hx]. discriminate.
      * injection Hrun as <- <-. exists 1, [a]. cbn. repeat split; try lia.
        intros [x Hx]. discriminate.
Qed.

Lemma validate_and_histogram_frame (w : world) r w' :
  validate_and_histogram w = (r, w') ->
  exists n extra,
    n <= List.length (transform_groups (self w)) /\ List.length extra = n
    /\ w' = mkWorld (self w) (heap w ++ extra)
              (calls w ++ List.map Histogram (firstn n (transform_groups (self w))))
    /\ (returns r -> n = List.length (transform_groups (self w))).
Proof.
  assert (Hstop : forall e, @raise _ TransformSet e w = (r, w') -> exists n extra,
    n <= List.length (transform_groups (self w)) /\ List.length extra = n
    /\ w' = mkWorld (self w) (heap w ++ extra)
              (calls w ++ List.map Histogram (firstn n (transform_groups (self w))))
    /\ (returns r -> n = List.length (transform_groups (self w)))).
  { intros e H. injection H as <- <-. exists 0, []. cbn. rewrite !List.app_nil_r.
    repeat split; try lia; [now destruct w|]. intros [x Hx]. discriminate. }
  unfold validate_and_histogram, bind, get_self.
  destruct (negb _); [apply Hstop|]. cbv zeta.
  destruct (_ <? _)%nat; [apply Hstop|].
  apply nominal_loop_frame.
Qed.

Lemma load_events_config (w : world) :
  let w1 := snd (load_events w) in
  heap w1 = heap w
  /\ transform_groups (self w1) = transform_groups (self w)
  /\ input_binning (self w1) = input_binning (self w)
  /\ output_binning (self w1) = output_binning (self w)
  /\ input_names (self w1) = input_names (self w)
  /\ output_names (self w1) = output_names (self w)
  /\ error_method (self w1) = error_method (self w)
  /\ sum_grouped_flavints (self w1) = sum_grouped_flavints (self w)
  /\ params (self w1) = params (self w)
  /\ nominal_transforms (self w1) = nominal_transforms (self w).
Proof.
  cbv zeta.
  destruct (load_events_cases w) as [H|[(ev & H)|(e & H)]]; rewrite H; cbn; repeat split.
Qed.

Lemma nominal_phase_frame (w : world) :
  let w1 := snd (load_events w) in
  let groups := transform_groups (self w) in
  exists n extra,
    n <= List.length groups /\ List.length extra = n
    /\ snd (_compute_nominal_transforms w)
       = mkWorld (self w1) (heap w ++ extra)
           (calls w1 ++ List.map Histogram (firstn n groups))
    /\ (returns (fst (_compute_nominal_transforms w)) -> n = List.length groups).
Proof.
  cbv zeta. destruct (load_events_config w) as (Hheap & Hgroups & _).
  unfold _compute_nominal_transforms, bind.
  destruct (load_events w) as [[[]|e] w1] eqn:Hload; cbn [snd] in *.
  - destruct (validate_and_histogram w1) as [r w'] eqn:Hrun.
    destruct (validate_and_histogram_frame w1 r w' Hrun)
      as (n & extra & Hn & Hlen & Hsnd & Hret).
    exists n, extra. rewrite <- Hheap, <- Hgroups. auto.
  - exists 0, []. cbn. rewrite !List.app_nil_r.
    repeat split; try lia; [rewrite <- Hheap; now destruct w1|].
    intros [x Hx]. discriminate.
Qed.

(** Whatever happens in it, the nominal computation changes no array that
    was in the store: it adds one array for each histogram it takes. It takes
    the histograms in the order of the groups, at most one per group, and one
    for every group when it returns. The stage it leaves is the stage
    [load_events] left: the computation itself sets no attribute. *)
Theorem nominal_phase_only_adds_arrays (w : world) :
  let w1 := snd (load_events w) in
  let groups := transform_groups (self w) in
  exists n extra,
    n <= List.length groups /\ List.length extra = n
    /\ snd (_compute_nominal_transforms w)
       = mkWorld (self w1) (heap w ++ extra)
           (calls w1 ++ List.map Histogram (firstn n groups))
    /\ (returns (fst (_compute_nominal_transforms w)) -> n = List.length groups)
    /\ forall p A, heap w !! p = Some A ->
         heap (snd (_compute_nominal_transforms w)) !! p = Some A.
Proof.
  cbv zeta. destruct (nominal_phase_frame w) as (n & extra & Hn & Hlen & Hsnd & Hret).
  exists n, extra. repeat split; try assumption.
  intros p A HA. rewrite Hsnd. cbn [heap]. now apply lookup_app_l_Some.
Qed.

(** ** The events and their hash *)

Lemma load_events_coherent (w : world) :
  events_coherent (self w) -> events_coherent (self (snd (load_events w))).
Proof.
  intros Hc. unfold load_events.
  destruct (decide _) as [_|_]; [exact Hc|].
  destruct (Events_new _) as [ev|e] eqn:Eev; cbn [snd]; [|exact Hc].
  intros h Hh. cbn in Hh. injection Hh as <-.
  exists (aeff_weight_file (params (self w))), ev. repeat split. exact Eev.
Qed.

(** The stage keeps its events and their hash together. A new stage holds no
    hash. From then on, whenever a hash is stored the stored events are those
    of a source with that hash: [load_events], the nominal computation, the
    storing of its result and the rescale phase all keep it so, whether they
    return or raise. So, after a [load_events] that returned, the events are
    there for the histograms. *)
Theorem events_and_hash_stay_together (w : world) :
  events_coherent (self w) ->
  events_coherent (self (snd (load_events w)))
  /\ events_coherent (self (snd (_compute_nominal_transforms w)))
  /\ events_coherent (self (snd (cache_nominal_transforms w)))
  /\ events_coherent (self (snd (_compute_transforms w)))
  /\ (fst (load_events w) = OK tt -> is_Some (events (self (snd (load_events w)))))
  /\ (forall a st, __init__ a = OK st -> events_coherent st).
Proof.
  intros Hc.
  assert (Hnom : events_coherent (self (snd (_compute_nominal_transforms w)))).
  { destruct (nominal_phase_frame w) as (n & extra & _ & _ & -> & _).
    cbn [self]. now apply load_events_coherent. }
  split; [now apply load_events_coherent|]. split; [exact Hnom|]. split; [|split; [|split]].
  - unfold cache_nominal_transforms.
    destruct (_compute_nominal_transforms w) as [[ts|e] w']; cbn [snd] in *; exact Hnom.
  - destruct (only_allocates_compute_transforms w) as (extra & ->). exact Hc.
  - unfold load_events. destruct (decide _) as [E|_]; cbn [fst snd].
    + intros _. destruct (Hc _ (eq_sym E)) as (src & ev & _ & _ & ->). now eexists.
    + destruct (Events_new _) as [ev|e]; cbn [fst snd]; [|discriminate].
      intros _. now eexists.
  - intros a st. unfold __init__, Stage_init. intros H.
    destruct (negb _); [discriminate|].
    destruct (flavintGroupsFromString _) as [groups|]; cbn [result_bind] in H; [|discriminate].
    destruct (init_output_names _ _ _) as [[outs|]|]; cbn [result_bind] in H; try discriminate.
    destruct (init_input_names a) as [ins|]; [|discriminate].
    injection H as <-. intros h Hh. discriminate.
Qed.

(** ** Names that denote nothing *)

Lemma intersects_nothing (g : NuFlavIntGroup) (n : string) :
  NuFlavIntGroup_new n = OK [] -> intersects_input g n = false.
Proof.
  intros Hn. unfold intersects_input, input_intersects. rewrite Hn. cbn [result_bind].
  destruct (set_intersection g []) as [|k l] eqn:E; [reflexivity|].
  assert (Hk : In k (set_intersection g [])) by (rewrite E; now left).
  apply In_set_intersection in Hk as [_ []].
Qed.

Lemma input_names_of_assembled (st : hist) (g : NuFlavIntGroup) (a : addr)
    (t : BinnedTensorTransform) (n : string) :
  In t (assembled st g a) -> In n (xf_input_names t) ->
  In n (input_names st) /\ intersects_input g n = true.
Proof.
  unfold assembled, merged_transforms, unmerged_transforms.
  destruct (sum_grouped_flavints st).
  - rewrite List.in_map_iff. intros (o & <- & _). cbn [xf_input_names].
    now rewrite List.filter_In.
  - rewrite List.in_flat_map. intros (i & Hi & Ht).
    apply List.in_map_iff in Ht as (o & <- & _). cbn [xf_input_names].
    intros [<-|[]]. now apply List.filter_In in Hi.
Qed.

(** An input name that denotes no categories makes nothing raise and feeds no
    transform: it meets no group, the nominal computation of a ready stage
    returns, and none of the transforms it returns lists the name among its
    input names. Every input name a transform does list is a declared one
    that meets the group of the transform. *)
Theorem input_name_without_categories_feeds_no_transform (w : world) (ev : Events)
    (n : string) :
  nominal_ready w ev ->
  NuFlavIntGroup_new n = OK [] ->
  (forall g, intersects_input g n = false)
  /\ exists ts w',
       _compute_nominal_transforms w = (OK ts, w')
       /\ (forall t, In t ts -> ~ In n (xf_input_names t))
       /\ (forall t m, In t ts -> In m (xf_input_names t) ->
             In m (input_names (self w))
             /\ exists g, In g (transform_groups (self w)) /\ intersects_input g m = true).
Proof.
  intros Hready Hn.
  assert (Hnone : forall g, intersects_input g n = false)
    by (intros g; now apply intersects_nothing).
  split; [exact Hnone|].
  destruct (nominal_ok w ev Hready) as (w1 & _ & Hrun).
  eexists _, _. split; [exact Hrun|].
  assert (Hall : forall t m,
            In t (List.flat_map (fun ag => assembled (self w) (snd ag) (fst ag))
                    (with_addresses (List.length (heap w)) (transform_groups (self w)))) ->
            In m (xf_input_names t) ->
            In m (input_names (self w))
            /\ exists g, In g (transform_groups (self w)) /\ intersects_input g m = true).
  { intros t m Ht Hm. apply List.in_flat_map in Ht as ([a g] & Hag & Ht).
    cbn [fst snd] in Ht.
    destruct (input_names_of_assembled _ _ _ _ _ Ht Hm) as [Hdecl Hmeet].
    split; [exact Hdecl|]. exists g. split; [|exact Hmeet].
    now apply In_with_addresses_group in Hag. }
  split; [|exact Hall].
  intros t Ht Hin. destruct (Hall t n Ht Hin) as (_ & g & _ & Hmeet).
  rewrite Hnone in Hmeet. discriminate.
Qed.

(** ** The message about extra dimensions *)

Lemma insert_sorted_ascending (x : string) (l : list string) :
  ascending l -> ascending (insert_sorted x l).
Proof.
  unfold ascending. induction 1 as [|y l Hl IH Hy]; cbn.
  - repeat constructor.
  - destruct (String.leb x y) eqn:E.
    + constructor; [now constructor | now constructor].
    + constructor; [exact IH|].
      assert (Hyx : String.leb y x = true)
        by (destruct (String.leb_total x y); congruence).
      destruct Hy as [|z l' Hz]; cbn; [now constructor|].
      destruct (String.leb x z); now constructor.
Qed.

Lemma sorted_ascending (l : list string) : ascending (sorted l).
Proof.
  unfold sorted. induction l as [|x l IH]; cbn; [constructor|].
  now apply insert_sorted_ascending.
Qed.

Lemma NoDup_insert_sorted (x : string) (l : list string) :
  ~ In x l -> NoDup l -> NoDup (insert_sorted x l).
Proof.
  intros Hx Hl. induction Hl as [|y l Hy Hl IH]; cbn.
  - apply NoDup_singleton.
  - destruct (String.leb x y).
    + apply NoDup_cons. split; [now rewrite list_elem_of_In|]. now apply NoDup_cons.
    + apply NoDup_cons. split.
      * rewrite list_elem_of_In, In_insert_sorted. intros [->|Hin].
        -- apply Hx. now left.
        -- now apply Hy, list_elem_of_In.
      * apply IH. intros Hin. apply Hx. now right.
Qed.

Lemma NoDup_sorted (l : list string) : NoDup l -> NoDup (sorted l).
Proof.
  unfold sorted. induction 1 as [|x l Hx Hl IH]; cbn; [constructor|].
  apply NoDup_insert_sorted; [|exact IH].
  fold (sorted l). rewrite In_sorted. now rewrite <- list_elem_of_In.
Qed.

(** When the input binning holds 'true_energy' and dimensions that are not
    recognised, and the events load, the ValueError lists every unrecognised
    dimension name once, in ascending order, however often and in whatever
    order the binning names them. *)
Theorem extra_dimensions_are_listed_once_in_order (w : world) :
  let b := input_binning (self w) in
  fst (load_events w) = OK tt ->
  MultiDimBinning.contains b "true_energy" = true ->
  (exists n, In n (MultiDimBinning.names b)
             /\ ~ In n ["true_energy"; "true_coszen"; "true_azimuth"]) ->
  exists dims,
    fst (_compute_nominal_transforms w) = Raise (ValueError (ExtraDimensions dims))
    /\ dims <> []
    /\ NoDup dims
    /\ ascending dims
    /\ forall n, In n dims
         <-> In n (MultiDimBinning.names b)
             /\ ~ In n ["true_energy"; "true_coszen"; "true_azimuth"].
Proof.
  cbv zeta. intros Hload Henergy Hextra.
  exists (sorted (excess_dims (input_binning (self w)))).
  rewrite (nominal_on_invalid_binning w (or_intror Hextra)), Hload, Henergy. cbn [fst].
  split; [reflexivity|].
  assert (Hin : forall n, In n (sorted (excess_dims (input_binning (self w))))
                  <-> In n (MultiDimBinning.names (input_binning (self w)))
                      /\ ~ In n ["true_energy"; "true_coszen"; "true_azimuth"])
    by (intros n; rewrite In_sorted; apply In_excess_dims).
  split; [|split; [|split; [apply sorted_ascending | exact Hin]]].
  - destruct Hextra as (n & Hn). apply Hin in Hn. intros E. rewrite E in Hn. destruct Hn.
  - apply NoDup_sorted. unfold excess_dims. apply NoDup_remove_dups.
Qed.

(** ** The nominal computation, twice *)

Lemma nominal_ready_again (w : world) (ev : Events) (h' : store) (log' : list call) :
  nominal_ready w ev ->
  let w' := mkWorld (self (snd (load_events w))) h' log' in
  load_events w' = (OK tt, w')
  /\ nominal_ready w' ev
  /\ (forall g a, assembled (self w') g a = assembled (self w) g a)
  /\ (forall g, nominal_array (self w') ev g = nominal_array (self w) ev g)
  /\ transform_groups (self w') = transform_groups (self w).
Proof.
  intros [(w1 & Hload & Hev) Henergy Hdims Hins Houts Hsizes Hshapes]. cbv zeta.
  rewrite Hload. cbn [snd]. revert Hload. unfold load_events at 1.
  destruct (decide _) as [E|E].
  - intros H. injection H as <-.
    assert (Hhit : load_events (mkWorld (self w) h' log') = (OK tt, mkWorld (self w) h' log'))
      by (unfold load_events; cbn [self]; now rewrite decide_True).
    split; [exact Hhit|]. split; [|now repeat split].
    constructor; try assumption. eexists. split; [exact Hhit | exact Hev].
  - destruct (Events_new _) as [ev'|e]; [|discriminate].
    intros H. injection H as <-. cbn [self with_self] in *.
    set (st' := set_events _ _ _) in *.
    assert (Hhit : load_events (mkWorld st' h' log') = (OK tt, mkWorld st' h' log'))
      by (unfold load_events; cbn [self]; now rewrite decide_True).
    split; [exact Hhit|]. split; [|now repeat split].
    constructor; try assumption. eexists. split; [exact Hhit | exact Hev].
Qed.

Lemma tags_of_all_assembled (st : hist) (groups : list NuFlavIntGroup) :
  forall base,
    List.map tags (List.flat_map (fun ag => assembled st (snd ag) (fst ag))
                     (with_addresses base groups))
    = List.flat_map (fun g => List.map tags (assembled st g 0)) groups.
Proof.
  unfold with_addresses. induction groups as [|g groups IH]; intros base; cbn; [reflexivity|].
  rewrite List.map_app, IH. f_equal. apply tags_of_assembled_any.
Qed.

(** Computing the nominal transforms a second time, with the weight file
    unchanged, loads no events but takes every histogram again: the log
    grows by one histogram call per group and by nothing else, the store by
    one array per group, and the transforms returned are those of the first
    time with new arrays that hold the same values. *)
Theorem nominal_phase_again_takes_the_histograms_again (w : world) (ev : Events) :
  nominal_ready w ev ->
  let groups := transform_groups (self w) in
  exists ts w1 ts' w2,
    _compute_nominal_transforms w = (OK ts, w1)
    /\ _compute_nominal_transforms w1 = (OK ts', w2)
    /\ self w2 = self w1
    /\ calls w2 = calls w1 ++ List.map Histogram groups
    /\ List.length (heap w2) = List.length (heap w1) + List.length groups
    /\ List.map tags ts' = List.map tags ts
    /\ forall i g, groups !! i = Some g ->
         exists A, heap w1 !! (List.length (heap w) + i) = Some A
                   /\ heap w2 !! (List.length (heap w1) + i) = Some A.
Proof.
  intros Hready. cbv zeta.
  destruct (nominal_ok w ev Hready) as (w0 & Hload & Hrun).
  set (w1 := mkWorld (self w0) _ _) in Hrun.
  destruct (nominal_ready_again w ev (heap w1) (calls w1) Hready)
    as (Hhit & Hready1 & Hasm & Harr & Hgroups).
  rewrite Hload in Hhit, Hready1, Hasm, Harr, Hgroups. cbn [snd] in *.
  change (mkWorld (self w0) (heap w1) (calls w1)) with w1 in *.
  destruct (nominal_ok w1 ev Hready1) as (w0' & Hload1 & Hrun1).
  rewrite Hhit in Hload1. injection Hload1 as <-.
  eexists _, w1, _, _. split; [exact Hrun|]. split; [exact Hrun1|].
  cbn [self calls heap]. split; [reflexivity|]. split; [now rewrite Hgroups|].
  split; [now rewrite List.length_app, List.length_map, Hgroups|]. split.
  - rewrite !tags_of_all_assembled, Hgroups. apply List.flat_map_ext.
    intros g. now rewrite Hasm.
  - intros i g Hg. exists (nominal_array (self w) ev g). split.
    + subst w1. cbn [heap]. rewrite lookup_app_r by lia.
      replace (List.length (heap w) + i - List.length (heap w)) with i by lia.
      now apply lookup_map.
    + rewrite lookup_app_r by lia.
      replace (List.length (heap w1) + i - List.length (heap w1)) with i by lia.
      rewrite Hgroups. rewrite <- Harr. now apply lookup_map.
Qed.

(** ** Groups and transforms the rescale phase cannot index *)

Lemma rescale_groups_empty_group (k l : float) (groups : list NuFlavIntGroup) :
  In [] groups -> forall w : world, exists e, fst (rescale_groups k l groups w) = Raise e.
Proof.
  induction groups as [|g groups IH]; intros Hin w; [destruct Hin|].
  cbn [rescale_groups]. destruct g as [|r g].
  - now exists IndexError.
  - destruct Hin as [Hin|Hin]; [discriminate|].
    unfold bind at 1, get_self at 1. unfold bind at 1.
    destruct (rescale_loop _ _ _ _ _ _ _) as [[xs|e] w1]; [|now exists e].
    unfold bind at 1. destruct (IH Hin w1) as (e & He).
    destruct (rescale_groups k l groups w1) as [[r'|e'] w2]; cbn [fst] in *;
      [discriminate | now exists e'].
Qed.

(** A group without categories cannot be rescaled: the phase reads the first
    category of every group, so it raises as soon as it comes to an empty
    group, whatever the groups before it gave -- at once, leaving the world
    as it was, when the empty group is the first. *)
Theorem empty_group_stops_the_rescale (w : world) :
  In [] (transform_groups (self w)) ->
  (exists e, fst (_compute_transforms w) = Raise e)
  /\ (forall rest, transform_groups (self w) = [] :: rest ->
        _compute_transforms w = (Raise IndexError, w)).
Proof.
  intros Hin. split.
  - unfold _compute_transforms, bind, get_self. now apply rescale_groups_empty_group.
  - intros rest E. unfold _compute_transforms, bind, get_self. now rewrite E.
Qed.

Lemma rescale_loop_index_error (g : NuFlavIntGroup) (names : list string) (k l : float)
    (ts : list BinnedTensorTransform) :
  Forall (fun t => returns (NuFlavIntGroup_new (xf_output_name t))) ts ->
  (exists t, In t ts /\ xf_input_names t = []) ->
  forall (cache : option addr) (w : world),
    (cache = None -> Forall (fun t => is_Some (heap w !! xform_array t)) ts) ->
    exists w', rescale_loop g names k l ts cache w = (Raise IndexError, w').
Proof.
  induction 1 as [|t ts Ht _ IH]; intros (t0 & Hin & Hempty); [destruct Hin|].
  intros cache w Hheap.
  destruct (xf_input_names t) as [|n ns] eqn:En.
  - exists w. cbn [rescale_loop]. unfold bind, lift, matches_group, first_input_name.
    now rewrite En.
  - assert (Hrest : exists t, In t ts /\ xf_input_names t = []).
    { exists t0. destruct Hin as [->|Hin]; [congruence | now split]. }
    specialize (IH Hrest).
    assert (Hm : exists b, matches_group g names t = OK b).
    { unfold matches_group, first_input_name. rewrite En. cbn [result_bind].
      destruct (str_in n names); [|now eexists].
      destruct Ht as [fl Hfl]. unfold NuFlavIntGroup_contains. rewrite Hfl. now eexists. }
    destruct Hm as ([|] & Hm).
    + destruct cache as [a|].
      * rewrite (rescale_loop_hit_cached g names k l t ts a w Hm).
        destruct (IH (Some a) w) as (w' & ->); [discriminate|]. now exists w'.
      * specialize (Hheap eq_refl). apply Forall_cons in Hheap as [[A HA] _].
        destruct (rescale_array_ok k l t w A HA) as (a & Hrun & _).
        rewrite (rescale_loop_hit_fresh g names k l t ts a w _ Hm Hrun).
        destruct (IH (Some a) (mkWorld (self w)
                                 (heap w ++ rescaled_arrays (self w) k l t A) (calls w)))
          as (w' & ->); [discriminate|]. now exists w'.
    + rewrite (rescale_loop_skip g names k l t ts cache w Hm).
      apply IH. intros E. specialize (Hheap E). now apply Forall_cons in Hheap as [_ ?].
Qed.

Lemma rescale_index_error (w : world) :
  transform_groups (self w) <> [] ->
  (exists t, In t (nominal_transforms (self w)) /\ xf_input_names t = []) ->
  Forall (fun t => returns (NuFlavIntGroup_new (xf_output_name t)))
    (nominal_transforms (self w)) ->
  Forall (fun t => is_Some (heap w !! xform_array t)) (nominal_transforms (self w)) ->
  exists w', _compute_transforms w = (Raise IndexError, w').
Proof.
  intros Hgroups Hempty Hparse Hheap.
  unfold _compute_transforms, bind, get_self.
  destruct (transform_groups (self w)) as [|g groups]; [contradiction|].
  cbn [rescale_groups]. destruct g as [|r g]; [now exists w|].
  unfold bind, get_self.
  destruct (rescale_loop_index_error (r :: g) (List.map str_NuFlav (flavs (r :: g)))
              (m_as (aeff_scale (params (self w))) "dimensionless")
              (m_as (livetime (params (self w))) "sec")
              (nominal_transforms (self w)) Hparse Hempty None w (fun _ => Hheap))
    as (w' & ->).
  now exists w'.
Qed.

(** The rescale phase reads the first input name of every nominal transform:
    when there is a group to rescale and a nominal transform that has no
    input names, the phase raises IndexError, provided nothing else fails
    first, that is, the output names of the nominal transforms denote
    categories and their arrays are in the store. *)
Theorem transform_without_input_names_stops_the_rescale (w : world) :
  transform_groups (self w) <> [] ->
  (exists t, In t (nominal_transforms (self w)) /\ xf_input_names t = []) ->
  Forall (fun t => returns (NuFlavIntGroup_new (xf_output_name t)))
    (nominal_transforms (self w)) ->
  Forall (fun t => is_Some (heap w !! xform_array t)) (nominal_transforms (self w)) ->
  fst (_compute_transforms w) = Raise IndexError.
Proof.
  intros Hgroups Hempty Hparse Hheap.
  destruct (rescale_index_error w Hgroups Hempty Hparse Hheap) as (w' & ->). reflexivity.
Qed.


(** ** What the rescale phase returns, exactly *)

Lemma group_rescaled_collect (st : hist) (k l : float) (h0 hf : store)
    (ts : list BinnedTensorTransform) (groups : list NuFlavIntGroup)
    (outs : list (list BinnedTensorTransform)) :
  Forall2 (group_rescaled st k l h0 hf ts) groups outs ->
  forall base,
    (forall i g, groups !! i = Some g ->
       List.filter (matched g) ts = assembled st g (base + i)) ->
    exists addrs,
      List.length addrs = List.length groups
      /\ List.concat outs = emitted st base groups addrs
      /\ forall i g a', groups !! i = Some g -> addrs !! i = Some a' ->
           forall first rest, assembled st g (base + i) = first :: rest ->
             List.length h0 <= a'
             /\ exists A, h0 !! xform_array first = Some A
                          /\ hf !! a' = Some (rescaled st k l first A).
Proof.
  induction 1 as [|g out groups outs (a & Hout & Hfirst) _ IH]; intros base Hsel.
  - exists []. split; [reflexivity|]. split; [reflexivity|].
    intros i g a' Hg. discriminate.
  - destruct (IH (S base)) as (addrs & Hlen & Hcat & Harr).
    { intros i g' Hg'. rewrite (Hsel (S i) g' Hg'). f_equal. lia. }
    pose proof (Hsel 0 g eq_refl) as Hg. rewrite Nat.add_0_r in Hg.
    exists (a :: addrs). split; [cbn; now rewrite Hlen|]. split.
    + cbn [List.concat]. rewrite Hcat, Hout, Hg. reflexivity.
    + intros [|i] g' a' Hg' Ha'; cbn in Hg', Ha'.
      * injection Hg' as <-. injection Ha' as <-. rewrite Nat.add_0_r.
        intros first rest E. apply (Hfirst first rest). now rewrite Hg.
      * replace (base + S i) with (S base + i) by lia. now apply Harr.
Qed.

Lemma rescale_exact (w : world) (base : nat) :
  let st := self w in
  let k := m_as (aeff_scale (params st)) "dimensionless" in
  let l := m_as (livetime (params st)) "sec" in
  rescale_ready w base ->
  exists addrs w',
    _compute_transforms w = (OK (emitted st base (transform_groups st) addrs), w')
    /\ List.length addrs = List.length (transform_groups st)
    /\ self w' = self w
    /\ (exists e, heap w' = heap w ++ e)
    /\ forall i g a', transform_groups st !! i = Some g -> addrs !! i = Some a' ->
         forall first rest, assembled st g (base + i) = first :: rest ->
           List.length (heap w) <= a'
           /\ exists A, heap w !! (base + i) = Some A
                        /\ heap w' !! a' = Some (rescaled st k l first A).
Proof.
  cbv zeta. intros Hready.
  destruct (rescale_ok w base Hready) as (outs & w' & Hrun & Hself & Hext & Hall).
  destruct (group_rescaled_collect _ _ _ _ _ _ _ _ Hall base
              (matched_selects_group w base Hready)) as (addrs & Hlen & Hcat & Harr).
  exists addrs, w'. rewrite Hrun, Hcat.
  split; [reflexivity|]. split; [exact Hlen|]. split; [exact Hself|]. split; [exact Hext|].
  intros i g a' Hg Ha' first rest E.
  destruct (Harr i g a' Hg Ha' first rest E) as (Hle & A & HA & Hf).
  split; [exact Hle|]. exists A. split; [|exact Hf].
  rewrite <- (assembled_array (self w) g (base + i) first); [exact HA|].
  rewrite E. now left.
Qed.

(** On a stage that is ready for it the rescale phase returns the nominal
    transforms, group after group and in their order, each with the summing
    flag of the stage and with a new array in place of its own. The
    transforms of a group all get the same new array: the nominal array of
    the group times (aeff_scale times the livetime in seconds), and times
    nutau_cc_norm as well exactly when the first transform of the group has
    'nutau_cc' or 'nutaubar_cc' for its output name. *)
Theorem rescale_phase_emits_one_array_per_group (w : world) (base : nat) :
  let st := self w in
  let k := m_as (aeff_scale (params st)) "dimensionless" in
  let l := m_as (livetime (params st)) "sec" in
  let norm := magnitude (nutau_cc_norm (params st)) in
  rescale_ready w base ->
  exists addrs w',
    _compute_transforms w = (OK (emitted st base (transform_groups st) addrs), w')
    /\ List.length addrs = List.length (transform_groups st)
    /\ forall i g a', transform_groups st !! i = Some g -> addrs !! i = Some a' ->
         forall first rest, assembled st g (base + i) = first :: rest ->
           List.length (heap w) <= a'
           /\ exists A, heap w !! (base + i) = Some A
                /\ heap w' !! a'
                   = Some (if is_special_channel (xf_output_name first)
                           then ndarray_mul_scalar
                                  (ndarray_mul_scalar A (PrimFloat.mul k l)) norm
                           else ndarray_mul_scalar A (PrimFloat.mul k l)).
Proof.
  cbv zeta. intros Hready.
  destruct (rescale_exact w base Hready) as (addrs & w' & Hrun & Hlen & _ & _ & Harr).
  exists addrs, w'. split; [exact Hrun|]. split; [exact Hlen|].
  intros i g a' Hg Ha' first rest E.
  destruct (Harr i g a' Hg Ha' first rest E) as (Hle & A & HA & Hf).
  split; [exact Hle|]. exists A. split; [exact HA|]. exact Hf.
Qed.

(** ** From the nominal computation to the rescale phase *)

Lemma with_addresses_bounds (base : nat) (groups : list NuFlavIntGroup) (a : addr)
    (g : NuFlavIntGroup) :
  In (a, g) (with_addresses base groups) -> base <= a < base + List.length groups.
Proof.
  unfold with_addresses. intros H. apply List.in_combine_l in H.
  apply List.in_seq in H. lia.
Qed.

Lemma In_with_addresses_of_group (base : nat) (groups : list NuFlavIntGroup)
    (g : NuFlavIntGroup) :
  In g groups -> exists i, groups !! i = Some g /\ In (base + i, g) (with_addresses base groups).
Proof.
  intros H. apply list_elem_of_In, list_elem_of_lookup in H as [i Hi].
  exists i. split; [assumption | now apply In_with_addresses].
Qed.

Lemma assembled_same (st st' : hist) (g : NuFlavIntGroup) (a : addr) :
  input_names st' = input_names st -> output_names st' = output_names st ->
  sum_grouped_flavints st' = sum_grouped_flavints st ->
  input_binning st' = input_binning st -> output_binning st' = output_binning st ->
  assembled st' g a = assembled st g a.
Proof.
  intros Ein Eout Esum Eib Eob.
  unfold assembled, merged_transforms, unmerged_transforms.
  now rewrite Ein, Eout, Esum, Eib, Eob.
Qed.

(** The nominal computation of a ready stage, with its result stored. *)
Lemma cache_nominal_ok (w : world) (ev : Events) :
  nominal_ready w ev ->
  exists w',
    cache_nominal_transforms w = (OK tt, w')
    /\ heap w' = heap w ++ List.map (nominal_array (self w) ev) (transform_groups (self w))
    /\ nominal_transforms (self w')
       = List.flat_map (fun ag => assembled (self w) (snd ag) (fst ag))
           (with_addresses (List.length (heap w)) (transform_groups (self w)))
    /\ transform_groups (self w') = transform_groups (self w)
    /\ input_names (self w') = input_names (self w)
    /\ output_names (self w') = output_names (self w)
    /\ sum_grouped_flavints (self w') = sum_grouped_flavints (self w)
    /\ input_binning (self w') = input_binning (self w)
    /\ output_binning (self w') = output_binning (self w)
    /\ params (self w') = params (self w).
Proof.
  intros Hready. destruct (nominal_ok w ev Hready) as (w1 & Hload & Hrun).
  destruct (load_events_config w) as (_ & Hg & Hib & Hob & Hin & Hout & _ & Hsum & Hp & _).
  rewrite Hload in Hg, Hib, Hob, Hin, Hout, Hsum, Hp. cbn [snd] in *.
  eexists. unfold cache_nominal_transforms. rewrite Hrun.
  split; [reflexivity|]. cbn. repeat split; assumption.
Qed.

Lemma rescale_ready_after_cache (w w' : world) (ev : Events) :
  nominal_ready w ev -> stage_well_formed (self w) ->
  heap w' = heap w ++ List.map (nominal_array (self w) ev) (transform_groups (self w)) ->
  nominal_transforms (self w')
  = List.flat_map (fun ag => assembled (self w) (snd ag) (fst ag))
      (with_addresses (List.length (heap w)) (transform_groups (self w))) ->
  transform_groups (self w') = transform_groups (self w) ->
  input_names (self w') = input_names (self w) ->
  output_names (self w') = output_names (self w) ->
  sum_grouped_flavints (self w') = sum_grouped_flavints (self w) ->
  input_binning (self w') = input_binning (self w) ->
  output_binning (self w') = output_binning (self w) ->
  rescale_ready w' (List.length (heap w)).
Proof.
  intros Hready [Hpart Houts Hins Hfed] Hheap Hts Hg Hin Hout Hsum Hib Hob. constructor.
  - rewrite Hts, Hg. apply List.flat_map_ext. intros [a g]. cbn [fst snd].
    symmetry. now apply assembled_same.
  - constructor; rewrite ?Hg, ?Hin, ?Hout, ?Hsum; assumption.
  - intros t Ht. rewrite Hts in Ht.
    apply List.in_flat_map in Ht as ([a g] & Hag & Ht). cbn [fst snd] in Ht.
    rewrite (assembled_array _ _ _ _ Ht). apply with_addresses_bounds in Hag.
    apply lookup_lt_is_Some. rewrite Hheap, List.length_app, List.length_map. lia.
Qed.

(** The nominal computation prepares the rescale phase. On a stage that is
    ready for the nominal computation and well formed, the nominal
    computation returns; once its result is stored the rescale phase returns
    as well, and the array it gives the transforms of a group is the
    histogram of the group over the volumes, times (aeff_scale times the
    livetime in seconds), and times nutau_cc_norm when the first transform of
    the group is one for 'nutau_cc' or 'nutaubar_cc'. *)
Theorem nominal_phase_prepares_the_rescale (w : world) (ev : Events) :
  let st := self w in
  let base := List.length (heap w) in
  let k := m_as (aeff_scale (params st)) "dimensionless" in
  let l := m_as (livetime (params st)) "sec" in
  nominal_ready w ev -> stage_well_formed st ->
  exists w1 addrs w2,
    cache_nominal_transforms w = (OK tt, w1)
    /\ rescale_ready w1 base
    /\ _compute_transforms w1 = (OK (emitted st base (transform_groups st) addrs), w2)
    /\ forall i g a', transform_groups st !! i = Some g -> addrs !! i = Some a' ->
         heap w1 !! (base + i) = Some (nominal_array st ev g)
         /\ heap w2 !! (base + i) = Some (nominal_array st ev g)
         /\ forall first rest, assembled st g (base + i) = first :: rest ->
              heap w2 !! a' = Some (rescaled st k l first (nominal_array st ev g)).
Proof.
  cbv zeta. intros Hready Hwf.
  destruct (cache_nominal_ok w ev Hready)
    as (w1 & Hcache & Hheap & Hts & Hg & Hin & Hout & Hsum & Hib & Hob & Hp).
  pose proof (rescale_ready_after_cache w w1 ev Hready Hwf Hheap Hts Hg Hin Hout Hsum Hib Hob)
    as Hready1.
  destruct (rescale_exact w1 _ Hready1) as (addrs & w2 & Hrun & Hlen & _ & (e & Hext) & Harr).
  exists w1, addrs, w2. split; [exact Hcache|]. split; [exact Hready1|]. split.
  - rewrite Hrun. f_equal. f_equal. rewrite Hg. unfold emitted.
    apply List.flat_map_ext. intros [a' [a g]]. cbn [fst snd].
    rewrite (assembled_same (self w) (self w1) g a Hin Hout Hsum Hib Hob).
    apply List.map_ext. intros t. unfold retag. now rewrite Hsum.
  - intros i g a' Hgi Ha'.
    assert (HA : heap w1 !! (List.length (heap w) + i) = Some (nominal_array (self w) ev g)).
    { rewrite Hheap, lookup_app_r by lia.
      replace (List.length (heap w) + i - List.length (heap w)) with i by lia.
      now apply lookup_map. }
    split; [exact HA|]. split; [rewrite Hext; now apply lookup_app_l_Some|].
    intros first rest E.
    rewrite <- Hg in Hgi.
    rewrite <- (assembled_same (self w) (self w1) g _ Hin Hout Hsum Hib Hob) in E.
    destruct (Harr i g a' Hgi Ha' first rest E) as (_ & A & HA' & Hf).
    rewrite HA in HA'. injection HA' as <-. rewrite Hf.
    unfold rescaled. now rewrite Hp.
Qed.

(** In merged mode a group that none of the declared input names feeds, but
    to which an output name belongs, gets a transform without input names.
    The nominal computation of a ready stage returns it all the same; the
    rescale phase that follows raises IndexError. *)
Theorem unfed_group_breaks_the_rescale (w : world) (ev : Events) (g : NuFlavIntGroup)
    (o : string) :
  nominal_ready w ev ->
  sum_grouped_flavints (self w) = true ->
  In g (transform_groups (self w)) ->
  In o (output_names (self w)) -> belongs_to g o = true ->
  (forall n, In n (input_names (self w)) -> intersects_input g n = false) ->
  exists w1 t,
    cache_nominal_transforms w = (OK tt, w1)
    /\ In t (nominal_transforms (self w1))
    /\ xf_input_names t = [] /\ xf_output_name t = o
    /\ fst (_compute_transforms w1) = Raise IndexError.
Proof.
  intros Hready Hsum Hg Ho Hbel Hunfed.
  destruct (cache_nominal_ok w ev Hready)
    as (w1 & Hcache & Hheap & Hts & Hgr & Hin & Hout & Hsum1 & Hib & Hob & Hp).
  destruct (In_with_addresses_of_group (List.length (heap w)) _ g Hg) as (i & Hi & Hag).
  set (t := mkTransform [] o (input_binning (self w)) (output_binning (self w))
              (List.length (heap w) + i) (sum_grouped_flavints (self w))).
  assert (Ht : In t (nominal_transforms (self w1))).
  { rewrite Hts. apply List.in_flat_map. eexists. split; [exact Hag|]. cbn [fst snd].
    unfold assembled, merged_transforms. rewrite Hsum.
    rewrite (filter_none _ (intersects_input g) _ Hunfed).
    apply List.in_map_iff. exists o. split; [subst t; now rewrite Hsum|].
    apply List.filter_In. now split. }
  exists w1, t. split; [exact Hcache|]. split; [exact Ht|]. split; [reflexivity|].
  split; [reflexivity|].
  destruct (rescale_index_error w1) as (w2 & ->); [| | | |reflexivity].
  - rewrite Hgr. intros E. rewrite E in Hg. destruct Hg.
  - now exists t.
  - apply List.Forall_forall. intros t' Ht'. rewrite Hts in Ht'.
    apply List.in_flat_map in Ht' as ([a g'] & _ & Ht'). cbn [fst snd] in Ht'.
    apply output_of_assembled in Ht' as [Ht' _].
    pose proof (ready_outputs _ _ Hready) as Hparse.
    unfold names_parse in Hparse. rewrite List.Forall_forall in Hparse. now apply Hparse.
  - apply List.Forall_forall. intros t' Ht'. rewrite Hts in Ht'.
    apply List.in_flat_map in Ht' as ([a g'] & Hag' & Ht'). cbn [fst snd] in Ht'.
    rewrite (assembled_array _ _ _ _ Ht'). apply with_addresses_bounds in Hag'.
    apply lookup_lt_is_Some. rewrite Hheap, List.length_app, List.length_map. lia.
Qed.

(** ** The rescale phase, twice *)

Lemma Forall2_map_same (A B : Type) (R : B -> B -> Prop) (f1 f2 : A -> B) (l : list A) :
  (forall x, In x l -> R (f1 x) (f2 x)) -> Forall2 R (List.map f1 l) (List.map f2 l).
Proof.
  induction l as [|x l IH]; intros H; cbn; constructor.
  - apply H. now left.
  - apply IH. intros y Hy. apply H. now right.
Qed.

Lemma emitted_Forall2 (st : hist) (R : BinnedTensorTransform -> BinnedTensorTransform -> Prop)
    (groups : list NuFlavIntGroup) :
  forall base addrs1 addrs2,
    List.length addrs1 = List.length groups -> List.length addrs2 = List.length groups ->
    (forall i g a1 a2 t,
       groups !! i = Some g -> addrs1 !! i = Some a1 -> addrs2 !! i = Some a2 ->
       In t (assembled st g (base + i)) -> R (retag st a1 t) (retag st a2 t)) ->
    Forall2 R (emitted st base groups addrs1) (emitted st base groups addrs2).
Proof.
  unfold emitted, with_addresses.
  induction groups as [|g groups IH]; intros base [|a1 addrs1] [|a2 addrs2] H1 H2 HR;
    try discriminate; [constructor|].
  cbn [List.length seq combine List.flat_map fst snd].
  apply Forall2_app.
  - apply Forall2_map_same. intros t Ht. apply (HR 0 g a1 a2 t); try reflexivity.
    now rewrite Nat.add_0_r.
  - apply IH; [cbn in H1; lia | cbn in H2; lia |].
    intros i g' b1 b2 t Hg' Hb1 Hb2 Ht. apply (HR (S i) g' b1 b2 t); try assumption.
    now replace (base + S i) with (S base + i) by lia.
Qed.

(** The rescale phase can be repeated. A second run, in the world the first
    one left, returns as the first did: the same transforms in the same
    order, apart from their arrays, which are new again and hold, transform
    by transform, the values the arrays of the first run hold. *)
Theorem rescale_phase_can_be_repeated (w : world) (base : nat) :
  rescale_ready w base ->
  exists out1 w1 out2 w2,
    _compute_transforms w = (OK out1, w1)
    /\ _compute_transforms w1 = (OK out2, w2)
    /\ Forall2 (fun t1 t2 =>
                  tags t1 = tags t2
                  /\ List.length (heap w) <= xform_array t1
                  /\ List.length (heap w1) <= xform_array t2
                  /\ exists A, heap w1 !! xform_array t1 = Some A
                               /\ heap w2 !! xform_array t2 = Some A)
         out1 out2.
Proof.
  intros Hready.
  destruct (rescale_exact w base Hready)
    as (addrs1 & w1 & Hrun1 & Hlen1 & Hself & (e & Hext) & Harr1).
  assert (Hready1 : rescale_ready w1 base).
  { destruct Hready as [Hcache Hwf Harrays]. constructor; rewrite Hself; try assumption.
    intros t Ht. destruct (Harrays t Ht) as [A HA]. exists A.
    rewrite Hext. now apply lookup_app_l_Some. }
  destruct (rescale_exact w1 base Hready1)
    as (addrs2 & w2 & Hrun2 & Hlen2 & _ & _ & Harr2).
  rewrite Hself in Hrun2, Hlen2, Harr2.
  eexists _, w1, _, w2. split; [exact Hrun1|]. split; [exact Hrun2|].
  apply emitted_Forall2; try assumption.
  intros i g a1 a2 t Hg Ha1 Ha2 Ht. split; [reflexivity|]. cbn [retag xform_array].
  destruct (assembled (self w) g (base + i)) as [|first rest] eqn:E; [destruct Ht|].
  destruct (Harr1 i g a1 Hg Ha1 first rest E) as (Hle1 & A & HA & Hf1).
  destruct (Harr2 i g a2 Hg Ha2 first rest E) as (Hle2 & A' & HA' & Hf2).
  split; [exact Hle1|]. split; [exact Hle2|].
  assert (A' = A) as ->.
  { rewrite Hext in HA'. rewrite (lookup_app_l_Some _ _ _ _ HA) in HA'. congruence. }
  eexists. split; [exact Hf1 | exact Hf2].
Qed.

(** ** Input names that are not names of flavours *)

Lemma rescale_loop_no_match (g : NuFlavIntGroup) (names : list string) (k l : float)
    (ts : list BinnedTensorTransform) (cache : option addr) (w : world) :
  Forall (fun t => matches_group g names t = OK false) ts ->
  rescale_loop g names k l ts cache w = (OK [], w).
Proof.
  induction 1 as [|t ts Ht _ IH]; [reflexivity|].
  now rewrite (rescale_loop_skip g names k l t ts cache w Ht).
Qed.

Lemma flav_names_are_flavours (g : NuFlavIntGroup) (n : string) :
  In n (flav_names g) -> exists f, n = str_NuFlav f.
Proof.
  unfold flav_names. rewrite List.in_map_iff. intros (f & <- & _). now exists f.
Qed.

(** The rescale phase looks for the first input name of a nominal transform
    among the names of the flavours of a group. When the first input name of
    no nominal transform is the name of a flavour -- the name of a category,
    or of several flavours, is not -- nothing matches: the phase returns the
    empty set and leaves the world as it was. *)
Theorem rescale_needs_flavours_as_input_names (w : world) :
  Forall (fun g => g <> []) (transform_groups (self w)) ->
  Forall (fun t => exists n, first_input_name t = OK n /\ forall f, n <> str_NuFlav f)
    (nominal_transforms (self w)) ->
  _compute_transforms w = (OK [], w).
Proof.
  intros Hgroups Hts. unfold _compute_transforms, bind, get_self.
  set (k := m_as _ _). set (l := m_as _ _).
  induction Hgroups as [|g groups Hg _ IH]; [reflexivity|].
  cbn [rescale_groups]. destruct g as [|r g]; [congruence|].
  unfold bind at 1, get_self at 1. unfold bind at 1.
  rewrite rescale_loop_no_match.
  - unfold bind at 1. unfold bind, get_self in IH. now rewrite IH.
  - apply List.Forall_forall. intros t Ht.
    rewrite List.Forall_forall in Hts. destruct (Hts t Ht) as (n & Hn & Hflav).
    unfold matches_group. rewrite Hn. cbn [result_bind].
    destruct (str_in n _) eqn:E; [|reflexivity].
    apply str_in_In, (flav_names_are_flavours (r :: g)) in E as [f ->].
    now destruct (Hflav f).
Qed.

(** ** One transform for each pair of names *)

Lemma NoDup_flat_map_groups (K : Type) (F : NuFlavIntGroup -> list K)
    (groups : list NuFlavIntGroup) :
  NoDup groups ->
  (forall g, In g groups -> NoDup (F g)) ->
  (forall g g' x, In g groups -> In g' groups -> In x (F g) -> In x (F g') -> g = g') ->
  NoDup (List.flat_map F groups).
Proof.
  induction 1 as [|g groups Hg Hnd IH]; intros Heach Hdisj; cbn; [constructor|].
  apply NoDup_app. split; [apply Heach; now left|]. split.
  - intros x Hx Hx'. rewrite list_elem_of_In in *.
    apply List.in_flat_map in Hx' as (g' & Hg' & Hx').
    assert (g = g') as <- by (apply (Hdisj g g' x); auto using in_eq, in_cons).
    now apply Hg, list_elem_of_In.
  - apply IH; [intros; apply Heach; now right|].
    intros g1 g2 x H1 H2. apply Hdisj; now right.
Qed.

Lemma names_of_all_assembled (st : hist) (groups : list NuFlavIntGroup) :
  forall base,
    List.map names_of (List.flat_map (fun ag => assembled st (snd ag) (fst ag))
                         (with_addresses base groups))
    = List.flat_map (fun g => List.map names_of (assembled st g 0)) groups.
Proof.
  unfold with_addresses. induction groups as [|g groups IH]; intros base; cbn; [reflexivity|].
  rewrite List.map_app, IH. f_equal.
  unfold assembled, merged_transforms, unmerged_transforms.
  destruct (sum_grouped_flavints st).
  - rewrite !List.map_map. reflexivity.
  - rewrite !map_flat_map_comm. apply List.flat_map_ext. intros i.
    rewrite !List.map_map. reflexivity.
Qed.

Lemma NoDup_names_of_assembled (st : hist) (g : NuFlavIntGroup) :
  NoDup (input_names st) -> NoDup (output_names st) ->
  NoDup (List.map names_of (assembled st g 0)).
Proof.
  intros Hins Houts.
  assert (Hins' : NoDup (List.filter (intersects_input g) (input_names st))).
  { rewrite NoDup_ListNoDup in *. now apply List.NoDup_filter. }
  assert (Houts' : NoDup (List.filter (belongs_to g) (output_names st))).
  { rewrite NoDup_ListNoDup in *. now apply List.NoDup_filter. }
  unfold assembled, merged_transforms, unmerged_transforms.
  destruct (sum_grouped_flavints st).
  - rewrite List.map_map. apply NoDup_map_injective; [|assumption].
    intros o o' E. now injection E.
  - rewrite map_flat_map_comm.
    induction Hins' as [|i ins Hi _ IH]; cbn; [constructor|].
    apply NoDup_app. split; [|split; [|exact IH]].
    + rewrite List.map_map. apply NoDup_map_injective; [|assumption].
      intros o o' E. now injection E.
    + intros x Hx Hx'. rewrite list_elem_of_In in *.
      rewrite List.map_map in Hx. apply List.in_map_iff in Hx as (o & <- & _).
      apply List.in_flat_map in Hx' as (i' & Hi' & Hx').
      rewrite List.map_map in Hx'. apply List.in_map_iff in Hx' as (o' & E & _).
      injection E as -> _. apply Hi. now apply list_elem_of_In.
Qed.

(** An output name belongs to one group only. *)
Lemma output_name_in_one_group (st : hist) (g g' : NuFlavIntGroup) (o : string) :
  stage_well_formed st -> In g (transform_groups st) -> In g' (transform_groups st) ->
  In o (output_names st) -> belongs_to g o = true -> belongs_to g' o = true -> g = g'.
Proof.
  intros [[_ _ Hdisj] Houts _ _] Hg Hg' Ho Hb Hb'.
  destruct (Houts o Ho) as (fl & Hfl & Hne).
  apply belongs_to_spec in Hb as (fl1 & Hfl1 & Hsub1).
  apply belongs_to_spec in Hb' as (fl2 & Hfl2 & Hsub2).
  rewrite Hfl in Hfl1, Hfl2. injection Hfl1 as <-. injection Hfl2 as <-.
  destruct fl as [|k fl]; [congruence|].
  apply (Hdisj g g' k Hg Hg'); [apply Hsub1 | apply Hsub2]; now left.
Qed.

(** The set the nominal computation returns holds at most one transform for
    each pair of input names and output name, and in merged mode at most one
    for each output name -- on a well-formed stage that declares no name
    twice. *)
Theorem nominal_set_has_one_transform_per_pair (w : world) (ev : Events) :
  nominal_ready w ev -> stage_well_formed (self w) ->
  NoDup (input_names (self w)) -> NoDup (output_names (self w)) ->
  exists ts w',
    _compute_nominal_transforms w = (OK ts, w')
    /\ NoDup (List.map names_of ts)
    /\ (sum_grouped_flavints (self w) = true -> NoDup (List.map xf_output_name ts)).
Proof.
  intros Hready Hwf Hins Houts.
  destruct (nominal_ok w ev Hready) as (w1 & _ & Hrun).
  eexists _, _. split; [exact Hrun|].
  assert (Hout_of : forall g x, In x (List.map names_of (assembled (self w) g 0)) ->
            In (snd x) (output_names (self w)) /\ belongs_to g (snd x) = true).
  { intros g x Hx. apply List.in_map_iff in Hx as (t & <- & Ht).
    now apply output_of_assembled in Ht. }
  assert (Hpairs : NoDup (List.flat_map (fun g => List.map names_of (assembled (self w) g 0))
                            (transform_groups (self w)))).
  { apply NoDup_flat_map_groups.
    - apply (partition_NoDup _ (wf_partition _ Hwf)).
    - intros g _. now apply NoDup_names_of_assembled.
    - intros g g' x Hg Hg' Hx Hx'.
      destruct (Hout_of g x Hx) as [Ho Hb]. destruct (Hout_of g' x Hx') as [_ Hb'].
      exact (output_name_in_one_group _ g g' _ Hwf Hg Hg' Ho Hb Hb'). }
  split; [now rewrite names_of_all_assembled|].
  intros Hsum.
  replace (List.map xf_output_name _) with
    (List.map snd (List.map names_of
       (List.flat_map (fun ag => assembled (self w) (snd ag) (fst ag))
          (with_addresses (List.length (heap w)) (transform_groups (self w))))))
    by (rewrite List.map_map; reflexivity).
  rewrite names_of_all_assembled, map_flat_map_comm.
  apply NoDup_flat_map_groups.
  - apply (partition_NoDup _ (wf_partition _ Hwf)).
  - intros g _. unfold assembled, merged_transforms. rewrite Hsum, !List.map_map. cbn.
    rewrite List.map_id. rewrite NoDup_ListNoDup in *. now apply List.NoDup_filter.
  - intros g g' o Hg Hg' Ho Ho'.
    apply List.in_map_iff in Ho as (x & <- & Hx).
    apply List.in_map_iff in Ho' as (x' & E & Hx').
    destruct (Hout_of g x Hx) as [Hin Hb]. destruct (Hout_of g' x' Hx') as [_ Hb'].
    rewrite E in Hb'.
    exact (output_name_in_one_group _ g g' _ Hwf Hg Hg' Hin Hb Hb').
Qed.


(** ** What the two phases do not depend on *)

Lemma blind_to_ret (f : hist -> hist) (A : Type) (a : A) : blind_to f (ret a).
Proof. intros w. reflexivity. Qed.

Lemma blind_to_raise (f : hist -> hist) (A : Type) (e : exn) : blind_to f (@raise _ A e).
Proof. intros w. reflexivity. Qed.

Lemma blind_to_lift (f : hist -> hist) (A : Type) (r : result A) : blind_to f (lift r).
Proof. intros w. reflexivity. Qed.

Lemma blind_to_log (f : hist -> hist) (c : call) : blind_to f (log c).
Proof. intros w. reflexivity. Qed.

Lemma blind_to_alloc (f : hist -> hist) (a : ndarray) : blind_to f (alloc a).
Proof. intros w. reflexivity. Qed.

Lemma blind_to_read (f : hist -> hist) (p : addr) : blind_to f (read p).
Proof.
  intros w. unfold read. cbn [over heap]. destruct (heap w !! p); reflexivity.
Qed.

Lemma blind_to_idiv (f : hist -> hist) (p : addr) (sx : shape) (d : ndarray) (sd : shape) :
  blind_to f (idiv p sx d sd).
Proof.
  intros w. unfold idiv. cbn [over heap].
  destruct (heap w !! p) as [a|]; [|reflexivity].
  destruct (in_place_div _ _ _ _); reflexivity.
Qed.

Lemma blind_to_bind (f : hist -> hist) (A B : Type) (m : M A) (k : A -> M B) :
  blind_to f m -> (forall a, blind_to f (k a)) -> blind_to f (bind m k).
Proof.
  intros Hm Hk w. unfold bind. rewrite Hm.
  destruct (m w) as [[a|e] w1]; cbn [fst snd]; [apply Hk | reflexivity].
Qed.

(** Reading the stage is harmless when what is done with it does not depend
    on what [f] changes. *)
Lemma blind_to_get_self (f : hist -> hist) (B : Type) (k : hist -> M B) :
  (forall st, k (f st) = k st) -> (forall st, blind_to f (k st)) ->
  blind_to f (bind get_self k).
Proof.
  intros Hsame Hk w. unfold bind, get_self. cbn [self over].
  rewrite Hsame. apply Hk.
Qed.

Lemma blind_to_load_events (lt sc nm : Quantity) :
  blind_to (with_physics lt sc nm) load_events.
Proof.
  intros w. unfold load_events. cbn [self over with_physics params aeff_weight_file
    events_hash].
  destruct (decide _) as [_|_]; [reflexivity|].
  destruct (Events_new _); reflexivity.
Qed.

Lemma blind_to_compute_aeff (lt sc nm : Quantity) (edges : list (list float))
    (ib : MultiDimBinning.t) (mdv : float) (g : NuFlavIntGroup) :
  blind_to (with_physics lt sc nm) (compute_aeff edges ib mdv g).
Proof.
  unfold compute_aeff. apply blind_to_get_self; [reflexivity|].
  intros st. destruct (events st); [|apply blind_to_raise].
  apply blind_to_bind; [apply blind_to_log|]. intros _.
  apply blind_to_bind; [apply blind_to_alloc|]. intros p.
  apply blind_to_bind; [apply blind_to_idiv|]. intros _.
  apply blind_to_ret.
Qed.

Lemma assemble_with_physics (st : hist) (lt sc nm : Quantity) (g : NuFlavIntGroup)
    (a : addr) :
  assemble (with_physics lt sc nm st) g a = assemble st g a.
Proof.
  assert (Houts : forall xin outs,
            xforms_for_outputs (with_physics lt sc nm st) g xin a outs
            = xforms_for_outputs st g xin a outs).
  { intros xin outs. induction outs as [|o outs IH]; cbn; [reflexivity|]. now rewrite IH. }
  unfold assemble. cbn [with_physics sum_grouped_flavints input_names output_names].
  destruct (sum_grouped_flavints st).
  - destruct (xform_input_names_of g (input_names st)); cbn; [apply Houts | reflexivity].
  - induction (input_names st) as [|i ins IH]; cbn; [reflexivity|].
    now rewrite IH, Houts.
Qed.

Lemma blind_to_nominal_loop (lt sc nm : Quantity) (edges : list (list float))
    (ib : MultiDimBinning.t) (mdv : float) (groups : list NuFlavIntGroup) :
  blind_to (with_physics lt sc nm) (nominal_loop edges ib mdv groups).
Proof.
  induction groups as [|g groups IH]; cbn [nominal_loop]; [apply blind_to_ret|].
  apply blind_to_bind; [apply blind_to_compute_aeff|]. intros p.
  apply blind_to_get_self; [intros st; now rewrite assemble_with_physics|]. intros st.
  apply blind_to_bind; [apply blind_to_lift|]. intros xs.
  apply blind_to_bind; [exact IH|]. intros r. apply blind_to_ret.
Qed.

Lemma blind_to_validate_and_histogram (lt sc nm : Quantity) :
  blind_to (with_physics lt sc nm) validate_and_histogram.
Proof.
  unfold validate_and_histogram. apply blind_to_get_self; [reflexivity|].
  intros st. destruct (negb _); [apply blind_to_raise|]. cbv zeta.
  destruct (_ <? _)%nat; [apply blind_to_raise|].
  apply blind_to_nominal_loop.
Qed.

(** The nominal computation reads the weight file and nothing else among the
    parameters: with other values for the livetime, the scale and
    nutau_cc_norm it returns the same transforms or raises the same
    exception, and leaves the same arrays, the same log and the same stage,
    but for these values. *)
Theorem nominal_phase_ignores_the_physics_parameters (w : world) (lt sc nm : Quantity) :
  _compute_nominal_transforms (over (with_physics lt sc nm) w)
  = (fst (_compute_nominal_transforms w),
     over (with_physics lt sc nm) (snd (_compute_nominal_transforms w))).
Proof.
  unfold _compute_nominal_transforms.
  apply blind_to_bind; [apply blind_to_load_events|].
  intros _. apply blind_to_validate_and_histogram.
Qed.

Lemma blind_to_rescale_array (f : hist -> hist) (k l : float) (t : BinnedTensorTransform) :
  (forall st, nutau_cc_norm (params (f st)) = nutau_cc_norm (params st)) ->
  blind_to f (rescale_array k l t).
Proof.
  intros Hnorm. unfold rescale_array.
  apply blind_to_bind; [apply blind_to_read|]. intros A.
  apply blind_to_bind; [apply blind_to_alloc|]. intros a.
  destruct (is_special_channel _); [|apply blind_to_ret].
  apply blind_to_get_self; [intros st; now rewrite Hnorm|]. intros st.
  apply blind_to_bind; [apply blind_to_read|]. intros scaled. apply blind_to_alloc.
Qed.

Lemma blind_to_rescale_loop (f : hist -> hist) (g : NuFlavIntGroup) (names : list string)
    (k l : float) (ts : list BinnedTensorTransform) :
  (forall st, nutau_cc_norm (params (f st)) = nutau_cc_norm (params st)) ->
  (forall st, sum_grouped_flavints (f st) = sum_grouped_flavints st) ->
  forall cache, blind_to f (rescale_loop g names k l ts cache).
Proof.
  intros Hnorm Hsum. induction ts as [|t ts IH]; intros cache; cbn [rescale_loop];
    [apply blind_to_ret|].
  apply blind_to_bind; [apply blind_to_lift|]. intros [|]; [|apply IH].
  apply blind_to_bind.
  { destruct cache; [apply blind_to_ret | now apply blind_to_rescale_array]. }
  intros a. apply blind_to_get_self; [intros st; now rewrite Hsum|]. intros st.
  apply blind_to_bind; [apply IH|]. intros r. apply blind_to_ret.
Qed.

Lemma blind_to_rescale_groups (f : hist -> hist) (k l : float)
    (groups : list NuFlavIntGroup) :
  (forall st, nutau_cc_norm (params (f st)) = nutau_cc_norm (params st)) ->
  (forall st, sum_grouped_flavints (f st) = sum_grouped_flavints st) ->
  (forall st, nominal_transforms (f st) = nominal_transforms st) ->
  blind_to f (rescale_groups k l groups).
Proof.
  intros Hnorm Hsum Hts. induction groups as [|g groups IH]; cbn [rescale_groups];
    [apply blind_to_ret|].
  destruct g as [|r g]; [apply blind_to_raise|].
  apply blind_to_get_self; [intros st; now rewrite Hts|]. intros st.
  apply blind_to_bind; [now apply blind_to_rescale_loop|]. intros xs.
  apply blind_to_bind; [exact IH|]. intros r'. apply blind_to_ret.
Qed.

(** The rescale phase does not look at the events, at their hash or at the
    weight file: with others in their place it returns the same transforms
    or raises the same exception, and adds the same arrays. *)
Theorem rescale_phase_ignores_the_events (w : world) (src : Source) (ev : option Events)
    (h : option Hash) :
  _compute_transforms (over (with_source src ev h) w)
  = (fst (_compute_transforms w), over (with_source src ev h) (snd (_compute_transforms w))).
Proof.
  unfold _compute_transforms.
  apply blind_to_get_self; [reflexivity|]. intros st. cbv zeta.
  now apply blind_to_rescale_groups.
Qed.

(** ** The norm in merged mode *)

(** In merged mode, with the output names the names of the groups,
    nutau_cc_norm goes by the name of the group: the array emitted for a
    group is the nominal array times (aeff_scale times the livetime in
    seconds), and times nutau_cc_norm as well exactly when the name of the
    group is 'nutau_cc' or 'nutaubar_cc'. Where these two names denote the
    one category each that they name, such a group holds that one category
    and no other; so a group that holds nutau_cc, or nutaubar_cc, together
    with other categories is emitted without the norm. *)
Theorem merged_norm_goes_by_the_name_of_the_group (w : world) (base : nat) :
  let st := self w in
  let k := m_as (aeff_scale (params st)) "dimensionless" in
  let l := m_as (livetime (params st)) "sec" in
  let norm := magnitude (nutau_cc_norm (params st)) in
  let special o := String.eqb o "nutau_cc" || String.eqb o "nutaubar_cc" in
  rescale_ready w base ->
  sum_grouped_flavints st = true ->
  names_denote_groups st ->
  NuFlavIntGroup_new "nutau_cc" = OK [(nutau, cc)] ->
  NuFlavIntGroup_new "nutaubar_cc" = OK [(nutaubar, cc)] ->
  exists out w',
    _compute_transforms w = (OK out, w')
    /\ forall i g, transform_groups st !! i = Some g ->
         exists t' A,
           In t' out
           /\ xf_output_name t' = str_NuFlavIntGroup g
           /\ heap w !! (base + i) = Some A
           /\ heap w' !! xform_array t'
              = Some (if special (str_NuFlavIntGroup g)
                      then ndarray_mul_scalar
                             (ndarray_mul_scalar A (PrimFloat.mul k l)) norm
                      else ndarray_mul_scalar A (PrimFloat.mul k l))
           /\ (special (str_NuFlavIntGroup g) = true ->
               (forall c, In c g -> c = (nutau, cc))
               \/ (forall c, In c g -> c = (nutaubar, cc)))
           /\ ((exists c, In c g /\ c <> (nutau, cc)) ->
               (exists c, In c g /\ c <> (nutaubar, cc)) ->
               heap w' !! xform_array t'
               = Some (ndarray_mul_scalar A (PrimFloat.mul k l))).
Proof.
  cbv zeta. intros Hready Hsum Hden Htau Htaubar.
  destruct (rescale_exact w base Hready) as (addrs & w' & Hrun & Hlen & _ & _ & Harr).
  eexists _, w'. split; [exact Hrun|].
  intros i g Hg.
  assert (Hin : In g (transform_groups (self w))).
  { apply list_elem_of_In, list_elem_of_lookup. now exists i. }
  pose proof (ready_stage _ _ Hready) as Hwf.
  assert (Hone : List.filter (belongs_to g) (output_names (self w)) = [str_NuFlavIntGroup g]).
  { rewrite (proj1 Hden).
    apply filter_map_unique;
      [exact (partition_NoDup _ (wf_partition _ Hwf)) | assumption |].
    intros g' Hg'. now apply (belongs_to_group_name (self w)); [apply wf_partition| | |]. }
  assert (Hasm : assembled (self w) g (base + i)
                 = [mkTransform (List.filter (intersects_input g) (input_names (self w)))
                      (str_NuFlavIntGroup g) (input_binning (self w))
                      (output_binning (self w)) (base + i) true]).
  { unfold assembled, merged_transforms. now rewrite Hsum, Hone. }
  destruct (lookup_lt_is_Some_2 addrs i) as [a' Ha'].
  { rewrite Hlen. apply lookup_lt_is_Some. now exists g. }
  destruct (Harr i g a' Hg Ha' _ _ Hasm) as (_ & A & HA & Hf).
  assert (Hval : heap w' !! a'
                 = Some (if String.eqb (str_NuFlavIntGroup g) "nutau_cc"
                            || String.eqb (str_NuFlavIntGroup g) "nutaubar_cc"
                         then ndarray_mul_scalar
                                (ndarray_mul_scalar A
                                   (PrimFloat.mul
                                      (m_as (aeff_scale (params (self w))) "dimensionless")
                                      (m_as (livetime (params (self w))) "sec")))
                                (magnitude (nutau_cc_norm (params (self w))))
                         else ndarray_mul_scalar A
                                (PrimFloat.mul
                                   (m_as (aeff_scale (params (self w))) "dimensionless")
                                   (m_as (livetime (params (self w))) "sec")))).
  { rewrite Hf. unfold rescaled. cbn [xf_output_name].
    now rewrite is_special_channel_names. }
  assert (Hsingle : String.eqb (str_NuFlavIntGroup g) "nutau_cc"
                    || String.eqb (str_NuFlavIntGroup g) "nutaubar_cc" = true ->
                    (forall c, In c g -> c = (nutau, cc))
                    \/ (forall c, In c g -> c = (nutaubar, cc))).
  { intros Hs. destruct (proj2 Hden g Hin) as (fl & Hfl & Hiff).
    apply orb_true_iff in Hs as [Hs|Hs]; apply String.eqb_eq in Hs; rewrite Hs in Hfl.
    - left. intros c Hc. apply Hiff in Hc. rewrite Htau in Hfl. injection Hfl as <-.
      destruct Hc as [<-|[]]. reflexivity.
    - right. intros c Hc. apply Hiff in Hc. rewrite Htaubar in Hfl. injection Hfl as <-.
      destruct Hc as [<-|[]]. reflexivity. }
  eexists (retag (self w) a' _), A.
  split; [|split; [|split; [exact HA|split; [|split; [exact Hsingle|]]]]].
  - unfold emitted. apply List.in_flat_map. exists (a', (base + i, g)). split.
    + apply list_elem_of_In, list_elem_of_lookup. exists i.
      unfold with_addresses. apply lookup_zip_with_Some.
      exists a', (base + i, g). split; [reflexivity|]. split; [assumption|].
      apply lookup_zip_with_Some. exists (base + i), g. split; [reflexivity|].
      split; [|assumption]. rewrite lookup_seq. split; [reflexivity|].
      apply lookup_lt_is_Some. now exists g.
    + cbn [fst snd]. rewrite Hasm. left. reflexivity.
  - reflexivity.
  - cbn [retag xform_array]. exact Hval.
  - intros (c1 & Hc1 & Hn1) (c2 & Hc2 & Hn2). cbn [retag xform_array].
    rewrite Hval.
    destruct (String.eqb (str_NuFlavIntGroup g) "nutau_cc"
              || String.eqb (str_NuFlavIntGroup g) "nutaubar_cc") eqn:Es; [|reflexivity].
    destruct (Hsingle eq_refl) as [Hall|Hall]; [now apply Hall in Hc1 | now apply Hall in Hc2].
Qed.



End Properties.

(** * The properties on stages that run *)

#[local] Existing Instance Demo.collaborators.

Lemma merged_new_ready : nominal_ready_check Scenario.merged_new = true.
Proof. vm_compute. reflexivity. Qed.

Lemma tau_new_ready : nominal_ready_check Scenario.tau_new = true.
Proof. vm_compute. reflexivity. Qed.

Lemma tau_cached_ready : rescale_ready Scenario.tau_cached 0.
Proof. apply rescale_ready_check_sound; vm_compute; reflexivity. Qed.

Lemma merged_cached_ready : rescale_ready Scenario.merged_cached 0.
Proof. apply rescale_ready_check_sound; vm_compute; reflexivity. Qed.

(** ** The special channels

    Two floats the float comparison tells apart are different. *)
Lemma float_neq (x y : float) :
  PrimFloat.eqb x y = false -> PrimFloat.eqb y y = true -> x <> y.
Proof. intros Hxy Hyy E. rewrite E in Hxy. congruence. Qed.

Lemma array_neq (x y : float) :
  PrimFloat.eqb x y = false -> PrimFloat.eqb y y = true -> Some [x] <> Some [y].
Proof.
  intros Hxy Hyy E. apply (float_neq x y Hxy Hyy).
  exact (f_equal (fun o => match o with Some (v :: _) => v | _ => x end) E).
Qed.

Lemma tau_rescale_run :
  _compute_transforms Scenario.tau_cached
  = (OK Scenario.tau_rescaled, Scenario.tau_after_rescale).
Proof. vm_compute. reflexivity. Qed.

(** C1 as the specification states it fails on the second stage. The group
    of nutau holds 'nutau_cc' and 'nutau_nc'; its nominal array is
    4 / (9 * 4 pi). The first transform of the group is the one for
    'nutau_cc', so the array of the group is multiplied by nutau_cc_norm, and
    the transform for 'nutau_nc', which is no special channel, is emitted
    with that same array: it is not the nominal array times (aeff_scale times
    livetime). *)
Lemma norm_reaches_nutau_nc :
  let w := Scenario.tau_cached in
  let st := self w in
  let k := m_as (aeff_scale (params st)) "dimensionless" in
  let l := m_as (livetime (params st)) "sec" in
  let norm := magnitude (nutau_cc_norm (params st)) in
  ~ (forall out w',
       _compute_transforms w = (OK out, w') ->
       forall i g,
         transform_groups st !! i = Some g ->
         forall t, In t (assembled st g (0 + i)) ->
           forall A, heap w !! xform_array t = Some A ->
             exists t', In t' out
               /\ xf_input_names t' = xf_input_names t
               /\ xf_output_name t' = xf_output_name t
               /\ heap w' !! xform_array t'
                  = Some (if String.eqb (xf_output_name t) "nutau_cc"
                             || String.eqb (xf_output_name t) "nutaubar_cc"
                          then ndarray_mul_scalar
                                 (ndarray_mul_scalar A (PrimFloat.mul k l)) norm
                          else ndarray_mul_scalar A (PrimFloat.mul k l))).
Proof.
  cbv zeta. intros H.
  pose proof (H _ _ tau_rescale_run 0 [(nutau, cc); (nutau, nc)] eq_refl) as H1.
  assert (Ht : In (mkTransform ["nutau"] "nutau_nc" Scenario.energy_only
                     Scenario.energy_only 0 false)
                (assembled (self Scenario.tau_cached) [(nutau, cc); (nutau, nc)] (0 + 0)))
    by (vm_compute; tauto).
  assert (HA : heap Scenario.tau_cached !! 0
               = Some [PrimFloat.div 4 (PrimFloat.mul 9 (PrimFloat.mul 4 np_pi))])
    by (vm_compute; reflexivity).
  destruct (H1 _ Ht _ HA) as (t' & Hin & Hi & Ho & Hheap).
  clear H H1 Ht HA.
  revert Hin Hi Ho Hheap; vm_compute; intros Hin Hi Ho Hheap.
  repeat (destruct Hin as [<-|Hin]; [try discriminate Ho|]); [|destruct Hin].
  revert Hheap; apply array_neq; vm_compute; reflexivity.
Qed.

(** ** Witnesses *)

(** C9 on the first stage: with the hash of the weight file stored nothing is
    reloaded; on the new stage, which has no hash yet, the events are loaded
    and the hash is stored. *)
Lemma load_events_witness :
  load_events Scenario.merged_cached = (OK tt, Scenario.merged_cached)
  /\ events_hash (self Scenario.merged_new) = None
  /\ exists w', load_events Scenario.merged_new = (OK tt, w')
                /\ events (self w') = Some Scenario.nue_events
                /\ events_hash (self w') = Some (hash_obj "one_nue_cc.hdf5").
Proof.
  destruct (load_events_reloads_on_new_hash_only Scenario.merged_cached) as (Hsame & _).
  destruct (load_events_reloads_on_new_hash_only Scenario.merged_new) as (_ & Hnew & _).
  split; [apply Hsame; vm_compute; reflexivity|].
  split; [reflexivity|].
  eexists. split.
  { apply (Hnew ltac:(vm_compute; discriminate) Scenario.nue_events).
    vm_compute. reflexivity. }
  split; reflexivity.
Defined.

(** C6 on a binning with the dimension 'true_foo'. *)
Lemma invalid_binning_witness :
  invalid_input_binning (input_binning (self Scenario.foo_new))
  /\ exists w', _compute_nominal_transforms Scenario.foo_new
                = (Raise (ValueError (ExtraDimensions ["true_foo"])), w')
                /\ heap w' = [].
Proof.
  assert (Hbad : invalid_input_binning (input_binning (self Scenario.foo_new))).
  { right. exists "true_foo". vm_compute. split; [tauto|].
    intros [H|[H|[H|[]]]]; discriminate. }
  split; [exact Hbad|].
  destruct (invalid_binning_raises_before_any_histogram Scenario.foo_new Hbad)
    as (e & w' & Hrun & Hheap & _ & _ & Hok).
  destruct (Hok ltac:(vm_compute; reflexivity)) as (_ & Hextra).
  destruct (Hextra ltac:(vm_compute; reflexivity)) as (-> & _).
  exists w'. split; [exact Hrun | exact Hheap].
Defined.

(** C10 on the same binning: the computation fails and the hash of the events
    has been stored all the same. *)
Lemma events_loaded_witness :
  invalid_input_binning (input_binning (self Scenario.foo_new))
  /\ events_hash (self Scenario.foo_new) = None
  /\ events_hash (self (snd (_compute_nominal_transforms Scenario.foo_new)))
     = Some (hash_obj "one_nue_cc.hdf5")
  /\ exists e, fst (_compute_nominal_transforms Scenario.foo_new) = Raise e.
Proof.
  assert (Hbad : invalid_input_binning (input_binning (self Scenario.foo_new))).
  { right. exists "true_foo". vm_compute. split; [tauto|].
    intros [H|[H|[H|[]]]]; discriminate. }
  destruct (events_are_loaded_before_validation Scenario.foo_new Hbad)
    as (Hfail & _ & Hupd).
  destruct (Hupd ltac:(vm_compute; discriminate) Scenario.nue_events
              ltac:(vm_compute; reflexivity)) as (_ & Hhash & _).
  split; [exact Hbad|]. split; [reflexivity|]. split; [exact Hhash | exact Hfail].
Defined.

(** C7 with 'muons'. *)
Lemma construction_witness :
  __init__ Scenario.muon_args = Raise (UnboundLocalError "output_names").
Proof.
  destruct (construction_fails_unless_neutrinos Scenario.muon_args) as (_ & Hmuons & _).
  rewrite (Hmuons eq_refl). vm_compute. reflexivity.
Defined.

(** C7 as the specification states it fails: what construction raises for
    'muons' is an UnboundLocalError, and for a value that is neither
    'neutrinos' nor 'muons' an AssertionError; neither is a
    ConfigurationError. *)
Lemma construction_raises_no_ConfigurationError :
  ~ (forall a e, arg_particles a <> "neutrinos" -> __init__ a = Raise e ->
       class_name e = Some "ConfigurationError").
Proof.
  intros H.
  specialize (H Scenario.muon_args (UnboundLocalError "output_names")
                ltac:(discriminate) ltac:(vm_compute; reflexivity)).
  discriminate H.
Qed.

Lemma tev_new_ready : nominal_ready_check Scenario.tev_new = true.
Proof. vm_compute. reflexivity. Qed.

(** C5 on the stage with the energy of its input binning in TeV: the one bin
    from 1 to 10 TeV is 9000 GeV wide, the event of weight 2 at 5 GeV falls
    in the second of the two bins of the histogram, and the one volume is
    broadcast to both: 0 / (9000 * 4 pi) and 2 / (9000 * 4 pi). And on the
    first stage, whose binnings have the same shape: one event of weight 2 in
    a bin of width 9, no direction and no azimuth, gives 2 / (9 * 4 pi). *)
Lemma nominal_array_witness :
  (exists ts w',
     _compute_nominal_transforms Scenario.tev_new = (OK ts, w')
     /\ heap w' !! 0
        = Some [PrimFloat.div 0 (PrimFloat.mul 9000 (PrimFloat.mul 4 np_pi));
                PrimFloat.div 2 (PrimFloat.mul 9000 (PrimFloat.mul 4 np_pi))])
  /\ exists ts w' arr,
       _compute_nominal_transforms Scenario.merged_new = (OK ts, w')
       /\ heap w' !! 0 = Some arr
       /\ arr !! 0 = Some (PrimFloat.div 2 (PrimFloat.mul 9 (PrimFloat.mul 4 np_pi))).
Proof.
  split.
  - destruct (nominal_ready_check_sound Scenario.tev_new tev_new_ready)
      as (ev & Hev & Hready).
    assert (ev = Scenario.nue_events) as ->
      by (vm_compute in Hev; injection Hev as <-; reflexivity).
    destruct (nominal_array_is_histogram_over_volume _ _ Hready)
      as (ts & w' & Hrun & Harr).
    exists ts, w'. split; [exact Hrun|].
    destruct (Harr 0 [(nue, cc); (nuebar, cc)] eq_refl) as (H0 & _).
    cbn [List.length heap Scenario.tev_new Nat.add] in H0.
    rewrite H0. vm_compute. reflexivity.
  - destruct (nominal_ready_check_sound Scenario.merged_new merged_new_ready)
      as (ev & Hev & Hready).
    assert (ev = Scenario.nue_events) as ->
      by (vm_compute in Hev; injection Hev as <-; reflexivity).
    destruct (nominal_array_is_histogram_over_volume _ _ Hready)
      as (ts & w' & Hrun & Harr).
    destruct (Harr 0 [(nue, cc); (nuebar, cc)] eq_refl) as (_ & _ & _ & Hsame).
    destruct (Hsame eq_refl 0 2%float 9%float) as (arr & Ha & Hj);
      [vm_compute; reflexivity | vm_compute; reflexivity |].
    exists ts, w', arr. split; [exact Hrun|]. split; [exact Ha|].
    rewrite Hj. vm_compute. reflexivity.
Defined.

(** C3 on the second stage. *)
Lemma unmerged_mode_witness :
  sum_grouped_flavints (self Scenario.tau_new) = false
  /\ exists ts w',
       _compute_nominal_transforms Scenario.tau_new = (OK ts, w')
       /\ List.map (fun t => (xf_input_names t, xf_output_name t, xform_array t, sum_inputs t))
            (firstn 3 ts)
          = [(["nutau"], "nutau_cc", 0, false); (["nutau"], "nutau_nc", 0, false);
             (["nue"], "nue_cc", 1, false)].
Proof.
  split; [reflexivity|].
  destruct (nominal_ready_check_sound Scenario.tau_new tau_new_ready)
    as (ev & Hev & Hready).
  destruct (unmerged_mode_transforms _ _ Hready eq_refl) as (w' & Hrun & _).
  eexists _, w'. split; [exact Hrun|]. vm_compute. reflexivity.
Defined.

(** C2 on the first stage. *)
Lemma merged_mode_witness :
  sum_grouped_flavints (self Scenario.merged_new) = true
  /\ exists ts w',
       _compute_nominal_transforms Scenario.merged_new = (OK ts, w')
       /\ List.map (fun t => (xf_input_names t, xf_output_name t, xform_array t, sum_inputs t))
            (firstn 2 ts)
          = [(["nue"; "nuebar"], "nue_cc+nuebar_cc", 0, true); (["nue"], "nue_nc", 1, true)].
Proof.
  split; [reflexivity|].
  destruct (nominal_ready_check_sound Scenario.merged_new merged_new_ready)
    as (ev & Hev & Hready).
  destruct (merged_mode_transforms _ _ Hready eq_refl) as (w' & Hrun & _).
  eexists _, w'. split; [exact Hrun|]. vm_compute. reflexivity.
Defined.

Lemma tau_single_cached_ready : rescale_ready Scenario.tau_single_cached 0.
Proof. apply rescale_ready_check_sound; vm_compute; reflexivity. Qed.

(** C1 where the transforms of a group agree: nutau_cc in a group of its own
    gets the norm, 2; the group of nue_cc and nuebar_cc of the first stage
    does not. *)
Lemma rescaled_array_witness :
  rescale_ready Scenario.tau_single_cached 0
  /\ (exists out w' t',
        _compute_transforms Scenario.tau_single_cached = (OK out, w')
        /\ In t' out
        /\ xf_output_name t' = "nutau_cc"
        /\ heap w' !! xform_array t'
           = Some [PrimFloat.mul
                     (PrimFloat.mul
                        (PrimFloat.div 3 (PrimFloat.mul 9 (PrimFloat.mul 4 np_pi)))
                        (PrimFloat.mul 1 1)) 2])
  /\ rescale_ready Scenario.merged_cached 0
  /\ exists out w' t',
       _compute_transforms Scenario.merged_cached = (OK out, w')
       /\ In t' out
       /\ xf_output_name t' = "nue_cc+nuebar_cc"
       /\ heap w' !! xform_array t'
          = Some (ndarray_mul_scalar
                    [PrimFloat.div 2 (PrimFloat.mul 9 (PrimFloat.mul 4 np_pi))]
                    (PrimFloat.mul 1 1)).
Proof.
  split; [exact tau_single_cached_ready|]. split.
  { destruct (rescaled_array_of_each_nominal_transform _ _ tau_single_cached_ready)
      as (out & w' & Hrun & Hall).
    pose (t := mkTransform ["nutau"] "nutau_cc" Scenario.energy_only Scenario.energy_only
                 7 false).
    assert (Ht : In t (assembled (self Scenario.tau_single_cached) [(nutau, cc)] (0 + 7)))
      by (vm_compute; tauto).
    assert (Hagree : forall t2,
               In t2 (assembled (self Scenario.tau_single_cached) [(nutau, cc)] (0 + 7)) ->
               String.eqb (xf_output_name t2) "nutau_cc"
               || String.eqb (xf_output_name t2) "nutaubar_cc"
               = String.eqb (xf_output_name t) "nutau_cc"
                 || String.eqb (xf_output_name t) "nutaubar_cc").
    { intros t2. vm_compute. intros [<-|[]]. reflexivity. }
    destruct (Hall 7 [(nutau, cc)] eq_refl t Ht Hagree
                [PrimFloat.div 3 (PrimFloat.mul 9 (PrimFloat.mul 4 np_pi))]
                ltac:(vm_compute; reflexivity))
      as (t' & Hin & _ & Hname & Hheap).
    exists out, w', t'. split; [exact Hrun|]. split; [exact Hin|]. split; [exact Hname|].
    rewrite Hheap. vm_compute. reflexivity. }
  split; [exact merged_cached_ready|].
  destruct (rescaled_array_of_each_nominal_transform _ _ merged_cached_ready)
    as (out & w' & Hrun & Hall).
  pose (t := mkTransform ["nue"; "nuebar"] "nue_cc+nuebar_cc" Scenario.energy_only
               Scenario.energy_only 0 true).
  assert (Ht : In t (assembled (self Scenario.merged_cached) [(nue, cc); (nuebar, cc)]
                       (0 + 0))) by (vm_compute; tauto).
  assert (Hagree : forall t2,
             In t2 (assembled (self Scenario.merged_cached) [(nue, cc); (nuebar, cc)]
                      (0 + 0)) ->
             String.eqb (xf_output_name t2) "nutau_cc"
             || String.eqb (xf_output_name t2) "nutaubar_cc"
             = String.eqb (xf_output_name t) "nutau_cc"
               || String.eqb (xf_output_name t) "nutaubar_cc").
  { intros t2. vm_compute. intros [<-|[]]. reflexivity. }
  destruct (Hall 0 [(nue, cc); (nuebar, cc)] eq_refl t Ht Hagree
              [PrimFloat.div 2 (PrimFloat.mul 9 (PrimFloat.mul 4 np_pi))]
              ltac:(vm_compute; reflexivity))
    as (t' & Hin & _ & Hname & Hheap).
  exists out, w', t'. split; [exact Hrun|]. split; [exact Hin|]. split; [exact Hname|].
  rewrite Hheap. vm_compute. reflexivity.
Defined.

(** C8 on the second stage. *)
Lemma rescale_frame_witness :
  rescale_ready Scenario.tau_cached 0
  /\ exists out w',
       _compute_transforms Scenario.tau_cached = (OK out, w')
       /\ List.map tags out = List.map tags (nominal_transforms (self Scenario.tau_cached))
       /\ heap w' !! 0 = heap Scenario.tau_cached !! 0
       /\ Forall (fun t' => 11 <= xform_array t') out.
Proof.
  split; [exact tau_cached_ready|].
  destruct (rescale_never_touches_the_nominal_arrays Scenario.tau_cached)
    as (_ & Hkeep & Hready).
  destruct (Hready 0 tau_cached_ready) as (out & w' & Hrun & Hfresh & Htags).
  exists out, w'. repeat split; try assumption.
  - pose (t := mkTransform ["nutau"] "nutau_cc" Scenario.energy_only Scenario.energy_only
                 0 false).
    specialize (Hkeep t _ ltac:(vm_compute; tauto) ltac:(vm_compute; reflexivity)).
    rewrite Hrun in Hkeep. cbn [snd xform_array t] in Hkeep. rewrite Hkeep.
    vm_compute. reflexivity.
  - apply List.Forall_forall. intros t' Ht'. now apply Hfresh in Ht' as [Hle _].
Defined.

(** C8 as the specification states it fails on a stage the constructor
    builds: with inputs named 'nuall' and 'nuallbar' the nominal set holds
    twelve transforms and the rescale phase emits none, so the emitted set
    does not carry the names of the nominal set. *)
Lemma emitted_set_differs_from_the_nominal_set :
  Scenario.after cache_nominal_transforms (Scenario.init_world Scenario.nuall_args)
  = Some Scenario.nuall_cached
  /\ ~ (forall out w',
          _compute_transforms Scenario.nuall_cached = (OK out, w') ->
          List.map tags out
          = List.map tags (nominal_transforms (self Scenario.nuall_cached))).
Proof.
  split; [vm_compute; reflexivity|].
  intros H.
  specialize (H [] Scenario.nuall_cached ltac:(vm_compute; reflexivity)).
  discriminate H.
Qed.

(** ** The scenario of one event

    One nue_cc event of weight 2 at 5 GeV, one energy bin from 1 to 10 GeV, no
    direction and no azimuth, scale 1 and one second of livetime: the nominal
    effective area of the group of nue_cc is 2 / (9 * 4 pi), and the rescale
    phase emits, for that group, that value times (1 * 1). *)
Lemma one_event_scenario :
  Scenario.init_world_is Scenario.merged_args Scenario.merged_new
  /\ cache_nominal_transforms Scenario.merged_new = (OK tt, Scenario.merged_cached)
  /\ heap Scenario.merged_cached !! 0
     = Some [PrimFloat.div 2 (PrimFloat.mul 9 (PrimFloat.mul 4 np_pi))]
  /\ exists out w' t',
       _compute_transforms Scenario.merged_cached = (OK out, w')
       /\ out !! 0 = Some t'
       /\ xf_input_names t' = ["nue"; "nuebar"]
       /\ xf_output_name t' = "nue_cc+nuebar_cc"
       /\ sum_inputs t' = true
       /\ heap w' !! xform_array t'
          = Some [PrimFloat.mul (PrimFloat.div 2 (PrimFloat.mul 9 (PrimFloat.mul 4 np_pi)))
                    (PrimFloat.mul 1 1)].
Proof.
  split; [repeat split; vm_compute; reflexivity|].
  split; [vm_compute; reflexivity|]. split; [vm_compute; reflexivity|].
  eexists _, _, _. split; [vm_compute; reflexivity|].
  repeat split; vm_compute; reflexivity.
Qed.

(** The constructor, in merged mode, on the arguments of the first stage. *)
Lemma init_merged_output_names_witness :
  output_names (self Scenario.merged_new)
  = List.map str_NuFlavIntGroup (transform_groups (self Scenario.merged_new)).
Proof.
  destruct (init_merged_output_names Scenario.merged_args (self Scenario.merged_new))
    as [_ H]; [vm_compute; reflexivity | reflexivity | exact H].
Defined.

(** The stages of the examples are the ones the constructor and the nominal
    phase produce on their arguments. *)
Lemma scenario_worlds :
  Scenario.init_world_is Scenario.tau_args Scenario.tau_new
  /\ cache_nominal_transforms Scenario.tau_new = (OK tt, Scenario.tau_cached)
  /\ Scenario.init_world_is Scenario.foo_args Scenario.foo_new.
Proof. repeat split; vm_compute; reflexivity. Qed.

(** ** Further properties on stages that run *)

Lemma unfed_new_ready : nominal_ready_check Scenario.unfed_new = true.
Proof. vm_compute. reflexivity. Qed.

Lemma tau_new_well_formed : stage_well_formed (self Scenario.tau_new).
Proof. apply stage_well_formed_check_sound. vm_compute. reflexivity. Qed.

(** The string 'nue, nuebar' gives the two names. *)
Lemma input_names_string_witness :
  arg_input_names Scenario.unfed_args = NamesString "nue, nuebar"
  /\ input_names (self Scenario.unfed_new) = ["nue"; "nuebar"].
Proof.
  split; [reflexivity|].
  destruct (input_names_string_is_split Scenario.unfed_args "nue, nuebar" eq_refl)
    as (names & Hnames & _ & _ & _ & Hst).
  rewrite (Hst (self Scenario.unfed_new)) by (vm_compute; reflexivity).
  vm_compute in Hnames. injection Hnames as <-. reflexivity.
Defined.

(** The second stage: the twelve categories of the six default flavours. *)
Lemma init_unmerged_output_names_witness :
  __init__ Scenario.tau_args = OK (self Scenario.tau_new)
  /\ NoDup (output_names (self Scenario.tau_new))
  /\ List.length (output_names (self Scenario.tau_new)) = 12.
Proof.
  assert (H : __init__ Scenario.tau_args = OK (self Scenario.tau_new))
    by (vm_compute; reflexivity).
  split; [exact H|].
  destruct (init_unmerged_output_names Scenario.tau_args (self Scenario.tau_new) H eq_refl)
    as (_ & fl & _ & _ & Hnd & _).
  split; [exact Hnd | reflexivity].
Defined.

(** The first stage, new: its first [load_events] asks for the file. *)
Lemma new_stage_loads_events_first_witness :
  __init__ Scenario.merged_args = OK (self Scenario.merged_new)
  /\ calls (snd (load_events Scenario.merged_new)) = [LoadEvents (hash_obj "one_nue_cc.hdf5")].
Proof.
  assert (H : __init__ Scenario.merged_args = OK (self Scenario.merged_new))
    by (vm_compute; reflexivity).
  split; [exact H|].
  destruct (new_stage_loads_events_first Scenario.merged_args (self Scenario.merged_new)
              [] [] H) as [_ Hcalls].
  exact Hcalls.
Defined.

(** The first stage, with its events loaded, through the rescale phase. *)
Lemma events_and_hash_witness :
  events_coherent (self Scenario.merged_cached)
  /\ events_coherent (self (snd (_compute_transforms Scenario.merged_cached))).
Proof.
  assert (H : events_coherent (self Scenario.merged_cached)).
  { intros h Hh. exists "one_nue_cc.hdf5", Scenario.nue_events.
    vm_compute in Hh. injection Hh as <-. repeat split; vm_compute; reflexivity. }
  split; [exact H|].
  destruct (events_and_hash_stay_together Scenario.merged_cached H) as (_ & _ & _ & Hr & _).
  exact Hr.
Defined.

Lemma bogus_new_ready : nominal_ready_check Scenario.bogus_new = true.
Proof. vm_compute. reflexivity. Qed.

(** The name 'bogus' denotes nothing: the eleven transforms are returned,
    none of them fed by it. *)
Lemma input_name_without_categories_witness :
  In "bogus" (input_names (self Scenario.bogus_new))
  /\ exists ts w',
       _compute_nominal_transforms Scenario.bogus_new = (OK ts, w')
       /\ List.length ts = 11
       /\ forall t, In t ts -> ~ In "bogus" (xf_input_names t).
Proof.
  split; [now left|].
  destruct (nominal_ready_check_sound Scenario.bogus_new bogus_new_ready)
    as (ev & _ & Hready).
  destruct (input_name_without_categories_feeds_no_transform Scenario.bogus_new ev "bogus"
              Hready ltac:(vm_compute; reflexivity))
    as (_ & ts & w' & Hrun & Hnone & _).
  exists ts, w'. split; [exact Hrun|]. split; [|exact Hnone].
  vm_compute in Hrun. injection Hrun as <- _. reflexivity.
Defined.

(** The binning that names 'true_zeta' twice and 'true_foo' once. *)
Lemma extra_dimensions_witness :
  exists dims,
    fst (_compute_nominal_transforms Scenario.zeta_new) = Raise (ValueError (ExtraDimensions dims))
    /\ dims = ["true_foo"; "true_zeta"].
Proof.
  destruct (extra_dimensions_are_listed_once_in_order Scenario.zeta_new
              ltac:(vm_compute; reflexivity) ltac:(vm_compute; reflexivity))
    as (dims & Hrun & _).
  { exists "true_foo". split; [vm_compute; tauto|].
    intros [H|[H|[H|[]]]]; discriminate. }
  exists dims. split; [exact Hrun|].
  vm_compute in Hrun. now injection Hrun as <-.
Defined.

(** The first stage, computed twice. *)
Lemma nominal_phase_again_witness :
  exists ts w1 ts' w2,
    _compute_nominal_transforms Scenario.merged_new = (OK ts, w1)
    /\ _compute_nominal_transforms w1 = (OK ts', w2)
    /\ List.length (calls w1) = 12 /\ List.length (calls w2) = 23
    /\ List.length (heap w1) = 11 /\ List.length (heap w2) = 22.
Proof.
  destruct (nominal_ready_check_sound Scenario.merged_new merged_new_ready)
    as (ev & Hev & Hready).
  destruct (nominal_phase_again_takes_the_histograms_again _ _ Hready)
    as (ts & w1 & ts' & w2 & Hrun & Hrun1 & _ & Hcalls & Hheap & _).
  exists ts, w1, ts', w2. split; [exact Hrun|]. split; [exact Hrun1|].
  rewrite Hcalls, Hheap, List.length_app, List.length_map.
  vm_compute in Hrun. injection Hrun as <- <-.
  repeat split; vm_compute; reflexivity.
Defined.

(** The stage whose first group is empty. *)
Lemma empty_group_witness :
  _compute_transforms Scenario.empty_group_world = (Raise IndexError, Scenario.empty_group_world).
Proof.
  destruct (empty_group_stops_the_rescale Scenario.empty_group_world ltac:(now left)) as [_ H].
  exact (H _ eq_refl).
Defined.

(** The stage fed by the two electron flavours only, after its nominal
    computation. *)
Lemma transform_without_input_names_witness :
  fst (_compute_transforms Scenario.unfed_cached) = Raise IndexError.
Proof.
  apply transform_without_input_names_stops_the_rescale.
  - discriminate.
  - exists (mkTransform [] "numu_cc" Scenario.energy_only Scenario.energy_only 3 true).
    split; [vm_compute; tauto | reflexivity].
  - apply List.Forall_forall. intros t Ht. apply is_OK_returns. revert t Ht.
    apply List.forallb_forall. vm_compute. reflexivity.
  - apply List.Forall_forall. intros t Ht.
    assert (Hc : match heap Scenario.unfed_cached !! xform_array t with
                 | Some _ => true | None => false end = true).
    { revert t Ht. apply List.forallb_forall. vm_compute. reflexivity. }
    destruct (heap Scenario.unfed_cached !! xform_array t); [now eexists | discriminate].
Defined.

(** The same stage from the start: the group of numu_cc is fed by neither
    'nue' nor 'nuebar'. *)
Lemma unfed_group_witness :
  exists w1,
    cache_nominal_transforms Scenario.unfed_new = (OK tt, w1)
    /\ fst (_compute_transforms w1) = Raise IndexError.
Proof.
  destruct (nominal_ready_check_sound Scenario.unfed_new unfed_new_ready) as (ev & _ & Hready).
  destruct (unfed_group_breaks_the_rescale Scenario.unfed_new ev [(numu, cc)] "numu_cc" Hready
              eq_refl ltac:(vm_compute; tauto) ltac:(vm_compute; tauto)
              ltac:(vm_compute; reflexivity))
    as (w1 & t & Hcache & _ & _ & _ & Hrun).
  { intros n [<-|[<-|[]]]; vm_compute; reflexivity. }
  exists w1. split; [exact Hcache | exact Hrun].
Defined.

(** The second stage: the array of the group of nutau is the nominal one
    times (1 * 1) and times the norm, 2, its first transform being the one
    for 'nutau_cc'. *)
Lemma rescale_one_array_per_group_witness :
  exists addrs w' a',
    _compute_transforms Scenario.tau_cached
    = (OK (emitted (self Scenario.tau_cached) 0
             (transform_groups (self Scenario.tau_cached)) addrs), w')
    /\ addrs !! 0 = Some a'
    /\ heap w' !! a'
       = Some [PrimFloat.mul
                 (PrimFloat.mul (PrimFloat.div 4 (PrimFloat.mul 9 (PrimFloat.mul 4 np_pi)))
                    (PrimFloat.mul 1 1)) 2].
Proof.
  destruct (rescale_phase_emits_one_array_per_group _ _ tau_cached_ready)
    as (addrs & w' & Hrun & Hlen & Harr).
  destruct addrs as [|a' addrs]; [discriminate|].
  exists (a' :: addrs), w', a'. split; [exact Hrun|]. split; [reflexivity|].
  destruct (Harr 0 [(nutau, cc); (nutau, nc)] a' eq_refl eq_refl
              (mkTransform ["nutau"] "nutau_cc" Scenario.energy_only Scenario.energy_only
                 0 false)
              [mkTransform ["nutau"] "nutau_nc" Scenario.energy_only Scenario.energy_only
                 0 false]
              ltac:(vm_compute; reflexivity))
    as (_ & A & HA & Hf).
  vm_compute in HA. injection HA as <-. rewrite Hf. vm_compute. reflexivity.
Defined.

(** The second stage from the start. *)
Lemma nominal_phase_prepares_witness :
  exists w1 addrs w2,
    cache_nominal_transforms Scenario.tau_new = (OK tt, w1)
    /\ rescale_ready w1 0
    /\ _compute_transforms w1
       = (OK (emitted (self Scenario.tau_new) 0
                (transform_groups (self Scenario.tau_new)) addrs), w2).
Proof.
  destruct (nominal_ready_check_sound Scenario.tau_new tau_new_ready)
    as (ev & Hev & Hready).
  destruct (nominal_phase_prepares_the_rescale _ _ Hready tau_new_well_formed)
    as (w1 & addrs & w2 & Hcache & Hready1 & Hrun & _).
  exists w1, addrs, w2. split; [exact Hcache|]. split; [exact Hready1 | exact Hrun].
Defined.

(** The first stage, rescaled twice. *)
Lemma rescale_repeated_witness :
  exists out1 w1 out2 w2,
    _compute_transforms Scenario.merged_cached = (OK out1, w1)
    /\ _compute_transforms w1 = (OK out2, w2)
    /\ List.map tags out1 = List.map tags out2
    /\ List.length out1 = 11.
Proof.
  destruct (rescale_phase_can_be_repeated _ _ merged_cached_ready)
    as (out1 & w1 & out2 & w2 & Hrun1 & Hrun2 & Hall).
  exists out1, w1, out2, w2. split; [exact Hrun1|]. split; [exact Hrun2|]. split.
  - clear Hrun1 Hrun2. induction Hall as [|t1 t2 l1 l2 (Ht & _) _ IH]; cbn; [reflexivity|].
    now rewrite Ht, IH.
  - vm_compute in Hrun1. injection Hrun1 as <- _. reflexivity.
Defined.

(** Inputs named 'nuall' and 'nuallbar': twelve nominal transforms, none
    emitted. *)
Lemma rescale_needs_flavours_witness :
  List.length (nominal_transforms (self Scenario.nuall_cached)) = 12
  /\ _compute_transforms Scenario.nuall_cached = (OK [], Scenario.nuall_cached).
Proof.
  split; [reflexivity|].
  apply rescale_needs_flavours_as_input_names.
  - apply List.Forall_forall. intros g Hg. vm_compute in Hg.
    repeat (destruct Hg as [<-|Hg]; [discriminate|]). destruct Hg.
  - apply List.Forall_forall. intros t Ht. vm_compute in Ht.
    repeat (destruct Ht as [<-|Ht];
            [eexists; split; [reflexivity | intros []; discriminate]|]).
    destruct Ht.
Defined.

(** The second stage: twelve transforms, twelve pairs of names. *)
Lemma one_transform_per_pair_witness :
  exists ts w',
    _compute_nominal_transforms Scenario.tau_new = (OK ts, w')
    /\ NoDup (List.map names_of ts)
    /\ List.length ts = 12.
Proof.
  destruct (nominal_ready_check_sound Scenario.tau_new tau_new_ready)
    as (ev & Hev & Hready).
  destruct (nominal_set_has_one_transform_per_pair _ _ Hready tau_new_well_formed)
    as (ts & w' & Hrun & Hnd & _).
  { apply (bool_decide_unpack _). vm_compute. exact I. }
  { apply (bool_decide_unpack _). vm_compute. exact I. }
  exists ts, w'. split; [exact Hrun|]. split; [exact Hnd|].
  vm_compute in Hrun. injection Hrun as <- _. reflexivity.
Defined.

Lemma taucc_cached_ready : rescale_ready Scenario.taucc_cached 0.
Proof. apply rescale_ready_check_sound; vm_compute; reflexivity. Qed.

Lemma taucc_names_denote_groups : names_denote_groups (self Scenario.taucc_cached).
Proof.
  split; [vm_compute; reflexivity|].
  intros g Hg. vm_compute in Hg.
  repeat (destruct Hg as [<-|Hg]; [eexists; split; [vm_compute; reflexivity | tauto]|]).
  destruct Hg.
Qed.

Lemma tau_single_merged_ready : rescale_ready Scenario.tau_single_merged_cached 0.
Proof. apply rescale_ready_check_sound; vm_compute; reflexivity. Qed.

Lemma tau_single_merged_names_denote_groups :
  names_denote_groups (self Scenario.tau_single_merged_cached).
Proof.
  split; [vm_compute; reflexivity|].
  intros g Hg. vm_compute in Hg.
  repeat (destruct Hg as [<-|Hg]; [eexists; split; [vm_compute; reflexivity | tauto]|]).
  destruct Hg.
Qed.

(** With nutau_cc in a group of its own the norm, 2, reaches the group; with
    the two charged-current interactions of the tau flavours grouped it does
    not. *)
Lemma merged_norm_witness :
  (exists out w' t',
     _compute_transforms Scenario.tau_single_merged_cached = (OK out, w')
     /\ In t' out
     /\ xf_output_name t' = "nutau_cc"
     /\ heap w' !! xform_array t'
        = Some [PrimFloat.mul
                  (PrimFloat.mul (PrimFloat.div 3 (PrimFloat.mul 9 (PrimFloat.mul 4 np_pi)))
                     (PrimFloat.mul 1 1)) 2])
  /\ exists out w' t',
       _compute_transforms Scenario.taucc_cached = (OK out, w')
       /\ In t' out
       /\ xf_output_name t' = "nutau_cc+nutaubar_cc"
       /\ heap w' !! xform_array t'
          = Some [PrimFloat.mul (PrimFloat.div 3 (PrimFloat.mul 9 (PrimFloat.mul 4 np_pi)))
                    (PrimFloat.mul 1 1)].
Proof.
  split.
  - destruct (merged_norm_goes_by_the_name_of_the_group _ _ tau_single_merged_ready eq_refl
                tau_single_merged_names_denote_groups
                ltac:(vm_compute; reflexivity) ltac:(vm_compute; reflexivity))
      as (out & w' & Hrun & Hall).
    destruct (Hall 7 [(nutau, cc)] eq_refl) as (t' & A & Hin & Hname & HA & Hf & _).
    exists out, w', t'. split; [exact Hrun|]. split; [exact Hin|]. split; [exact Hname|].
    vm_compute in HA. injection HA as <-. rewrite Hf. vm_compute. reflexivity.
  - destruct (merged_norm_goes_by_the_name_of_the_group _ _ taucc_cached_ready eq_refl
                taucc_names_denote_groups
                ltac:(vm_compute; reflexivity) ltac:(vm_compute; reflexivity))
      as (out & w' & Hrun & Hall).
    destruct (Hall 0 [(nutau, cc); (nutaubar, cc)] eq_refl)
      as (t' & A & Hin & Hname & HA & _ & _ & Hmixed).
    exists out, w', t'. split; [exact Hrun|]. split; [exact Hin|]. split; [exact Hname|].
    vm_compute in HA. injection HA as <-.
    rewrite Hmixed; [vm_compute; reflexivity | |].
    + exists (nutaubar, cc). split; [vm_compute; tauto | discriminate].
    + exists (nutau, cc). split; [vm_compute; tauto | discriminate].
Defined.

